(** * pysingfel.geometry: rotation algebra, trilinear slicing, panel assembly

    A shallow embedding of [pysingfel/geometry.py].  NumPy arrays are
    modelled as a shape together with the row-major flat data, float64
    values as real numbers (rounding is not modelled), int64 values as
    integers, and Python exceptions as the [Raise] outcome of a small
    exception monad.  The slicing functions come twice: with exact
    integers, for the statements whose hypotheses keep every index
    inside int64 or that do not depend on the cast, and, under the names
    ending in [_int64], with the cast to int64 and the wrap-around of
    int64 arithmetic written out.  Where the element type of an
    array decides what the code does (the axis of the angle-axis
    converters, divided in place) the array carries it.  The module is
    Python 2 code (it tests [isinstance(axis, basestring)]): [/] between
    integers is floor division. *)

From Stdlib Require Import String Ascii Bool ZArith List Reals Lra Lia.
Import ListNotations.
Open Scope list_scope.

(* ================================================================== *)
(** * Part I: the embedding *)
(* ================================================================== *)

(** ** Exceptions *)

Inductive exn : Type :=
| ValueError
| IndexError
| TypeError
| ZeroDivisionError
| NameError (name : string).

Inductive result (A : Type) : Type :=
| Ok (a : A)
| Raise (e : exn).

Arguments Ok {A} a.
Arguments Raise {A} e.

Definition bind {A B : Type} (m : result A) (k : A -> result B) : result B :=
  match m with
  | Ok a => k a
  | Raise e => Raise e
  end.

Notation "x <- m ;; k" := (bind m (fun x => k))
  (at level 61, m at next level, right associativity).

Definition raises {A : Type} (m : result A) : Prop :=
  exists e, m = Raise e.

(** ** Arrays *)

Record ndarray (A : Type) : Type := mk_ndarray {
  shape : list nat;
  data : list A
}.

Arguments mk_ndarray {A} shape data.
Arguments shape {A} n.
Arguments data {A} n.

(** [np.prod] of a shape tuple. *)
Definition np_prod (s : list nat) : nat := fold_right Nat.mul 1%nat s.

(** [np.prod(shape)] used as an array dimension.  Of the empty tuple it
    is the float [1.0], which no dimension accepts. *)
Definition np_prod_dim (s : list nat) : result nat :=
  match s with
  | [] => Raise TypeError
  | _ => Ok (np_prod s)
  end.

(** An array is well formed when its flat data fills its shape. *)
Definition well_formed {A : Type} (a : ndarray A) : Prop :=
  length (data a) = np_prod (shape a).

(** [np.reshape(a, newshape)]: same data, new shape; the sizes must agree. *)
Definition np_reshape {A : Type} (a : ndarray A) (newshape : list nat)
  : result (ndarray A) :=
  if Nat.eqb (length (data a)) (np_prod newshape)
  then Ok (mk_ndarray newshape (data a))
  else Raise ValueError.

(** Elementwise binary operation on two flat arrays of the same shape. *)
Definition np_map2 {A B C : Type} (f : A -> B -> C)
  (a : list A) (b : list B) : list C :=
  map (fun p => f (fst p) (snd p)) (combine a b).

(** [a[i, k]] for a 2-D array with [ncol] columns stored row-major. *)
Definition at2 {A : Type} (d : A) (ncol : nat) (l : list A) (i k : nat) : A :=
  nth (ncol * i + k) l d.

(** [a[i, :]] for a 2-D array with [ncol] columns stored row-major. *)
Definition np_row {A : Type} (ncol : nat) (i : nat) (l : list A) : list A :=
  firstn ncol (skipn (ncol * i) l).

(** The [n] rows of a 2-D array with [ncol] columns. *)
Fixpoint np_rows {A : Type} (ncol n : nat) (l : list A) : list (list A) :=
  match n with
  | O => []
  | S n' => firstn ncol l :: np_rows ncol n' (skipn ncol l)
  end.

(** [np.sum] over a flat run of reals. *)
Definition np_sum (l : list R) : R := fold_left Rplus l 0%R.

(** [np.floor(x).astype(np.int64)] for a floor that fits int64;
    [np_floor_int64] below has the cast. *)
Definition np_floor (x : R) : Z := Int_part x.

(** ** Rotating the pixels *)

(** [np.dot(pixels_position, rot_mat.T)]: the last axis of the pixel array
    is contracted with the second axis of [rot_mat]. *)
Definition rotate_pixels_in_reciprocal_space
  (rot_mat : ndarray R) (pixels_position : ndarray R) : result (ndarray R) :=
  match shape rot_mat with
  | [m; k] =>
      if Nat.eqb (last (shape pixels_position) 0%nat) k
         && negb (Nat.eqb (length (shape pixels_position)) 0)
      then
        let pixel_num := np_prod (removelast (shape pixels_position)) in
        Ok (mk_ndarray (removelast (shape pixels_position) ++ [m])
              (flat_map
                 (fun i =>
                    map (fun j =>
                           np_sum (map (fun c =>
                                          at2 0%R k (data pixels_position) i c
                                          * at2 0%R k (data rot_mat) j c)%R
                                       (seq 0 k)))
                        (seq 0 m))
                 (seq 0 pixel_num)))
      else Raise ValueError
  | _ => Raise ValueError
  end.

(** ** Trilinear stencil *)

(** The eight corner indexes of pixel [i], in the order the source fills
    [indexes[i, 0..7, :]]. *)
Definition stencil_indexes (tmp_index : list Z) (i : nat) : list Z :=
  let t := at2 0%Z 3 tmp_index i in
  [ t 0%nat; t 1%nat; t 2%nat;
    t 0%nat; t 1%nat; (t 2%nat + 1)%Z;
    t 0%nat; (t 1%nat + 1)%Z; t 2%nat;
    t 0%nat; (t 1%nat + 1)%Z; (t 2%nat + 1)%Z;
    (t 0%nat + 1)%Z; t 1%nat; t 2%nat;
    (t 0%nat + 1)%Z; t 1%nat; (t 2%nat + 1)%Z;
    (t 0%nat + 1)%Z; (t 1%nat + 1)%Z; t 2%nat;
    (t 0%nat + 1)%Z; (t 1%nat + 1)%Z; (t 2%nat + 1)%Z ].

(** The eight weights of pixel [i], in the order the source fills
    [weight[i, 0..7]]. *)
Definition stencil_weights (dfloor dceiling : list R) (i : nat) : list R :=
  let f := at2 0%R 3 dfloor i in
  let c := at2 0%R 3 dceiling i in
  [ c 0%nat * c 1%nat * c 2%nat;
    c 0%nat * c 1%nat * f 2%nat;
    c 0%nat * f 1%nat * c 2%nat;
    c 0%nat * f 1%nat * f 2%nat;
    f 0%nat * c 1%nat * c 2%nat;
    f 0%nat * c 1%nat * f 2%nat;
    f 0%nat * f 1%nat * c 2%nat;
    f 0%nat * f 1%nat * f 2%nat ]%R.

(** [(voxel_num_1d - 1) / 2] on Python integers. *)
Definition center_shift (voxel_num_1d : Z) : R :=
  IZR ((voxel_num_1d - 1) / 2).

Definition get_weight_and_index
  (pixel_position : ndarray R) (voxel_length : R) (voxel_num_1d : Z)
  : result (ndarray Z * ndarray R) :=
  let detector_shape := removelast (shape pixel_position) in
  pixel_num <- np_prod_dim detector_shape ;;
  pixel_position_1d <- np_reshape pixel_position [pixel_num; 3%nat] ;;
  let pixel_position_1d_voxel_unit :=
    map (fun x => x / voxel_length)%R (data pixel_position_1d) in
  let shift := center_shift voxel_num_1d in
  let pixel_position_1d_voxel_unit :=
    map (fun x => x + shift)%R pixel_position_1d_voxel_unit in
  let tmp_index := map np_floor pixel_position_1d_voxel_unit in
  let dfloor :=
    np_map2 (fun x t => x - IZR t)%R pixel_position_1d_voxel_unit tmp_index in
  let dceiling := map (fun x => 1 - x)%R dfloor in
  let indexes := flat_map (stencil_indexes tmp_index) (seq 0 pixel_num) in
  let weight := flat_map (stencil_weights dfloor dceiling) (seq 0 pixel_num) in
  Ok (mk_ndarray (detector_shape ++ [8; 3]%nat) indexes,
      mk_ndarray (detector_shape ++ [8]%nat) weight).

Definition get_weight_in_reciprocal_space
  (pixel_position : ndarray R) (voxel_length : R) (voxel_num_1d : Z)
  : result (ndarray Z * ndarray R) :=
  let shift := center_shift voxel_num_1d in
  let pixel_position_voxel_unit :=
    map (fun x => x / voxel_length + shift)%R (data pixel_position) in
  match shape pixel_position with
  | [num_panel; num_x; num_y; ncoord] =>
      let tmp_index := map np_floor pixel_position_voxel_unit in
      let dfloor :=
        np_map2 (fun x t => x - IZR t)%R pixel_position_voxel_unit tmp_index in
      let dceiling := map (fun x => 1 - x)%R dfloor in
      if Nat.eqb ncoord 3 then
        let pixel_num := (num_panel * num_x * num_y)%nat in
        let indexes := flat_map (stencil_indexes tmp_index) (seq 0 pixel_num) in
        let weight :=
          flat_map (stencil_weights dfloor dceiling) (seq 0 pixel_num) in
        Ok (mk_ndarray [num_panel; num_x; num_y; 8; 3]%nat indexes,
            mk_ndarray [num_panel; num_x; num_y; 8]%nat weight)
      else if Nat.eqb ncoord 1 then Raise IndexError
      else Raise ValueError
  | _ => Raise ValueError
  end.

(** ** Gathering one slice *)

(** [volume_1d[i]] with Python's negative indexes. *)
Definition np_getitem {A : Type} (l : list A) (i : Z) : result A :=
  let n := Z.of_nat (length l) in
  let j := if (i <? 0)%Z then (i + n)%Z else i in
  if ((0 <=? j)%Z && (j <? n)%Z)%bool then
    match nth_error l (Z.to_nat j) with
    | Some x => Ok x
    | None => Raise IndexError
    end
  else Raise IndexError.

(** [volume_1d[index]] for an integer index array (flat). *)
Fixpoint np_take {A : Type} (l : list A) (index : list Z) : result (list A) :=
  match index with
  | [] => Ok []
  | i :: rest =>
      x <- np_getitem l i ;;
      xs <- np_take l rest ;;
      Ok (x :: xs)
  end.

(** Product of each length-3 row with the conversion vector, exact;
    [matmul_vec3_int64] below wraps. *)
Definition matmul_vec3 (rows : list (list Z)) (v : list Z) : list Z :=
  map (fun r => fold_left Z.add (np_map2 Z.mul r v) 0%Z) rows.

Definition take_one_slice
  (local_index : ndarray Z) (local_weight : ndarray R) (volume : ndarray R)
  (pixel_num : nat) (pattern_shape : list nat) : result (ndarray R) :=
  match shape volume with
  | [] => Raise IndexError
  | volume_num_1d :: _ =>
      let n := Z.of_nat volume_num_1d in
      let convertion_factor := [n * n; n; 1]%Z in
      index_2d <- np_reshape local_index [pixel_num; 8; 3]%nat ;;
      let index_2d :=
        matmul_vec3 (np_rows 3 (pixel_num * 8) (data index_2d))
          convertion_factor in
      volume_1d <- np_reshape volume [(volume_num_1d ^ 3)%nat] ;;
      weight_2d <- np_reshape local_weight [pixel_num; 8]%nat ;;
      data_to_merge <- np_take (data volume_1d) index_2d ;;
      let data_merged :=
        map np_sum
          (np_rows 8 pixel_num
             (np_map2 Rmult (data weight_2d) data_to_merge)) in
      np_reshape (mk_ndarray [pixel_num] data_merged) pattern_shape
  end.

(** One pass of the loop of [take_n_slice], for a rotation matrix already
    built: rotate the pixel grid, build the stencil, gather the slice.
    [pixel_num] is [np.prod(pattern_shape)], first used as a dimension in
    [take_one_slice]. *)
Definition take_slice_with_rotation
  (pattern_shape : list nat) (pixel_momentum : ndarray R)
  (volume : ndarray R) (voxel_length : R) (rot_mat : ndarray R)
  : result (ndarray R) :=
  rotated_pixel_position <-
    rotate_pixels_in_reciprocal_space rot_mat pixel_momentum ;;
  match shape volume with
  | [] => Raise IndexError
  | volume_num_1d :: _ =>
      iw <- get_weight_and_index rotated_pixel_position voxel_length
              (Z.of_nat volume_num_1d) ;;
      pixel_num <- np_prod_dim pattern_shape ;;
      take_one_slice (fst iw) (snd iw) volume pixel_num pattern_shape
  end.

(** ** Vocabulary of the stencil statements *)

(** Voxel-unit coordinate of a position component on a centred grid. *)
Definition voxel_coord (x voxel_length : R) (voxel_num_1d : Z) : R :=
  (x / voxel_length + (IZR voxel_num_1d - 1) / 2)%R.

(** Fractional part of a coordinate. *)
Definition frac (c : R) : R := (c - IZR (Int_part c))%R.

(** Per-axis products of [frac] and [1 - frac], corner offsets counted
    in binary from (0,0,0) to (1,1,1). *)
Definition trilinear_weights (f0 f1 f2 : R) : list R :=
  [ (1 - f0) * (1 - f1) * (1 - f2);
    (1 - f0) * (1 - f1) * f2;
    (1 - f0) * f1 * (1 - f2);
    (1 - f0) * f1 * f2;
    f0 * (1 - f1) * (1 - f2);
    f0 * (1 - f1) * f2;
    f0 * f1 * (1 - f2);
    f0 * f1 * f2 ]%R.

(** The weight rows [w] of [pixel_num] pixels with flat positions [p] are
    the trilinear weights of the fractional coordinates and sum to one. *)
Definition partition_of_unity (p : list R) (voxel_length : R)
  (voxel_num_1d : Z) (pixel_num : nat) (w : list R) : Prop :=
  forall i, (i < pixel_num)%nat ->
    let f := fun k =>
      frac (voxel_coord (at2 0%R 3 p i k) voxel_length voxel_num_1d) in
    (forall k, (k < 3)%nat -> (0 <= f k < 1)%R) /\
    np_row 8 i w = trilinear_weights (f 0%nat) (f 1%nat) (f 2%nat) /\
    np_sum (np_row 8 i w) = 1%R.

(** A cubic volume of side [n] whose voxels all hold [c]. *)
Definition constant_volume (n : nat) (c : R) : ndarray R :=
  mk_ndarray [n; n; n] (repeat c (n * n * n)).

(** The corner indexes [get_weight_and_index] yields for the rotated
    pixel grid (empty when the stencil cannot be built). *)
Definition stencil_corner_indexes (rot_mat pixel_momentum : ndarray R)
  (voxel_length : R) (voxel_num_1d : nat) : list Z :=
  match
    (rotated <- rotate_pixels_in_reciprocal_space rot_mat pixel_momentum ;;
     get_weight_and_index rotated voxel_length (Z.of_nat voxel_num_1d))
  with
  | Ok iw => data (fst iw)
  | Raise _ => []
  end.

(** A 3x3x3 volume that is zero but for a one at its centre voxel, and
    the rotation that leaves the pixels where they are. *)
Definition single_voxel_volume : ndarray R :=
  mk_ndarray [3; 3; 3]%nat
    [ 0; 0; 0;  0; 0; 0;  0; 0; 0;
      0; 0; 0;  0; 1; 0;  0; 0; 0;
      0; 0; 0;  0; 0; 0;  0; 0; 0 ]%R.

Definition identity_rotation : ndarray R :=
  mk_ndarray [3; 3]%nat [1; 0; 0; 0; 1; 0; 0; 0; 1]%R.

(** ** Quaternions and rotation matrices *)

(** Python's [x > y] on floats. *)
Definition Rgtb (x y : R) : bool := if Rgt_dec x y then true else false.

(** [quaternion2rot3d(quat)] for a 1-D array [quat]. *)
Definition quaternion2rot3d (quat : list R) : result (ndarray R) :=
  match quat with
  | quat0 :: quat1 :: quat2 :: quat3 :: _ =>
      let q01 := (quat0 * quat1)%R in
      let q02 := (quat0 * quat2)%R in
      let q03 := (quat0 * quat3)%R in
      let q11 := (quat1 * quat1)%R in
      let q12 := (quat1 * quat2)%R in
      let q13 := (quat1 * quat3)%R in
      let q22 := (quat2 * quat2)%R in
      let q23 := (quat2 * quat3)%R in
      let q33 := (quat3 * quat3)%R in
      Ok (mk_ndarray [3; 3]%nat
            [ 1 - 2 * (q22 + q33); 2 * (q12 - q03); 2 * (q13 + q02);
              2 * (q12 + q03); 1 - 2 * (q11 + q33); 2 * (q23 - q01);
              2 * (q13 - q02); 2 * (q23 + q01); 1 - 2 * (q11 + q22) ]%R)
  | _ => Raise IndexError
  end.

(** [rotmat_to_quaternion(rotmat)] for a 2-D array [rotmat]. *)
Definition rotmat_to_quaternion (rotmat : ndarray R) : result (list R) :=
  match shape rotmat with
  | [nrow; ncol] =>
      if (3 <=? nrow)%nat && (3 <=? ncol)%nat then
        let r := at2 0%R ncol (data rotmat) in
        let r00 := r 0%nat 0%nat in
        let r01 := r 0%nat 1%nat in
        let r02 := r 0%nat 2%nat in
        let r10 := r 1%nat 0%nat in
        let r11 := r 1%nat 1%nat in
        let r12 := r 1%nat 2%nat in
        let r20 := r 2%nat 0%nat in
        let r21 := r 2%nat 1%nat in
        let r22 := r 2%nat 2%nat in
        let tr := (r00 + r11 + r22)%R in
        if Rgtb tr 0 then
          let S := (sqrt (tr + 1) * 2)%R in
          Ok [ 0.25 * S; (r21 - r12) / S; (r02 - r20) / S; (r10 - r01) / S ]%R
        else if Rgtb r00 r11 && Rgtb r00 r22 then
          let S := (sqrt (1 + r00 - r11 - r22) * 2)%R in
          Ok [ (r21 - r12) / S; 0.25 * S; (r01 + r10) / S; (r02 + r20) / S ]%R
        else if Rgtb r11 r22 then
          let S := (sqrt (1 + r11 - r00 - r22) * 2)%R in
          Ok [ (r02 - r20) / S; (r01 + r10) / S; 0.25 * S; (r12 + r21) / S ]%R
        else
          let S := (sqrt (1 + r22 - r00 - r11) * 2)%R in
          Ok [ (r10 - r01) / S; (r02 + r20) / S; (r12 + r21) / S; 0.25 * S ]%R
      else Raise IndexError
  | _ => Raise IndexError
  end.

(** Quaternion to matrix and back. *)
Definition quaternion_round_trip (quat : list R) : result (list R) :=
  rotmat <- quaternion2rot3d quat ;;
  rotmat_to_quaternion rotmat.

(** ** Angle-axis conversions *)

(** [str.lower] on one ASCII character. *)
Definition lower_char (c : ascii) : ascii :=
  let n := nat_of_ascii c in
  if (65 <=? n)%nat && (n <=? 90)%nat then ascii_of_nat (n + 32) else c.

(** [str.lower]. *)
Fixpoint str_lower (s : string) : string :=
  match s with
  | EmptyString => EmptyString
  | String c rest => String (lower_char c) (str_lower rest)
  end.

(** A 1-D array with its element type: float64 or int64. *)
Inductive array1 : Type :=
| FloatArray (v : list R)
| IntArray (v : list Z).

Definition array1_length (a : array1) : nat :=
  match a with
  | FloatArray v => length v
  | IntArray v => length v
  end.

(** [a.astype(float)]. *)
Definition astype_float (a : array1) : list R :=
  match a with
  | FloatArray v => v
  | IntArray v => map IZR v
  end.

(** The [axis] argument: a string or a 1-D array. *)
Inductive axis_arg : Type :=
| AxisName (name : string)
| AxisVector (a : array1).

(** The validation both converters open with: a string is lower-cased
    and looked up, anything else must have length three. *)
Definition parse_axis (axis : axis_arg) : result array1 :=
  match axis with
  | AxisName name =>
      let axis := str_lower name in
      if String.eqb axis "x" then Ok (FloatArray [1; 0; 0]%R)
      else if String.eqb axis "y" then Ok (FloatArray [0; 1; 0]%R)
      else if String.eqb axis "z" then Ok (FloatArray [0; 0; 1]%R)
      else Raise ValueError
  | AxisVector a =>
      if negb (Nat.eqb (array1_length a) 3) then Raise ValueError else Ok a
  end.

(** [np.linalg.norm] of a 1-D array. *)
Definition np_linalg_norm (v : list R) : R :=
  sqrt (np_sum (map (fun x => x * x)%R v)).

(** [axis /= np.linalg.norm(axis)], in place: the float quotients cannot
    be stored back into an integer array. *)
Definition idiv_norm (a : array1) : result (list R) :=
  match a with
  | FloatArray v => Ok (map (fun x => x / np_linalg_norm v)%R v)
  | IntArray _ => Raise TypeError
  end.

Definition angle_axis_to_rot3d (axis : axis_arg) (theta : R)
  : result (ndarray R) :=
  axis <- parse_axis axis ;;
  let axis := astype_float axis in
  let axis := map (fun x => x / np_linalg_norm axis)%R axis in
  let a := nth 0 axis 0%R in
  let b := nth 1 axis 0%R in
  let c := nth 2 axis 0%R in
  let cos_theta := cos theta in
  let bracket := (1 - cos_theta)%R in
  let a_bracket := (a * bracket)%R in
  let b_bracket := (b * bracket)%R in
  let c_bracket := (c * bracket)%R in
  let sin_theta := sin theta in
  let a_sin_theta := (a * sin_theta)%R in
  let b_sin_theta := (b * sin_theta)%R in
  let c_sin_theta := (c * sin_theta)%R in
  Ok (mk_ndarray [3; 3]%nat
        [ a * a_bracket + cos_theta; a * b_bracket - c_sin_theta;
          a * c_bracket + b_sin_theta;
          b * a_bracket + c_sin_theta; b * b_bracket + cos_theta;
          b * c_bracket - a_sin_theta;
          c * a_bracket - b_sin_theta; c * b_bracket + a_sin_theta;
          c * c_bracket + cos_theta ]%R).

Definition angle_axis_to_quaternion (axis : axis_arg) (theta : R)
  : result (list R) :=
  axis <- parse_axis axis ;;
  axis <- idiv_norm axis ;;
  let angle := (theta / 2)%R in
  Ok (cos angle :: map (fun x => sin angle * x)%R axis).

(** The axis names the converters recognise, in either case. *)
Definition recognized_name (name : string) : Prop :=
  name = "x"%string \/ name = "X"%string \/
  name = "y"%string \/ name = "Y"%string \/
  name = "z"%string \/ name = "Z"%string.

Definition valid_axis (axis : axis_arg) : Prop :=
  match axis with
  | AxisName name => recognized_name name
  | AxisVector a => array1_length a = 3%nat
  end.

(** ** Orientations on a circle *)

(** [points[i, :] = row] on a 2-D array with [ncol] columns. *)
Definition np_set_row {A : Type} (ncol : nat) (i : nat) (row : list A)
  (l : list A) : result (list A) :=
  if negb (Nat.eqb (length row) ncol) then Raise ValueError
  else if (ncol * i + ncol <=? length l)%nat
  then Ok (firstn (ncol * i) l ++ row ++ skipn (ncol * i + ncol) l)
  else Raise IndexError.

(** The body of either [for i in range(num_pts)] loop of
    [points_on_1sphere], calling the converter with [name]. *)
Fixpoint points_on_1sphere_loop (name : string) (inc_ang : R)
  (range : list nat) (points : list R) (my_ang : R) : result (list R) :=
  match range with
  | [] => Ok points
  | i :: rest =>
      quat <- angle_axis_to_quaternion (AxisName name) (my_ang * PI / 180) ;;
      points <- np_set_row 4 i quat points ;;
      points_on_1sphere_loop name inc_ang rest points (my_ang + inc_ang)
  end.

Definition points_on_1sphere (num_pts : nat) (rotation_axis : string)
  : result (ndarray R) :=
  let points := repeat 0%R (num_pts * 4) in
  if Nat.eqb num_pts 0 then Raise ZeroDivisionError
  else
    let inc_ang := (360 / INR num_pts)%R in
    let my_ang := 0%R in
    points <-
      (if String.eqb rotation_axis "y" then
         points_on_1sphere_loop "y" inc_ang (seq 0 num_pts) points my_ang
       else if String.eqb rotation_axis "z" then
         points_on_1sphere_loop "x" inc_ang (seq 0 num_pts) points my_ang
       else Ok points) ;;
    Ok (mk_ndarray [num_pts; 4%nat] points).

(** The quaternion of the rotation by [theta] about the unit axis
    [(x, y, z)]. *)
Definition rotation_quaternion (axis : R * R * R) (theta : R) : list R :=
  let '(x, y, z) := axis in
  [ cos (theta / 2); sin (theta / 2) * x; sin (theta / 2) * y;
    sin (theta / 2) * z ]%R.

(** Row [i] of [points] is the rotation by [i * 360/num_pts] degrees
    about [axis]. *)
Definition evenly_spaced_about (num_pts : nat) (axis : R * R * R)
  (points : ndarray R) : Prop :=
  shape points = [num_pts; 4%nat] /\
  forall i, (i < num_pts)%nat ->
    np_row 4 i (data points)
    = rotation_quaternion axis (INR i * (360 / INR num_pts) * PI / 180).

(** The unit vector a supported axis name stands for. *)
Definition named_axis (name : string) : R * R * R :=
  if String.eqb name "y" then (0, 1, 0)%R
  else if String.eqb name "z" then (0, 0, 1)%R
  else (1, 0, 0)%R.

(** ** Polarization correction *)

Definition reshape_pixels_position_arrays_to_1d (array : ndarray R)
  : result (ndarray R) :=
  pixel_num <- np_prod_dim (removelast (shape array)) ;;
  np_reshape array [pixel_num; 3%nat].

(** [np.sum(np.square(v))] along the last axis. *)
Definition sum_square (v : list R) : R := np_sum (map (fun x => x * x)%R v).

(** [np.cross(a, b)] on one row [a] of three components; a missing third
    component of [b] counts as zero. *)
Definition np_cross (a b : list R) : list R :=
  let a0 := nth 0 a 0%R in
  let a1 := nth 1 a 0%R in
  let a2 := nth 2 a 0%R in
  let b0 := nth 0 b 0%R in
  let b1 := nth 1 b 0%R in
  let b2 := nth 2 b 0%R in
  [ a1 * b2 - a2 * b1; a2 * b0 - a0 * b2; a0 * b1 - a1 * b0 ]%R.

Definition get_polarization_correction
  (pixel_center : ndarray R) (polarization : list R) : result (ndarray R) :=
  pixel_center_1d <- reshape_pixels_position_arrays_to_1d pixel_center ;;
  let pixel_num := np_prod (removelast (shape pixel_center)) in
  let rows := np_rows 3 pixel_num (data pixel_center_1d) in
  let pixel_center_norm := map (fun r => sqrt (sum_square r)) rows in
  let pixel_center_direction :=
    np_map2 (fun r nrm => map (fun x => x / nrm)%R r) rows pixel_center_norm in
  let polarization_norm := sqrt (sum_square polarization) in
  let polarization_direction :=
    map (fun x => x / polarization_norm)%R polarization in
  if Nat.eqb (length polarization) 3 || Nat.eqb (length polarization) 2 then
    let polarization_correction_1d :=
      map (fun d => sum_square (np_cross d polarization_direction))
        pixel_center_direction in
    np_reshape (mk_ndarray [pixel_num] polarization_correction_1d)
      (removelast (shape pixel_center))
  else Raise ValueError.

(** Vector algebra on triples, for stating the correction. *)
Definition vec3 : Type := (R * R * R)%type.

Definition dot3 (a b : vec3) : R :=
  let '(a0, a1, a2) := a in
  let '(b0, b1, b2) := b in
  (a0 * b0 + a1 * b1 + a2 * b2)%R.

Definition cross3 (a b : vec3) : vec3 :=
  let '(a0, a1, a2) := a in
  let '(b0, b1, b2) := b in
  (a1 * b2 - a2 * b1, a2 * b0 - a0 * b2, a0 * b1 - a1 * b0)%R.

Definition norm3 (a : vec3) : R := sqrt (dot3 a a).

Definition unit3 (a : vec3) : vec3 :=
  let '(a0, a1, a2) := a in
  (a0 / norm3 a, a1 / norm3 a, a2 / norm3 a)%R.

(** Cosine of the angle between two vectors. *)
Definition cos_angle (a b : vec3) : R := (dot3 a b / (norm3 a * norm3 b))%R.

(** Pixel [i] of a flat position array as a triple. *)
Definition pixel3 (p : list R) (i : nat) : vec3 :=
  (at2 0%R 3 p i 0, at2 0%R 3 p i 1, at2 0%R 3 p i 2).

(** ** Panel assembly *)

(** [np.max] of a flat integer array. *)
Definition np_max (l : list Z) : result Z :=
  match l with
  | [] => Raise ValueError
  | x :: rest => Ok (fold_left Z.max rest x)
  end.

(** [np.zeros(shape)] for a shape given as Python integers. *)
Definition np_zeros (dims : list Z) : result (ndarray R) :=
  if forallb (fun d => (0 <=? d)%Z) dims then
    let s := map Z.to_nat dims in
    Ok (mk_ndarray s (repeat 0%R (np_prod s)))
  else Raise ValueError.

(** Multi-index of the flat row-major position [t] in an array of the
    given shape. *)
Fixpoint unravel (s : list nat) (t : nat) : list nat :=
  match s with
  | [] => []
  | d :: rest =>
      ((t / np_prod rest) mod d)%nat :: unravel rest (t mod np_prod rest)
  end.

(** Flat row-major position of a multi-index. *)
Fixpoint ravel_from (acc : nat) (s idx : list nat) : nat :=
  match s, idx with
  | d :: s', i :: idx' => ravel_from (acc * d + i) s' idx'
  | _, _ => acc
  end.

Definition ravel (s idx : list nat) : nat := ravel_from 0 s idx.

(** Can values of shape [sv] be broadcast to [target]?  Axes are aligned
    from the right; a value axis must match or have length one. *)
Definition broadcastable (sv target : list nat) : bool :=
  (length sv <=? length target)%nat &&
  forallb (fun vt => Nat.eqb (fst vt) (snd vt) || Nat.eqb (fst vt) 1)
    (combine (rev sv) (rev target)).

(** The value read for the target multi-index [tidx] under broadcasting. *)
Definition broadcast_get (values : ndarray R) (target tidx : list nat) : R :=
  let sv := shape values in
  let aligned := skipn (length target - length sv) tidx in
  let vidx :=
    map (fun vi => if Nat.eqb (fst vi) 1 then 0%nat else snd vi)
      (combine sv aligned) in
  nth (ravel sv vidx) (data values) 0%R.

(** An index along an axis of length [n]: valid in [-n, n), negative
    values counting from the end. *)
Definition index_in_bounds (n : nat) (i : Z) : bool :=
  (- Z.of_nat n <=? i)%Z && (i <? Z.of_nat n)%Z.

Definition wrap_index (n : nat) (i : Z) : nat :=
  Z.to_nat (if (i <? 0)%Z then i + Z.of_nat n else i)%Z.

(** [l[pos] = x] on flat data. *)
Fixpoint list_set {A : Type} (pos : nat) (x : A) (l : list A) : list A :=
  match l, pos with
  | [], _ => []
  | _ :: rest, O => x :: rest
  | y :: rest, S pos' => y :: list_set pos' x rest
  end.

(** [a[l, :, ..., :]] with [naxes] subscripts in all: the [l]-th
    sub-array along the first axis; too many subscripts for the array, or
    [l] past the axis, is an [IndexError]. *)
Definition np_sub0 {A : Type} (naxes : nat) (a : ndarray A) (l : nat)
  : result (ndarray A) :=
  match shape a with
  | [] => Raise IndexError
  | n :: rest =>
      if (naxes <=? length (shape a))%nat && (l <? n)%nat
      then Ok (mk_ndarray rest (np_row (np_prod rest) l (data a)))
      else Raise IndexError
  end.

(** [a[..., k]] on the last axis of an array. *)
Definition np_last_axis {A : Type} (d : A) (a : ndarray A) (k : nat)
  : result (ndarray A) :=
  match rev (shape a) with
  | [] => Raise IndexError
  | ncoord :: _ =>
      if (k <? ncoord)%nat then
        let lead := removelast (shape a) in
        Ok (mk_ndarray lead
              (map (fun t => nth (ncoord * t + k) (data a) d)
                 (seq 0 (np_prod lead))))
      else Raise IndexError
  end.

(** [index_map[:, :, :, k]] on a four-axis array. *)
Definition index_map_coordinate (index_map : ndarray Z) (k : nat)
  : result (ndarray Z) :=
  match shape index_map with
  | [_; _; _; _] => np_last_axis 0%Z index_map k
  | _ => Raise IndexError
  end.

(** [image[index] = values] with one integer array indexing the first
    axis of a 2-D [image]: every entry of [index] selects a whole row, so
    the values must broadcast to the shape of [index] followed by the row
    length.  The shape mismatch is reported before any index is checked
    against the bounds. *)
Definition setitem_rows (image : ndarray R) (index : ndarray Z)
  (values : ndarray R) : result (ndarray R) :=
  match shape image with
  | [nrow; ncol] =>
      let target := shape index ++ [ncol] in
      if negb (broadcastable (shape values) target) then Raise ValueError
      else if negb (forallb (index_in_bounds nrow) (data index))
      then Raise IndexError
      else
        Ok (mk_ndarray (shape image)
              (fold_left
                 (fun img t =>
                    let r := wrap_index nrow
                               (nth (t / ncol) (data index) 0%Z) in
                    let c := (t mod ncol)%nat in
                    list_set (r * ncol + c)
                      (broadcast_get values target (unravel target t)) img)
                 (seq 0 (np_prod target)) (data image)))
  | _ => Raise IndexError
  end.

(** [image[:, index0, index1] = values] on a 3-D [image], the two integer
    arrays having the common shape [ishape]. *)
Definition setitem_pixels (image : ndarray R) (ishape : list nat)
  (index0 index1 : list Z) (values : ndarray R) : result (ndarray R) :=
  match shape image with
  | [nstack; nrow; ncol] =>
      let target := nstack :: ishape in
      if negb (broadcastable (shape values) target) then Raise ValueError
      else if negb (forallb (index_in_bounds nrow) index0
                    && forallb (index_in_bounds ncol) index1)
      then Raise IndexError
      else
        Ok (mk_ndarray (shape image)
              (fold_left
                 (fun img t =>
                    let s := (t / np_prod ishape)%nat in
                    let e := (t mod np_prod ishape)%nat in
                    let r := wrap_index nrow (nth e index0 0%Z) in
                    let c := wrap_index ncol (nth e index1 0%Z) in
                    list_set ((s * nrow + r) * ncol + c)
                      (broadcast_get values target (unravel target t)) img)
                 (seq 0 (np_prod target)) (data image)))
  | _ => Raise IndexError
  end.

(** The loop [for l in range(...)] of [assemble_image_stack]. *)
Fixpoint assemble_image_stack_loop (image_stack : ndarray R)
  (index_map : ndarray Z) (range : list nat) (image : ndarray R)
  : result (ndarray R) :=
  match range with
  | [] => Ok image
  | l :: rest =>
      values <- np_sub0 3 image_stack l ;;
      index <- np_sub0 4 index_map l ;;
      image <- setitem_rows image index values ;;
      assemble_image_stack_loop image_stack index_map rest image
  end.

Definition assemble_image_stack (image_stack : ndarray R)
  (index_map : ndarray Z) : result (ndarray R) :=
  xs <- index_map_coordinate index_map 0 ;;
  index_max_x <- np_max (data xs) ;;
  ys <- index_map_coordinate index_map 1 ;;
  index_max_y <- np_max (data ys) ;;
  image <- np_zeros [index_max_x; index_max_y] ;;
  assemble_image_stack_loop image_stack index_map
    (seq 0 (hd 0%nat (shape index_map))) image.

(** [image_stack[:, l, :, :]] on a four-axis stack. *)
Definition stack_panel (image_stack : ndarray R) (l : nat)
  : result (ndarray R) :=
  match shape image_stack with
  | [nstack; npanel; nx; ny] =>
      if (l <? npanel)%nat then
        Ok (mk_ndarray [nstack; nx; ny]
              (flat_map
                 (fun s => np_row (nx * ny) (s * npanel + l) (data image_stack))
                 (seq 0 nstack)))
      else Raise IndexError
  | _ => Raise IndexError
  end.

(** The loop [for l in range(panel_num)] of
    [assemble_image_stack_batch]. *)
Fixpoint assemble_image_stack_batch_loop (image_stack : ndarray R)
  (index_map : ndarray Z) (range : list nat) (image : ndarray R)
  : result (ndarray R) :=
  match range with
  | [] => Ok image
  | l :: rest =>
      values <- stack_panel image_stack l ;;
      panel <- np_sub0 4 index_map l ;;
      match shape panel with
      | [_; _; _] =>
          index0 <- np_last_axis 0%Z panel 0 ;;
          index1 <- np_last_axis 0%Z panel 1 ;;
          image <- setitem_pixels image (shape index0) (data index0)
                     (data index1) values ;;
          assemble_image_stack_batch_loop image_stack index_map rest image
      | _ => Raise IndexError
      end
  end.

Definition assemble_image_stack_batch (image_stack : ndarray R)
  (index_map : ndarray Z) : result (ndarray R) :=
  xs <- index_map_coordinate index_map 0 ;;
  index_max_x <- np_max (data xs) ;;
  ys <- index_map_coordinate index_map 1 ;;
  index_max_y <- np_max (data ys) ;;
  match shape image_stack with
  | stack_num :: panel_num :: _ =>
      image <- np_zeros [Z.of_nat stack_num; index_max_x; index_max_y] ;;
      assemble_image_stack_batch_loop image_stack index_map
        (seq 0 panel_num) image
  | _ => Raise IndexError
  end.

(** The index map sending pixel (i, j) of a single [nx] x [ny] panel to
    image coordinate (i, j). *)
Definition identity_index_map (nx ny : nat) : ndarray Z :=
  mk_ndarray [1; nx; ny; 2]%nat
    (flat_map
       (fun i => flat_map (fun j => [Z.of_nat i; Z.of_nat j]) (seq 0 ny))
       (seq 0 nx)).

(** ** Slices for a list of orientations *)

(** The names bound at module level in [geometry.py]: its imports and
    its function definitions. *)
Definition module_names : list string :=
  [ "np"; "time"; "jit"; "special_ortho_group";
    "rotate_pixels_in_reciprocal_space"; "get_weight_and_index";
    "get_weight_in_reciprocal_space"; "take_one_slice"; "take_n_slice";
    "take_n_random_slices"; "reshape_pixels_position_arrays_to_1d";
    "get_reciprocal_space_pixel_position"; "get_polarization_correction";
    "solid_angle"; "get_reciprocal_position_and_correction";
    "get_reciprocal_mesh"; "assemble_image_stack";
    "assemble_image_stack_batch"; "angle_axis_to_rot3d";
    "angle_axis_to_quaternion"; "euler_to_rot3d"; "euler_to_quaternion";
    "quaternion_to_angle_axis"; "rotmat_to_quaternion"; "quaternion2rot3d";
    "points_on_1sphere"; "points_on_2sphere"; "get_random_rotation";
    "get_random_quat"; "get_uniform_quat" ]%string.

(** The built-in functions and types of the interpreter. *)
Definition python_builtins : list string :=
  [ "abs"; "all"; "any"; "basestring"; "bin"; "bool"; "bytearray";
    "callable"; "chr"; "classmethod"; "cmp"; "coerce"; "compile";
    "complex"; "delattr"; "dict"; "dir"; "divmod"; "enumerate"; "eval";
    "execfile"; "file"; "filter"; "float"; "format"; "frozenset";
    "getattr"; "globals"; "hasattr"; "hash"; "help"; "hex"; "id"; "input";
    "int"; "intern"; "isinstance"; "issubclass"; "iter"; "len"; "list";
    "locals"; "long"; "map"; "max"; "memoryview"; "min"; "next"; "object";
    "oct"; "open"; "ord"; "pow"; "print"; "property"; "range";
    "raw_input"; "reduce"; "reload"; "repr"; "reversed"; "round"; "set";
    "setattr"; "slice"; "sorted"; "staticmethod"; "str"; "sum"; "super";
    "tuple"; "type"; "unichr"; "unicode"; "vars"; "xrange"; "zip";
    "__import__" ]%string.

(** Looking up a free name of a function body: module globals first,
    then the built-ins, else [NameError]. *)
Definition load_global (globals : list string) (name : string)
  : result unit :=
  if existsb (String.eqb name) globals
     || existsb (String.eqb name) python_builtins
  then Ok tt
  else Raise (NameError name).

(** The attributes of the detector object the function reads. *)
Record detector : Type := mk_detector {
  pixel_rms : ndarray R;
  pixel_position_reciprocal : ndarray R;
  pixel_num_total : nat;
  pedestal : ndarray R
}.

Section FreeNames.

(** Whatever [length] and [quat2rot3d] would do if they were bound. *)
Variable length_call : list (list R) -> result nat.
Variable quat2rot3d_call : list R -> result (ndarray R).

(** The names visible from the function body. *)
Variable globals : list string.

(** The loop [for l in range(number)]; each slice is written to
    [slices[l]] when it has the shape of a row of the holder. *)
Fixpoint take_n_random_slices_loop (det : detector) (volume : ndarray R)
  (voxel_length : R) (orientations : list (list R))
  (pixel_position_ : ndarray R) (range : list nat) (slices : list R)
  (slice_shape : list nat) : result (list R) :=
  match range with
  | [] => Ok slices
  | l :: rest =>
      _ <- load_global globals "quat2rot3d" ;;
      match nth_error orientations l with
      | None => Raise IndexError
      | Some quat =>
          rotmat <- quat2rot3d_call quat ;;
          pixel_position_new <-
            rotate_pixels_in_reciprocal_space rotmat pixel_position_ ;;
          match shape volume with
          | [] => Raise IndexError
          | volume_num_1d :: _ =>
              iw <- get_weight_in_reciprocal_space pixel_position_new
                      voxel_length (Z.of_nat volume_num_1d) ;;
              one <- take_one_slice (fst iw) (snd iw) volume
                       (pixel_num_total det) (shape (pedestal det)) ;;
              if negb (broadcastable (shape one) slice_shape)
              then Raise ValueError
              else
                slices <-
                  np_set_row (np_prod slice_shape) l
                    (map (fun t =>
                            broadcast_get one slice_shape
                              (unravel slice_shape t))
                       (seq 0 (np_prod slice_shape)))
                    slices ;;
                take_n_random_slices_loop det volume voxel_length
                  orientations pixel_position_ rest slices slice_shape
          end
      end
  end.

Definition take_n_random_slices (det : detector) (volume : ndarray R)
  (voxel_length : R) (orientations : list (list R))
  : result (ndarray R) :=
  _ <- load_global globals "length" ;;
  number <- length_call orientations ;;
  let pattern_shape_ := shape (pixel_rms det) in
  let pixel_position_ := pixel_position_reciprocal det in
  match pattern_shape_ with
  | s0 :: s1 :: s2 :: _ =>
      let slice_shape := [s0; s1; s2] in
      let slices := repeat 0%R (number * np_prod slice_shape) in
      slices <-
        take_n_random_slices_loop det volume voxel_length orientations
          pixel_position_ (seq 0 number) slices slice_shape ;;
      Ok (mk_ndarray (number :: slice_shape) slices)
  | _ => Raise IndexError
  end.

End FreeNames.

(** ** Random orientations *)

(** [np.transpose] of a 2-D array. *)
Definition np_transpose (a : ndarray R) : result (ndarray R) :=
  match shape a with
  | [nrow; ncol] =>
      Ok (mk_ndarray [ncol; nrow]
            (flat_map
               (fun j => map (fun i => at2 0%R ncol (data a) i j) (seq 0 nrow))
               (seq 0 ncol)))
  | _ => Raise ValueError
  end.

Section RandomSource.

(** [np.random.rand(3, num_pts)]: the array drawn by the process-wide
    generator, three rows of [num_pts] numbers in [0, 1). *)
Variable rand_3 : nat -> list R.

Definition get_random_quat (num_pts : nat) : result (ndarray R) :=
  let u := rand_3 num_pts in
  let u1 := np_row num_pts 0 u in
  let u2 := np_row num_pts 1 u in
  let u3 := np_row num_pts 2 u in
  let quat0 :=
    np_map2 (fun a b => sqrt (1 - a) * sin (2 * PI * b))%R u1 u2 in
  let quat1 :=
    np_map2 (fun a b => sqrt (1 - a) * cos (2 * PI * b))%R u1 u2 in
  let quat2 := np_map2 (fun a b => sqrt a * sin (2 * PI * b))%R u1 u3 in
  let quat3 := np_map2 (fun a b => sqrt a * cos (2 * PI * b))%R u1 u3 in
  let quat :=
    mk_ndarray [4; num_pts]%nat (quat0 ++ quat1 ++ quat2 ++ quat3) in
  np_transpose quat.

End RandomSource.

(** ** Orientations on the 3-sphere *)

(** The [while] loops of [points_on_2sphere] run on fuel: [None] is a
    sweep that has not ended within the fuel.  A float quotient with a
    zero divisor is infinite or not a number, and the loop it controls is
    then skipped, its test being false. *)

(** [while w3 < 2 * np.pi]. *)
Fixpoint sweep_w3 (fuel : nat) (q0 q1 sin_w1_w2 delta_w3 w3 : R)
  (points : list R) (ind : nat) : option (result (list R * nat)) :=
  match fuel with
  | O => None
  | S fuel' =>
      if Rlt_dec w3 (2 * PI) then
        let q2 := (sin_w1_w2 * cos w3)%R in
        let q3 := (sin_w1_w2 * sin w3)%R in
        match np_set_row 4 ind [q0; q1; q2; q3] points with
        | Raise e => Some (Raise e)
        | Ok points' =>
            sweep_w3 fuel' q0 q1 sin_w1_w2 delta_w3 (w3 + delta_w3)%R
              points' (S ind)
        end
      else Some (Ok (points, ind))
  end.

(** [while w2 < np.pi]. *)
Fixpoint sweep_w2 (fuel : nat) (w1 q0 delta_w2 w2 : R)
  (points : list R) (ind : nat) : option (result (list R * nat)) :=
  match fuel with
  | O => None
  | S fuel' =>
      if Rlt_dec w2 PI then
        let q1 := (sin w1 * cos w2)%R in
        let inner :=
          if Req_dec_T (sin w2) 0 then Some (Ok (points, ind))
          else
            let delta_w3 := (delta_w2 / sin w2)%R in
            let w3 := (0.5 * delta_w3)%R in
            sweep_w3 fuel q0 q1 (sin w1 * sin w2)%R delta_w3 w3 points ind in
        match inner with
        | None => None
        | Some (Raise e) => Some (Raise e)
        | Some (Ok (points', ind')) =>
            sweep_w2 fuel' w1 q0 delta_w2 (w2 + delta_w2)%R points' ind'
        end
      else Some (Ok (points, ind))
  end.

(** [while w1 < np.pi]. *)
Fixpoint sweep_w1 (fuel : nat) (delta_w1 w1 : R)
  (points : list R) (ind : nat) : option (result (list R * nat)) :=
  match fuel with
  | O => None
  | S fuel' =>
      if Rlt_dec w1 PI then
        let q0 := cos w1 in
        let inner :=
          if Req_dec_T (sin w1) 0 then Some (Ok (points, ind))
          else
            let delta_w2 := (delta_w1 / sin w1)%R in
            let w2 := (0.5 * delta_w2)%R in
            sweep_w2 fuel w1 q0 delta_w2 w2 points ind in
        match inner with
        | None => None
        | Some (Raise e) => Some (Raise e)
        | Some (Ok (points', ind')) =>
            sweep_w1 fuel' delta_w1 (w1 + delta_w1)%R points' ind'
        end
      else Some (Ok (points, ind))
  end.

(** [np.exp(np.log(float(ind) / num_pts) / 3)]; the logarithm of zero is
    minus infinity and its exponential zero. *)
Definition rescale (ind num_pts : nat) : R :=
  if Nat.eqb ind 0 then 0%R else exp (ln (INR ind / INR num_pts) / 3).

(** [while ind != num_pts and iteration < max_iter], with [remaining]
    the passes left before [max_iter]. *)
Fixpoint equal_area_passes (fuel : nat) (num_pts remaining : nat) (delta : R)
  (points : list R) (ind : nat) : option (result (list R)) :=
  match remaining with
  | O => Some (Ok points)
  | S remaining' =>
      if Nat.eqb ind num_pts then Some (Ok points)
      else
        let delta_w1 := delta in
        let w1 := (0.5 * delta_w1)%R in
        match sweep_w1 fuel delta_w1 w1 points 0 with
        | None => None
        | Some (Raise e) => Some (Raise e)
        | Some (Ok (points', ind')) =>
            equal_area_passes fuel num_pts remaining'
              (delta * rescale ind' num_pts)%R points' ind'
        end
  end.

Definition points_on_2sphere (fuel : nat) (num_pts : nat)
  : option (result (ndarray R)) :=
  let points := repeat 0%R (2 * num_pts * 4) in
  if Nat.eqb num_pts 0 then Some (Raise ZeroDivisionError)
  else
    let dim_num := 4%R in
    let surface_area := (dim_num * (PI * PI) / 2)%R in
    let delta := exp (ln (surface_area / INR num_pts) / 3) in
    let max_iter := 1000%nat in
    match equal_area_passes fuel num_pts max_iter delta points 0 with
    | None => None
    | Some (Raise e) => Some (Raise e)
    | Some (Ok points') =>
        Some (Ok (mk_ndarray [Nat.min num_pts (2 * num_pts); 4%nat]
                    (firstn (num_pts * 4) points')))
    end.

(** ** Euler angles and the angle-axis reading of a quaternion *)

(** [np.dot(a, b)] of two 2-D arrays. *)
Definition np_dot (a b : ndarray R) : result (ndarray R) :=
  match shape a, shape b with
  | [n; k], [k'; m] =>
      if Nat.eqb k k' then
        Ok (mk_ndarray [n; m]
              (flat_map
                 (fun i =>
                    map (fun j =>
                           np_sum (map (fun c =>
                                          at2 0%R k (data a) i c
                                          * at2 0%R m (data b) c j)%R
                                       (seq 0 k)))
                        (seq 0 m))
                 (seq 0 n)))
      else Raise ValueError
  | _, _ => Raise ValueError
  end.

(** [euler_to_rot3d(psi, theta, phi)]; the [DeprecationWarning] object the
    source builds is dropped there as well. *)
Definition euler_to_rot3d (psi theta phi : R) : result (ndarray R) :=
  let rphi :=
    mk_ndarray [3; 3]%nat
      [ cos phi; - sin phi; 0;
        sin phi; cos phi; 0;
        0; 0; 1 ]%R in
  let rtheta :=
    mk_ndarray [3; 3]%nat
      [ cos theta; 0; sin theta;
        0; 1; 0;
        - sin theta; 0; cos theta ]%R in
  let rpsi :=
    mk_ndarray [3; 3]%nat
      [ cos psi; - sin psi; 0;
        sin psi; cos psi; 0;
        0; 0; 1 ]%R in
  inner <- np_dot rtheta rphi ;;
  np_dot rpsi inner.

Definition euler_to_quaternion (psi theta phi : R) : list R :=
  let cy := cos (psi * 0.5) in
  let sy := sin (psi * 0.5) in
  let cp := cos (theta * 0.5) in
  let sp := sin (theta * 0.5) in
  let cr := cos (phi * 0.5) in
  let sr := sin (phi * 0.5) in
  [ cy * cp * cr + sy * sp * sr;
    cy * cp * sr - sy * sp * cr;
    sy * cp * sr + cy * sp * cr;
    sy * cp * cr - cy * sp * sr ]%R.

(** Python's [x < y] on floats. *)
Definition Rltb (x y : R) : bool := if Rlt_dec x y then true else false.

(** [np.finfo(float).eps]. *)
Definition float_eps : R := (/ 2 ^ 52)%R.

(** [quaternion_to_angle_axis(quaternion)] for a 1-D array whose first
    entry lies in [-1, 1], where [np.arccos] is the arc cosine.  The
    entries 1 to 3 are read only when the angle is not below [eps]. *)
Definition quaternion_to_angle_axis (quaternion : list R)
  : result (R * list R) :=
  match quaternion with
  | [] => Raise IndexError
  | quaternion0 :: rest =>
      let ha := acos quaternion0 in
      let theta := (2 * ha)%R in
      if Rltb theta float_eps then Ok (0%R, [1; 0; 0]%R)
      else
        match rest with
        | q1 :: q2 :: q3 :: _ =>
            Ok (theta, map (fun x => x / sin ha)%R [q1; q2; q3])
        | _ => Raise IndexError
        end
  end.

(** Vocabulary for 3x3 matrices: an entry, an entry of the Gram matrix
    [m.T m], the determinant, and what makes [m] a rotation. *)
Definition entry (m : ndarray R) (i j : nat) : R := at2 0%R 3 (data m) i j.

Definition gram (m : ndarray R) (i j : nat) : R :=
  (entry m 0 i * entry m 0 j + entry m 1 i * entry m 1 j
   + entry m 2 i * entry m 2 j)%R.

Definition det3 (m : ndarray R) : R :=
  (entry m 0 0 * (entry m 1 1 * entry m 2 2 - entry m 1 2 * entry m 2 1)
   - entry m 0 1 * (entry m 1 0 * entry m 2 2 - entry m 1 2 * entry m 2 0)
   + entry m 0 2 * (entry m 1 0 * entry m 2 1 - entry m 1 1 * entry m 2 0))%R.

Definition is_rotation (m : ndarray R) : Prop :=
  shape m = [3; 3]%nat /\
  length (data m) = 9%nat /\
  (forall i j, (i < 3)%nat -> (j < 3)%nat ->
     gram m i j = if Nat.eqb i j then 1%R else 0%R) /\
  det3 m = 1%R.

(** Squared norm of a quaternion given as a list. *)
Definition quat_norm2 (q : list R) : R := sum_square q.

(** ** Vocabulary of the sampling statements *)

(** Whole part of the voxel-unit coordinate [k] of pixel [i], for flat
    positions [p]. *)
Definition voxel_floor (p : list R) (voxel_length : R) (n : nat)
  (i k : nat) : Z :=
  np_floor (at2 0%R 3 p i k / voxel_length + center_shift (Z.of_nat n)).

(** Row-major flat index of the lowest corner of pixel [i]. *)
Definition base_flat_index (p : list R) (voxel_length : R) (n : nat)
  (i : nat) : Z :=
  (voxel_floor p voxel_length n i 0 * (Z.of_nat n * Z.of_nat n)
   + voxel_floor p voxel_length n i 1 * Z.of_nat n
   + voxel_floor p voxel_length n i 2)%Z.

(** All eight corners of pixel [i] have their flat index in the range a
    Python index into [n * n * n] entries accepts. *)
Definition corners_in_window (p : list R) (voxel_length : R) (n : nat)
  (i : nat) : Prop :=
  (- Z.of_nat (n * n * n) <= base_flat_index p voxel_length n i)%Z /\
  (base_flat_index p voxel_length n i + Z.of_nat n * Z.of_nat n
   + Z.of_nat n + 1 < Z.of_nat (n * n * n))%Z.

(** [volume[i0, i1, i2]] in a cube of side [n] stored row-major. *)
Definition voxel (volume : ndarray R) (n : nat) (i0 i1 i2 : Z) : R :=
  nth (Z.to_nat (i0 * (Z.of_nat n * Z.of_nat n) + i1 * Z.of_nat n + i2))
    (data volume) 0%R.

(** [volume_1d[flat]] for an index the flattened volume accepts. *)
Definition voxel_at (volume : ndarray R) (flat : Z) : R :=
  nth (Z.to_nat (flat mod Z.of_nat (length (data volume)))) (data volume) 0%R.

(** Flat indexes of the eight corners of pixel [i]. *)
Definition corner_flat_indexes (n : nat) (tmp_index : list Z) (i : nat)
  : list Z :=
  matmul_vec3 (np_rows 3 8 (stencil_indexes tmp_index i))
    [Z.of_nat n * Z.of_nat n; Z.of_nat n; 1]%Z.

(** The range of indexes a Python sequence of [m] entries accepts. *)
Definition in_window (m : nat) (z : Z) : Prop :=
  (- Z.of_nat m <= z < Z.of_nat m)%Z.

(** ** Reciprocal-space positions and the solid angle *)

(** Elementwise [f a b] on two 1-D arrays under NumPy's broadcasting:
    equal lengths, or one of the two of length one. *)
Definition np_broadcast2 (f : R -> R -> R) (a b : list R)
  : result (list R) :=
  if Nat.eqb (length a) (length b) then Ok (np_map2 f a b)
  else if Nat.eqb (length a) 1 then Ok (map (f (hd 0%R a)) b)
  else if Nat.eqb (length b) 1 then Ok (map (fun x => f x (hd 0%R b)) a)
  else Raise ValueError.

(** [wave_vector] is a 1-D array; against the rows of three components
    it broadcasts when it has three entries or one. *)
Definition get_reciprocal_space_pixel_position
  (pixel_center : ndarray R) (wave_vector : list R) : result (ndarray R) :=
  pixel_center_1d <- reshape_pixels_position_arrays_to_1d pixel_center ;;
  let pixel_num := np_prod (removelast (shape pixel_center)) in
  let wave_vector_norm := sqrt (sum_square wave_vector) in
  let wave_vector_direction :=
    map (fun x => x / wave_vector_norm)%R wave_vector in
  let rows := np_rows 3 pixel_num (data pixel_center_1d) in
  let pixel_center_norm := map (fun r => sqrt (sum_square r)) rows in
  let pixel_center_direction :=
    np_map2 (fun r nrm => map (fun x => x / nrm)%R r) rows pixel_center_norm in
  if Nat.eqb (length wave_vector) 3 || Nat.eqb (length wave_vector) 1 then
    let pixel_position_reciprocal_1d :=
      flat_map
        (fun d =>
           map (fun x => wave_vector_norm * x)%R
             (if Nat.eqb (length wave_vector) 3
              then np_map2 Rminus d wave_vector_direction
              else map (fun x => x - hd 0 wave_vector_direction)%R d))
        pixel_center_direction in
    np_reshape (mk_ndarray [pixel_num; 3%nat] pixel_position_reciprocal_1d)
      (shape pixel_center)
  else Raise ValueError.

Definition solid_angle (pixel_center pixel_area : ndarray R)
  (orientation : list R) : result (ndarray R) :=
  pixel_center_1d <- reshape_pixels_position_arrays_to_1d pixel_center ;;
  let pixel_num := np_prod (removelast (shape pixel_center)) in
  let rows := np_rows 3 pixel_num (data pixel_center_1d) in
  let pixel_center_norm_1d := map (fun r => sqrt (sum_square r)) rows in
  area_num <- np_prod_dim (shape pixel_area) ;;
  pixel_area_1d <- np_reshape pixel_area [area_num] ;;
  let pixel_center_direction_1d :=
    np_map2 (fun r nrm => map (fun x => x / nrm)%R r) rows
      pixel_center_norm_1d in
  let orientation_norm := sqrt (sum_square orientation) in
  let orientation_normalized :=
    map (fun x => x / orientation_norm)%R orientation in
  if negb (Nat.eqb (length orientation) 3) then Raise ValueError
  else
    let cosine_1d :=
      map (fun d => Rabs (np_sum (np_map2 Rmult d orientation_normalized)))
        pixel_center_direction_1d in
    solid_angle_1d <-
      np_broadcast2 Rdiv (data pixel_area_1d)
        (map (fun x => x * x)%R pixel_center_norm_1d) ;;
    solid_angle_1d <- np_broadcast2 Rmult cosine_1d solid_angle_1d ;;
    np_reshape (mk_ndarray [length solid_angle_1d] solid_angle_1d)
      (shape pixel_area).

(** [np.sqrt(np.sum(np.square(a), axis=-1))]. *)
Definition np_norm_last_axis (a : ndarray R) : ndarray R :=
  let k := last (shape a) 0%nat in
  let rows := np_rows k (np_prod (removelast (shape a))) (data a) in
  mk_ndarray (removelast (shape a)) (map (fun r => sqrt (sum_square r)) rows).

Definition get_reciprocal_position_and_correction
  (pixel_position pixel_area : ndarray R)
  (wave_vector polarization orientation : list R)
  : result (ndarray R * ndarray R * ndarray R * ndarray R) :=
  pixel_position_reciprocal <-
    get_reciprocal_space_pixel_position pixel_position wave_vector ;;
  let pixel_position_reciprocal_norm :=
    np_norm_last_axis pixel_position_reciprocal in
  polarization_correction <-
    get_polarization_correction pixel_position polarization ;;
  solid_angle_array <-
    solid_angle
      (mk_ndarray (shape pixel_position)
         (map (fun x => x * 1e-6)%R (data pixel_position)))
      pixel_area orientation ;;
  Ok (pixel_position_reciprocal, pixel_position_reciprocal_norm,
      polarization_correction, solid_angle_array).

(** More vector algebra on triples. *)
Definition add3 (a b : vec3) : vec3 :=
  let '(a0, a1, a2) := a in
  let '(b0, b1, b2) := b in
  (a0 + b0, a1 + b1, a2 + b2)%R.

Definition sub3 (a b : vec3) : vec3 :=
  let '(a0, a1, a2) := a in
  let '(b0, b1, b2) := b in
  (a0 - b0, a1 - b1, a2 - b2)%R.

Definition scale3 (c : R) (a : vec3) : vec3 :=
  let '(a0, a1, a2) := a in (c * a0, c * a1, c * a2)%R.

(** ** The reciprocal mesh *)

(** [np.meshgrid(x, y, z)] under its default 'xy' indexing: three arrays
    of shape [(len y, len x, len z)]; the first follows [x] along the
    second axis, the second follows [y] along the first axis. *)
Definition np_meshgrid (x y z : list R) : list (ndarray R) :=
  let s := [length y; length x; length z] in
  let grid (f : nat -> nat -> nat -> R) :=
    mk_ndarray s
      (flat_map
         (fun i =>
            flat_map (fun j => map (fun k => f i j k) (seq 0 (length z)))
              (seq 0 (length x)))
         (seq 0 (length y))) in
  [ grid (fun _ j _ => nth j x 0%R);
    grid (fun i _ _ => nth i y 0%R);
    grid (fun _ _ k => nth k z 0%R) ].

(** [a[..., l] = b] for [b] shaped like [a] without its last axis, the
    only case the mesh builder meets. *)
Definition np_set_last_axis (a : ndarray R) (l : nat) (b : ndarray R)
  : result (ndarray R) :=
  let ncoord := last (shape a) 0%nat in
  let lead := removelast (shape a) in
  if negb (l <? ncoord)%nat then Raise IndexError
  else if list_eq_dec Nat.eq_dec (shape b) lead then
    Ok (mk_ndarray (shape a)
          (flat_map
             (fun t =>
                map (fun c =>
                       if Nat.eqb c l then nth t (data b) 0%R
                       else at2 0%R ncoord (data a) t c)
                  (seq 0 ncoord))
             (seq 0 (np_prod lead))))
  else Raise ValueError.

(** The body of [for l in range(3)]. *)
Fixpoint get_reciprocal_mesh_loop (range : list nat)
  (reciprocal_mesh_stack : list (ndarray R)) (reciprocal_mesh : ndarray R)
  : result (ndarray R) :=
  match range with
  | [] => Ok reciprocal_mesh
  | l :: rest =>
      match nth_error reciprocal_mesh_stack l with
      | None => Raise IndexError
      | Some component =>
          reciprocal_mesh <- np_set_last_axis reciprocal_mesh l component ;;
          get_reciprocal_mesh_loop rest reciprocal_mesh_stack reciprocal_mesh
      end
  end.

Definition get_reciprocal_mesh (voxel_num_1d : Z) (voxel_length : R)
  : result (ndarray R) :=
  let voxel_half_num_1d := ((voxel_num_1d - 1) / 2)%Z in
  let x_meshgrid :=
    map (fun i => IZR (Z.of_nat i - voxel_half_num_1d) * voxel_length)%R
      (seq 0 (Z.to_nat voxel_num_1d)) in
  let reciprocal_mesh_stack := np_meshgrid x_meshgrid x_meshgrid x_meshgrid in
  reciprocal_mesh <-
    np_zeros [voxel_num_1d; voxel_num_1d; voxel_num_1d; 3%Z] ;;
  get_reciprocal_mesh_loop (seq 0 3) reciprocal_mesh_stack reciprocal_mesh.

(** Coordinate of grid line [t] of a mesh of [n] voxels a side. *)
Definition mesh_coordinate (n : nat) (voxel_length : R) (t : nat) : R :=
  (IZR (Z.of_nat t - (Z.of_nat n - 1) / 2) * voxel_length)%R.

(** ** A random rotation matrix *)

Section RandomRotation.

(** [np.random.rand()], one number in [0, 1), and
    [special_ortho_group.rvs(3)], the 3x3 matrix SciPy draws. *)
Variable rand : R.
Variable special_ortho_group_rvs : ndarray R.

Definition get_random_rotation (rotation_axis : string)
  : result (ndarray R) :=
  if String.eqb rotation_axis "y" then
    let u := (rand * 2 * PI)%R in
    angle_axis_to_rot3d (AxisName "y") u
  else Ok special_ortho_group_rvs.

End RandomRotation.

(** ** The int64 element type of the corner indexes *)

(** The stencil and slicing functions above keep the corner indexes as
    exact integers.  The source holds them in int64 arrays:
    [astype(np.int64)] of a whole number outside the int64 range gives
    the smallest int64, and int64 sums and products wrap modulo 2^64.
    The functions below are the same source functions with that element
    type written out. *)

Definition int64_min : Z := (- 2 ^ 63)%Z.

Definition int64_max : Z := (2 ^ 63 - 1)%Z.

Definition fits_int64 (z : Z) : Prop := (int64_min <= z <= int64_max)%Z.

(** [a.astype(np.int64)] on a float holding the whole number [z]. *)
Definition astype_int64 (z : Z) : Z :=
  if ((int64_min <=? z)%Z && (z <=? int64_max)%Z)%bool then z
  else int64_min.

(** The int64 holding a sum or product whose exact value is [z]. *)
Definition wrap_int64 (z : Z) : Z :=
  ((z - int64_min) mod 2 ^ 64 + int64_min)%Z.

(** [np.floor(x).astype(np.int64)], cast included. *)
Definition np_floor_int64 (x : R) : Z := astype_int64 (Int_part x).

(** The eight corner indexes of pixel [i], each [tmp_index + 1] an int64
    sum. *)
Definition stencil_indexes_int64 (tmp_index : list Z) (i : nat) : list Z :=
  let t := at2 0%Z 3 tmp_index i in
  let up := fun k => wrap_int64 (t k + 1) in
  [ t 0%nat; t 1%nat; t 2%nat;
    t 0%nat; t 1%nat; up 2%nat;
    t 0%nat; up 1%nat; t 2%nat;
    t 0%nat; up 1%nat; up 2%nat;
    up 0%nat; t 1%nat; t 2%nat;
    up 0%nat; t 1%nat; up 2%nat;
    up 0%nat; up 1%nat; t 2%nat;
    up 0%nat; up 1%nat; up 2%nat ].

Definition get_weight_and_index_int64
  (pixel_position : ndarray R) (voxel_length : R) (voxel_num_1d : Z)
  : result (ndarray Z * ndarray R) :=
  let detector_shape := removelast (shape pixel_position) in
  pixel_num <- np_prod_dim detector_shape ;;
  pixel_position_1d <- np_reshape pixel_position [pixel_num; 3%nat] ;;
  let pixel_position_1d_voxel_unit :=
    map (fun x => x / voxel_length)%R (data pixel_position_1d) in
  let shift := center_shift voxel_num_1d in
  let pixel_position_1d_voxel_unit :=
    map (fun x => x + shift)%R pixel_position_1d_voxel_unit in
  let tmp_index := map np_floor_int64 pixel_position_1d_voxel_unit in
  let dfloor :=
    np_map2 (fun x t => x - IZR t)%R pixel_position_1d_voxel_unit tmp_index in
  let dceiling := map (fun x => 1 - x)%R dfloor in
  let indexes :=
    flat_map (stencil_indexes_int64 tmp_index) (seq 0 pixel_num) in
  let weight := flat_map (stencil_weights dfloor dceiling) (seq 0 pixel_num) in
  Ok (mk_ndarray (detector_shape ++ [8; 3]%nat) indexes,
      mk_ndarray (detector_shape ++ [8]%nat) weight).

Definition get_weight_in_reciprocal_space_int64
  (pixel_position : ndarray R) (voxel_length : R) (voxel_num_1d : Z)
  : result (ndarray Z * ndarray R) :=
  let shift := center_shift voxel_num_1d in
  let pixel_position_voxel_unit :=
    map (fun x => x / voxel_length + shift)%R (data pixel_position) in
  match shape pixel_position with
  | [num_panel; num_x; num_y; ncoord] =>
      let tmp_index := map np_floor_int64 pixel_position_voxel_unit in
      let dfloor :=
        np_map2 (fun x t => x - IZR t)%R pixel_position_voxel_unit tmp_index in
      let dceiling := map (fun x => 1 - x)%R dfloor in
      if Nat.eqb ncoord 3 then
        let pixel_num := (num_panel * num_x * num_y)%nat in
        let indexes :=
          flat_map (stencil_indexes_int64 tmp_index) (seq 0 pixel_num) in
        let weight :=
          flat_map (stencil_weights dfloor dceiling) (seq 0 pixel_num) in
        Ok (mk_ndarray [num_panel; num_x; num_y; 8; 3]%nat indexes,
            mk_ndarray [num_panel; num_x; num_y; 8]%nat weight)
      else if Nat.eqb ncoord 1 then Raise IndexError
      else Raise ValueError
  | _ => Raise ValueError
  end.

(** [np.matmul] of the int64 rows with the int64 conversion vector. *)
Definition matmul_vec3_int64 (rows : list (list Z)) (v : list Z) : list Z :=
  map (fun r => wrap_int64 (fold_left Z.add (np_map2 Z.mul r v) 0%Z)) rows.

(** [take_one_slice] on int64 indexes.  [convertion_factor] is built from
    Python integers and is kept exact: its entries fit int64 whenever the
    voxel count of a cubic volume does. *)
Definition take_one_slice_int64
  (local_index : ndarray Z) (local_weight : ndarray R) (volume : ndarray R)
  (pixel_num : nat) (pattern_shape : list nat) : result (ndarray R) :=
  match shape volume with
  | [] => Raise IndexError
  | volume_num_1d :: _ =>
      let n := Z.of_nat volume_num_1d in
      let convertion_factor := [n * n; n; 1]%Z in
      index_2d <- np_reshape local_index [pixel_num; 8; 3]%nat ;;
      let index_2d :=
        matmul_vec3_int64 (np_rows 3 (pixel_num * 8) (data index_2d))
          convertion_factor in
      volume_1d <- np_reshape volume [(volume_num_1d ^ 3)%nat] ;;
      weight_2d <- np_reshape local_weight [pixel_num; 8]%nat ;;
      data_to_merge <- np_take (data volume_1d) index_2d ;;
      let data_merged :=
        map np_sum
          (np_rows 8 pixel_num
             (np_map2 Rmult (data weight_2d) data_to_merge)) in
      np_reshape (mk_ndarray [pixel_num] data_merged) pattern_shape
  end.

(** One pass of the loop of [take_n_slice] on int64 indexes. *)
Definition take_slice_with_rotation_int64
  (pattern_shape : list nat) (pixel_momentum : ndarray R)
  (volume : ndarray R) (voxel_length : R) (rot_mat : ndarray R)
  : result (ndarray R) :=
  rotated_pixel_position <-
    rotate_pixels_in_reciprocal_space rot_mat pixel_momentum ;;
  match shape volume with
  | [] => Raise IndexError
  | volume_num_1d :: _ =>
      iw <- get_weight_and_index_int64 rotated_pixel_position voxel_length
              (Z.of_nat volume_num_1d) ;;
      pixel_num <- np_prod_dim pattern_shape ;;
      take_one_slice_int64 (fst iw) (snd iw) volume pixel_num pattern_shape
  end.

(** The floors of the three voxel-unit coordinates of pixel [i], each
    with its successor, and the flat indexes of its eight corners, all
    fit int64: the cast keeps the floors and no sum or product wraps. *)
Definition stencil_fits_int64 (p : list R) (voxel_length : R) (n : nat)
  (i : nat) : Prop :=
  (forall k, (k < 3)%nat ->
     (int64_min <= voxel_floor p voxel_length n i k < int64_max)%Z) /\
  (int64_min <= base_flat_index p voxel_length n i)%Z /\
  (base_flat_index p voxel_length n i + Z.of_nat n * Z.of_nat n
   + Z.of_nat n + 1 <= int64_max)%Z.

(* ================================================================== *)
(** * Part II: properties *)
(* ================================================================== *)

(** ** Flat-array lemmas *)

Lemma firstn_length_app {A : Type} (a b : list A) :
  firstn (length a) (a ++ b) = a.
Proof. induction a as [|x a IH]; simpl; [reflexivity | now rewrite IH]. Qed.

Lemma skipn_length_app {A : Type} (a b : list A) :
  skipn (length a) (a ++ b) = b.
Proof. induction a as [|x a IH]; simpl; [reflexivity | exact IH]. Qed.

Lemma skipn_add {A : Type} (n m : nat) (l : list A) :
  skipn (n + m) l = skipn m (skipn n l).
Proof.
  revert l. induction n as [|n IH]; intros l; simpl; [reflexivity|].
  destruct l as [|x l]; [now rewrite skipn_nil | apply IH].
Qed.

Lemma np_row_flat_map {A B : Type} (k : nat) (f : A -> list B) (l : list A)
  (d : A) (i : nat) :
  (forall a, length (f a) = k) ->
  (i < length l)%nat ->
  np_row k i (flat_map f l) = f (nth i l d).
Proof.
  intros Hk. unfold np_row. revert i.
  induction l as [|a l IH]; intros i Hi; simpl in *; [lia|].
  destruct i as [|i].
  - rewrite Nat.mul_0_r. simpl.
    rewrite <- (Hk a). apply firstn_length_app.
  - replace (k * S i)%nat with (length (f a) + k * i)%nat
      by (rewrite Hk; lia).
    rewrite skipn_add, skipn_length_app. apply IH. lia.
Qed.

Lemma np_rows_flat_map {A B : Type} (k : nat) (f : A -> list B) (l : list A) :
  (forall a, length (f a) = k) ->
  np_rows k (length l) (flat_map f l) = map f l.
Proof.
  intros Hk. induction l as [|a l IH]; simpl; [reflexivity|].
  assert (Hf : firstn k (f a ++ flat_map f l) = f a)
    by (rewrite <- (Hk a); apply firstn_length_app).
  assert (Hs : skipn k (f a ++ flat_map f l) = flat_map f l)
    by (rewrite <- (Hk a); apply skipn_length_app).
  rewrite Hf, Hs, IH. reflexivity.
Qed.

Lemma np_rows_flat_map_seq {B : Type} (k : nat) (f : nat -> list B)
  (n : nat) :
  (forall a, length (f a) = k) ->
  np_rows k n (flat_map f (seq 0 n)) = map f (seq 0 n).
Proof.
  intros Hk. rewrite <- (np_rows_flat_map k f (seq 0 n) Hk).
  now rewrite length_seq.
Qed.

Lemma length_flat_map_const {A B : Type} (k : nat) (f : A -> list B)
  (l : list A) :
  (forall a, length (f a) = k) ->
  length (flat_map f l) = (length l * k)%nat.
Proof.
  intros Hk. induction l as [|a l IH]; simpl; [reflexivity|].
  rewrite length_app, Hk, IH. reflexivity.
Qed.

(** ** The trilinear stencil *)

Lemma at2_map {A B : Type} (h : A -> B) (d : A) (d' : B) (ncol : nat)
  (l : list A) (i k : nat) :
  (ncol * i + k < length l)%nat ->
  at2 d' ncol (map h l) i k = h (at2 d ncol l i k).
Proof.
  intros Hlt. unfold at2.
  rewrite (nth_indep _ d' (h d)) by (rewrite length_map; exact Hlt).
  apply map_nth.
Qed.

Lemma np_map2_map_r {A B C : Type} (f : A -> B -> C) (g : A -> B)
  (l : list A) :
  np_map2 f l (map g l) = map (fun x => f x (g x)) l.
Proof.
  unfold np_map2. induction l as [|x l IH]; simpl; [reflexivity|].
  now rewrite IH.
Qed.

Lemma center_shift_odd (n : Z) :
  Z.odd n = true -> center_shift n = ((IZR n - 1) / 2)%R.
Proof.
  intros Hodd. unfold center_shift.
  destruct (Zodd_ex n) as [m Hm]; [now apply Zodd_bool_iff|].
  subst n. replace (2 * m + 1 - 1)%Z with (m * 2)%Z by lia.
  rewrite Z.div_mul by lia.
  rewrite plus_IZR, mult_IZR. simpl. lra.
Qed.

Lemma frac_bounds (c : R) : (0 <= frac c < 1)%R.
Proof.
  unfold frac. destruct (base_Int_part c) as [Hle Hgt]. lra.
Qed.

Lemma trilinear_weights_sum (f0 f1 f2 : R) :
  np_sum (trilinear_weights f0 f1 f2) = 1%R.
Proof. unfold np_sum, trilinear_weights. simpl. ring. Qed.

Lemma length_stencil_weights (dfloor dceiling : list R) (i : nat) :
  length (stencil_weights dfloor dceiling i) = 8%nat.
Proof. reflexivity. Qed.

Lemma length_stencil_indexes (tmp_index : list Z) (i : nat) :
  length (stencil_indexes tmp_index i) = 24%nat.
Proof. reflexivity. Qed.

(** The weights the source computes from a flat position array. *)
Lemma stencil_weights_trilinear (p : list R) (vl : R) (n : Z) (i : nat) :
  Z.odd n = true ->
  (3 * i + 2 < length p)%nat ->
  let pvu := map (fun x => x + center_shift n)%R
               (map (fun x => x / vl)%R p) in
  let dfloor := np_map2 (fun x t => x - IZR t)%R pvu (map np_floor pvu) in
  let f := fun k => frac (voxel_coord (at2 0%R 3 p i k) vl n) in
  stencil_weights dfloor (map (fun x => 1 - x)%R dfloor) i
  = trilinear_weights (f 0%nat) (f 1%nat) (f 2%nat).
Proof.
  intros Hodd Hlen pvu dfloor f.
  unfold dfloor, pvu. rewrite np_map2_map_r, !map_map.
  unfold stencil_weights, trilinear_weights, f, frac, voxel_coord, np_floor.
  rewrite !(at2_map _ 0%R 0%R) by lia.
  rewrite (center_shift_odd n Hodd). reflexivity.
Qed.

Lemma partition_of_unity_flat_map (p : list R) (vl : R) (n : Z)
  (pixel_num : nat) :
  Z.odd n = true ->
  length p = (pixel_num * 3)%nat ->
  let pvu := map (fun x => x + center_shift n)%R
               (map (fun x => x / vl)%R p) in
  let dfloor := np_map2 (fun x t => x - IZR t)%R pvu (map np_floor pvu) in
  partition_of_unity p vl n pixel_num
    (flat_map (stencil_weights dfloor (map (fun x => 1 - x)%R dfloor))
       (seq 0 pixel_num)).
Proof.
  intros Hodd Hlen pvu dfloor i Hi f.
  split; [intros k _; apply frac_bounds|].
  assert (Hrow : np_row 8 i
            (flat_map (stencil_weights dfloor (map (fun x => 1 - x)%R dfloor))
               (seq 0 pixel_num))
          = trilinear_weights (f 0%nat) (f 1%nat) (f 2%nat)).
  { rewrite (np_row_flat_map 8 _ _ 0%nat)
      by (try apply length_stencil_weights; rewrite length_seq; exact Hi).
    rewrite seq_nth by exact Hi. simpl.
    apply stencil_weights_trilinear; [exact Hodd | lia]. }
  split; [exact Hrow|].
  rewrite Hrow. apply trilinear_weights_sum.
Qed.

Lemma np_prod_dim_nonempty (s : list nat) :
  s <> [] -> np_prod_dim s = Ok (np_prod s).
Proof. destruct s; [contradiction | reflexivity]. Qed.

Lemma np_prod_app (s t : list nat) :
  np_prod (s ++ t) = (np_prod s * np_prod t)%nat.
Proof.
  induction s as [|x s IH]; simpl; [lia|]. rewrite IH. lia.
Qed.

Lemma removelast_snoc {A : Type} (s : list A) (x : A) :
  removelast (s ++ [x]) = s.
Proof. apply removelast_last. Qed.

(** ** The int64 element type *)

Lemma astype_int64_fits (z : Z) : fits_int64 z -> astype_int64 z = z.
Proof.
  unfold fits_int64, astype_int64. intros [Hlo Hhi].
  destruct (Z.leb_spec int64_min z); [|lia].
  destruct (Z.leb_spec z int64_max); [|lia]. reflexivity.
Qed.

Lemma wrap_int64_fits (z : Z) : fits_int64 z -> wrap_int64 z = z.
Proof.
  unfold fits_int64, wrap_int64, int64_min, int64_max. intros [Hlo Hhi].
  rewrite Z.mod_small by lia. lia.
Qed.

Lemma np_floor_int64_fits (x : R) :
  fits_int64 (Int_part x) -> np_floor_int64 x = np_floor x.
Proof. intros H. unfold np_floor_int64, np_floor. now apply astype_int64_fits. Qed.

(** ** The stencil weights on int64 indexes *)

Lemma floors_fit_map (pvu : list R) :
  Forall (fun x => fits_int64 (Int_part x)) pvu ->
  map np_floor_int64 pvu = map np_floor pvu.
Proof.
  intros Hfit. apply map_ext_in. intros x Hx.
  rewrite Forall_forall in Hfit. apply np_floor_int64_fits, Hfit, Hx.
Qed.

Lemma voxel_unit_fits (p : list R) (vl : R) (n : Z) :
  Z.odd n = true ->
  Forall (fun x => fits_int64 (Int_part (voxel_coord x vl n))) p ->
  Forall (fun x => fits_int64 (Int_part x))
    (map (fun x => x + center_shift n)%R (map (fun x => x / vl)%R p)).
Proof.
  intros Hodd Hfit. rewrite map_map. apply Forall_map.
  rewrite (center_shift_odd n Hodd).
  eapply Forall_impl; [|exact Hfit]. intros x Hx. exact Hx.
Qed.

Lemma get_weight_and_index_int64_eq (s : list nat) (p : ndarray R) (vl : R)
  (n : Z) :
  s <> [] ->
  shape p = s ++ [3%nat] ->
  length (data p) = (np_prod s * 3)%nat ->
  let pvu := map (fun x => x + center_shift n)%R
               (map (fun x => x / vl)%R (data p)) in
  let tmp_index := map np_floor_int64 pvu in
  let dfloor := np_map2 (fun x t => x - IZR t)%R pvu tmp_index in
  get_weight_and_index_int64 p vl n
  = Ok (mk_ndarray (s ++ [8; 3]%nat)
          (flat_map (stencil_indexes_int64 tmp_index) (seq 0 (np_prod s))),
        mk_ndarray (s ++ [8]%nat)
          (flat_map (stencil_weights dfloor (map (fun x => 1 - x)%R dfloor))
             (seq 0 (np_prod s)))).
Proof.
  intros Hs Hshape Hlen. unfold get_weight_and_index_int64, np_reshape.
  rewrite Hshape, removelast_snoc, (np_prod_dim_nonempty s Hs). cbn [bind].
  replace (np_prod [np_prod s; 3%nat]) with (np_prod s * 3)%nat
    by (cbn [np_prod fold_right]; lia).
  rewrite Hlen, Nat.eqb_refl. reflexivity.
Qed.

(** C1. For every stack of pixels whose voxel-unit coordinates have their
    whole part in the int64 range, positive voxel length and odd voxel
    count, [get_weight_and_index] and (on a four-axis stack)
    [get_weight_in_reciprocal_space] return, per pixel, the eight products
    over the three axes of [frac] or [1 - frac] of the voxel-unit
    coordinate, with [0 <= frac < 1], and the eight weights of every pixel
    sum to exactly one. *)
Theorem trilinear_weights_partition_of_unity_within_int64
  (s : list nat) (pixel_position : ndarray R) (voxel_length : R)
  (voxel_num_1d : Z) :
  (0 < voxel_length)%R ->
  Z.odd voxel_num_1d = true ->
  s <> [] ->
  shape pixel_position = s ++ [3%nat] ->
  well_formed pixel_position ->
  Forall (fun x =>
            fits_int64 (Int_part (voxel_coord x voxel_length voxel_num_1d)))
    (data pixel_position) ->
  (exists indexes weight,
     get_weight_and_index_int64 pixel_position voxel_length voxel_num_1d
       = Ok (indexes, weight) /\
     shape weight = s ++ [8%nat] /\
     partition_of_unity (data pixel_position) voxel_length voxel_num_1d
       (np_prod s) (data weight)) /\
  (forall num_panel num_x num_y, s = [num_panel; num_x; num_y] ->
   exists indexes weight,
     get_weight_in_reciprocal_space_int64 pixel_position voxel_length
       voxel_num_1d = Ok (indexes, weight) /\
     shape weight = s ++ [8%nat] /\
     partition_of_unity (data pixel_position) voxel_length voxel_num_1d
       (np_prod s) (data weight)).
Proof.
  intros _ Hodd Hs Hshape Hwf Hfit.
  assert (Hlen : length (data pixel_position) = (np_prod s * 3)%nat).
  { unfold well_formed in Hwf. rewrite Hwf, Hshape, np_prod_app.
    cbn [np_prod fold_right]. lia. }
  pose proof (floors_fit_map _ (voxel_unit_fits _ voxel_length voxel_num_1d
                                  Hodd Hfit)) as Hfloor.
  split.
  - rewrite (get_weight_and_index_int64_eq s pixel_position voxel_length
               voxel_num_1d Hs Hshape Hlen).
    eexists. eexists. split; [reflexivity|]. split; [reflexivity|].
    cbn [data]. rewrite Hfloor.
    apply partition_of_unity_flat_map; assumption.
  - intros num_panel num_x num_y Hs4. subst s.
    unfold get_weight_in_reciprocal_space_int64. rewrite Hshape.
    cbn [app Nat.eqb].
    eexists. eexists. split; [reflexivity|]. split; [reflexivity|].
    cbn [data].
    replace (num_panel * num_x * num_y)%nat
      with (np_prod [num_panel; num_x; num_y])
      by (cbn [np_prod fold_right]; lia).
    rewrite <- (map_map (fun x => x / voxel_length)%R
                  (fun x => x + center_shift voxel_num_1d)%R).
    rewrite Hfloor.
    apply partition_of_unity_flat_map; assumption.
Qed.

Lemma Int_part_fits_small (r : R) (z : Z) :
  (IZR z <= r < IZR z + 1)%R -> fits_int64 z -> fits_int64 (Int_part r).
Proof.
  intros Hr Hz. rewrite <- (Int_part_spec r z) by lra. exact Hz.
Qed.

Lemma half_pixel_fits :
  Forall (fun x => fits_int64 (Int_part (voxel_coord x 1 3)))
    [1 / 2; 0; - (1 / 4)]%R.
Proof.
  unfold voxel_coord.
  assert (Hone : fits_int64 1)
    by (unfold fits_int64, int64_min, int64_max; lia).
  assert (Hzero : fits_int64 0)
    by (unfold fits_int64, int64_min, int64_max; lia).
  apply Forall_cons; [apply (Int_part_fits_small _ 1); [lra | exact Hone]|].
  apply Forall_cons; [apply (Int_part_fits_small _ 1); [lra | exact Hone]|].
  apply Forall_cons; [apply (Int_part_fits_small _ 0); [lra | exact Hzero]|].
  apply Forall_nil.
Qed.

(** Witness of C1: one pixel at (1/2, 0, -1/4) on a 3-voxel grid, as a
    flat stack and as a stack of one 1x1 panel. *)
Lemma trilinear_weights_partition_of_unity_within_int64_witness :
  (exists indexes weight,
     get_weight_and_index_int64
       (mk_ndarray [1; 3]%nat [1 / 2; 0; - (1 / 4)]%R) 1%R 3%Z
       = Ok (indexes, weight) /\
     shape weight = [1; 8]%nat /\
     partition_of_unity [1 / 2; 0; - (1 / 4)]%R 1%R 3%Z 1 (data weight)) /\
  (exists indexes weight,
     get_weight_in_reciprocal_space_int64
       (mk_ndarray [1; 1; 1; 3]%nat [1 / 2; 0; - (1 / 4)]%R) 1%R 3%Z
       = Ok (indexes, weight) /\
     shape weight = [1; 1; 1; 8]%nat /\
     partition_of_unity [1 / 2; 0; - (1 / 4)]%R 1%R 3%Z 1 (data weight)).
Proof.
  split.
  - exact (proj1 (trilinear_weights_partition_of_unity_within_int64 [1%nat]
                    (mk_ndarray [1; 3]%nat [1 / 2; 0; - (1 / 4)]%R) 1%R 3%Z
                    Rlt_0_1 eq_refl ltac:(discriminate) eq_refl eq_refl
                    half_pixel_fits)).
  - exact (proj2 (trilinear_weights_partition_of_unity_within_int64
                    [1; 1; 1]%nat
                    (mk_ndarray [1; 1; 1; 3]%nat [1 / 2; 0; - (1 / 4)]%R)
                    1%R 3%Z
                    Rlt_0_1 eq_refl ltac:(discriminate) eq_refl eq_refl
                    half_pixel_fits) 1%nat 1%nat 1%nat eq_refl).
Defined.

Lemma Int_part_eq (r : R) (z : Z) :
  (IZR z <= r < IZR z + 1)%R -> Int_part r = z.
Proof. intros H. symmetry. apply Int_part_spec. lra. Qed.

(** Counterexample to C1 without the bound on the coordinates: the pixel
    (1e19, 0, 0) on a 3-voxel grid of unit voxels.  The whole part of its
    first voxel-unit coordinate, 1e19 + 1, is beyond int64, the
    cast gives the smallest int64, and the first weight is
    [1 - (1e19 + 1 + 2^63)], not the product of [1 - frac] over the three
    axes, which is one. *)
Lemma trilinear_weights_beyond_int64_counterexample :
  ~ (exists indexes weight,
       get_weight_and_index_int64
         (mk_ndarray [1; 3]%nat [1e19; 0; 0]%R) 1%R 3%Z
       = Ok (indexes, weight) /\
       partition_of_unity [1e19; 0; 0]%R 1%R 3%Z 1 (data weight)).
Proof.
  intros (indexes & weight & Hok & Hunity).
  rewrite (get_weight_and_index_int64_eq [1%nat]
             (mk_ndarray [1; 3]%nat [1e19; 0; 0]%R) 1%R 3%Z
             ltac:(discriminate) eq_refl eq_refl) in Hok.
  injection Hok as _ <-.
  destruct (Hunity 0%nat ltac:(lia)) as (_ & Hrow & _).
  cbn [data np_prod fold_right Nat.mul seq flat_map map] in Hrow.
  change (center_shift 3) with 1%R in Hrow.
  unfold np_floor_int64 in Hrow.
  rewrite (Int_part_eq (1e19 / 1 + 1) 10000000000000000001) in Hrow by lra.
  rewrite (Int_part_eq (0 / 1 + 1) 1) in Hrow by lra.
  change (astype_int64 10000000000000000001) with (-9223372036854775808)%Z
    in Hrow.
  change (astype_int64 1) with 1%Z in Hrow.
  unfold voxel_coord, frac, at2 in Hrow.
  cbn [nth Nat.mul Nat.add] in Hrow.
  rewrite (Int_part_eq (1e19 / 1 + (3 - 1) / 2) 10000000000000000001)
    in Hrow by lra.
  rewrite (Int_part_eq (0 / 1 + (3 - 1) / 2) 1) in Hrow by lra.
  unfold np_row, stencil_weights, trilinear_weights, np_map2, at2 in Hrow.
  cbn [combine map app skipn firstn nth Nat.mul Nat.add fst snd] in Hrow.
  injection Hrow as Hfirst _.
  lra.
Qed.

(** ** Sampling a constant volume *)

Lemma np_rows_length {A : Type} (k m : nat) (l : list A) :
  length (np_rows k m l) = m.
Proof.
  revert l. induction m as [|m IH]; intros l; simpl; [reflexivity|].
  now rewrite IH.
Qed.

Lemma Forall_skipn {A : Type} (Q : A -> Prop) (k : nat) (l : list A) :
  Forall Q l -> Forall Q (skipn k l).
Proof.
  revert l. induction k as [|k IH]; intros l H; simpl; [exact H|].
  destruct l as [|x l]; [exact H|]. inversion H; subst. now apply IH.
Qed.

Lemma Forall_firstn {A : Type} (Q : A -> Prop) (k : nat) (l : list A) :
  Forall Q l -> Forall Q (firstn k l).
Proof.
  revert l. induction k as [|k IH]; intros l H; simpl; [constructor|].
  destruct l as [|x l]; [constructor|].
  inversion H; subst. constructor; [assumption | now apply IH].
Qed.

Lemma np_rows_Forall {A : Type} (Q : A -> Prop) (k m : nat) (l : list A) :
  Forall Q l -> Forall (Forall Q) (np_rows k m l).
Proof.
  revert l. induction m as [|m IH]; intros l H; simpl; constructor.
  - now apply Forall_firstn.
  - apply IH. now apply Forall_skipn.
Qed.

Lemma np_rows_row_length {A : Type} (k m : nat) (l : list A) :
  length l = (m * k)%nat ->
  Forall (fun r => length r = k) (np_rows k m l).
Proof.
  revert l. induction m as [|m IH]; intros l H; simpl; constructor.
  - rewrite length_firstn. lia.
  - apply IH. rewrite length_skipn. lia.
Qed.

Lemma np_take_repeat {A : Type} (c : A) (m : nat) (index : list Z) :
  Forall (fun i => 0 <= i < Z.of_nat m)%Z index ->
  np_take (repeat c m) index = Ok (repeat c (length index)).
Proof.
  induction 1 as [|i index Hi _ IH]; simpl; [reflexivity|].
  unfold np_getitem. rewrite repeat_length.
  destruct (Z.ltb_spec i 0); [lia|].
  destruct (Z.leb_spec 0 i); [|lia].
  destruct (Z.ltb_spec i (Z.of_nat m)); [|lia]. simpl.
  destruct (nth_error (repeat c m) (Z.to_nat i)) as [x|] eqn:E.
  - apply nth_error_In, repeat_spec in E. subst x.
    simpl. rewrite IH. reflexivity.
  - apply nth_error_None in E. rewrite repeat_length in E. lia.
Qed.

(** A corner inside the cube has its row-major flat index inside the
    flattened volume. *)
Lemma flat_index_in_range (n : nat) (r : list Z) :
  length r = 3%nat ->
  Forall (fun z => 0 <= z <= Z.of_nat n - 1)%Z r ->
  let v := Z.of_nat n in
  (0 <= fold_left Z.add (np_map2 Z.mul r [v * v; v; 1]) 0
   < Z.of_nat (n * n * n))%Z.
Proof.
  intros Hlen Hall.
  destruct r as [|a [|b [|c [|? ?]]]]; try discriminate.
  inversion Hall as [|? ? Ha Hall1]; subst.
  inversion Hall1 as [|? ? Hb Hall2]; subst.
  inversion Hall2 as [|? ? Hc _]; subst.
  unfold np_map2. simpl fold_left. rewrite !Nat2Z.inj_mul. nia.
Qed.

Lemma matmul_vec3_in_range (n : nat) (rows : list (list Z)) :
  Forall (fun r => length r = 3%nat) rows ->
  Forall (Forall (fun z => 0 <= z <= Z.of_nat n - 1)%Z) rows ->
  let v := Z.of_nat n in
  Forall (fun i => 0 <= i < Z.of_nat (n * n * n))%Z
    (matmul_vec3 rows [v * v; v; 1]%Z).
Proof.
  intros Hlen Hall v. unfold matmul_vec3.
  induction rows as [|r rows IH]; simpl; constructor.
  - apply flat_index_in_range.
    + now inversion Hlen.
    + now inversion Hall.
  - apply IH; [now inversion Hlen | now inversion Hall].
Qed.

Lemma np_map2_repeat_r (c : R) (w : list R) :
  np_map2 Rmult w (repeat c (length w)) = map (fun x => x * c)%R w.
Proof.
  unfold np_map2. induction w as [|x w IH]; simpl; [reflexivity|].
  now rewrite IH.
Qed.

Lemma map_flat_map_comm {A B C : Type} (g : B -> C) (f : A -> list B)
  (l : list A) :
  map g (flat_map f l) = flat_map (fun a => map g (f a)) l.
Proof.
  induction l as [|a l IH]; simpl; [reflexivity|].
  now rewrite map_app, IH.
Qed.

Lemma map_const_seq {A : Type} (c : A) (start len : nat) :
  map (fun _ => c) (seq start len) = repeat c len.
Proof.
  revert start. induction len as [|len IH]; intros start; simpl;
    [reflexivity | now rewrite IH].
Qed.

(** The weighted sum of one pixel against a constant gather. *)
Lemma stencil_weights_const_sum (dfloor : list R) (c : R) (i : nat) :
  (3 * i + 2 < length dfloor)%nat ->
  np_sum (map (fun x => x * c)%R
            (stencil_weights dfloor (map (fun x => 1 - x)%R dfloor) i)) = c.
Proof.
  intros Hlen. unfold stencil_weights.
  rewrite !(at2_map _ 0%R 0%R) by lia.
  unfold np_sum. simpl. ring.
Qed.

Lemma np_map2_length {A B C : Type} (f : A -> B -> C) (a : list A)
  (b : list B) :
  length a = length b -> length (np_map2 f a b) = length a.
Proof.
  intros H. unfold np_map2. rewrite length_map, length_combine. lia.
Qed.

Lemma rotate_pixels_ok (s : list nat) (rot_mat pixels_position : ndarray R) :
  shape rot_mat = [3; 3]%nat ->
  shape pixels_position = s ++ [3%nat] ->
  exists rotated,
    rotate_pixels_in_reciprocal_space rot_mat pixels_position = Ok rotated /\
    shape rotated = s ++ [3%nat] /\
    length (data rotated) = (np_prod s * 3)%nat.
Proof.
  intros Hrot Hpix. unfold rotate_pixels_in_reciprocal_space.
  rewrite Hrot, Hpix, last_last, removelast_snoc, length_app.
  simpl length. rewrite Nat.eqb_refl.
  replace (Nat.eqb (length s + 1) 0) with false
    by (symmetry; apply Nat.eqb_neq; lia).
  simpl. eexists. split; [reflexivity|]. split; [reflexivity|].
  simpl. rewrite (length_flat_map_const 3), length_seq; [reflexivity|].
  intros a. reflexivity.
Qed.

Lemma get_weight_and_index_eq (s : list nat) (p : ndarray R) (vl : R)
  (n : Z) :
  s <> [] ->
  shape p = s ++ [3%nat] ->
  length (data p) = (np_prod s * 3)%nat ->
  let pvu := map (fun x => x + center_shift n)%R
               (map (fun x => x / vl)%R (data p)) in
  let tmp_index := map np_floor pvu in
  let dfloor := np_map2 (fun x t => x - IZR t)%R pvu tmp_index in
  get_weight_and_index p vl n
  = Ok (mk_ndarray (s ++ [8; 3]%nat)
          (flat_map (stencil_indexes tmp_index) (seq 0 (np_prod s))),
        mk_ndarray (s ++ [8]%nat)
          (flat_map (stencil_weights dfloor (map (fun x => 1 - x)%R dfloor))
             (seq 0 (np_prod s)))).
Proof.
  intros Hs Hshape Hlen. unfold get_weight_and_index, np_reshape.
  rewrite Hshape, removelast_snoc, (np_prod_dim_nonempty s Hs). cbn [bind].
  replace (np_prod [np_prod s; 3%nat]) with (np_prod s * 3)%nat
    by (simpl; lia).
  rewrite Hlen, Nat.eqb_refl. reflexivity.
Qed.

Lemma take_one_slice_constant (n : nat) (c : R) (s si sw : list nat)
  (index : list Z) (dfloor : list R) :
  length dfloor = (np_prod s * 3)%nat ->
  length index = (np_prod s * 24)%nat ->
  Forall (fun z => 0 <= z <= Z.of_nat n - 1)%Z index ->
  take_one_slice (mk_ndarray si index)
    (mk_ndarray sw
       (flat_map (stencil_weights dfloor (map (fun x => 1 - x)%R dfloor))
          (seq 0 (np_prod s))))
    (constant_volume n c) (np_prod s) s
  = Ok (mk_ndarray s (repeat c (np_prod s))).
Proof.
  intros Hdf Hidx Hall.
  set (P := np_prod s) in *.
  unfold take_one_slice, constant_volume, np_reshape. cbn [shape data].
  replace (np_prod [P; 8; 3]%nat) with (P * 24)%nat by (simpl; lia).
  rewrite Hidx, Nat.eqb_refl. cbn [bind data].
  replace (np_prod [(n ^ 3)%nat]) with (n * n * n)%nat by (simpl; lia).
  rewrite repeat_length, Nat.eqb_refl. cbn [bind data].
  rewrite (length_flat_map_const 8), length_seq
    by (intros a; reflexivity).
  replace (np_prod [P; 8]%nat) with (P * 8)%nat by (simpl; lia).
  rewrite Nat.eqb_refl. cbn [bind data].
  rewrite np_take_repeat.
  2:{ apply matmul_vec3_in_range.
      - apply np_rows_row_length. lia.
      - now apply np_rows_Forall. }
  cbn [bind].
  pose proof (length_flat_map_const 8
                (stencil_weights dfloor (map (fun x => 1 - x)%R dfloor))
                (seq 0 P) (fun a => eq_refl)) as Hw.
  rewrite length_seq in Hw.
  match goal with
  | |- context [repeat c (length ?m)] =>
      replace (length m) with
        (length (flat_map
                   (stencil_weights dfloor (map (fun x => 1 - x)%R dfloor))
                   (seq 0 P)))
        by (unfold matmul_vec3; rewrite length_map, np_rows_length; exact Hw)
  end.
  rewrite np_map2_repeat_r, map_flat_map_comm.
  rewrite (np_rows_flat_map_seq 8) by (intros a; reflexivity).
  rewrite map_map.
  rewrite (map_ext_in _ (fun _ => c)).
  2:{ intros i Hi. apply in_seq in Hi.
      apply stencil_weights_const_sum. lia. }
  rewrite map_const_seq.
  simpl. rewrite repeat_length, Nat.eqb_refl. reflexivity.
Qed.

(** C2. On a constant volume, for every 3x3 rotation matrix, positive
    voxel length and stack of pixels whose eight stencil corners all lie
    inside the cube, one
    slicing pass (rotate, [get_weight_and_index], [take_one_slice])
    returns the constant at every pixel. *)
Theorem constant_volume_slice_is_constant
  (s : list nat) (pixel_momentum rot_mat : ndarray R) (voxel_length : R)
  (n : nat) (c : R) :
  (0 < voxel_length)%R ->
  s <> [] ->
  shape pixel_momentum = s ++ [3%nat] ->
  shape rot_mat = [3; 3]%nat ->
  Forall (fun z => 0 <= z <= Z.of_nat n - 1)%Z
    (stencil_corner_indexes rot_mat pixel_momentum voxel_length n) ->
  take_slice_with_rotation s pixel_momentum (constant_volume n c)
    voxel_length rot_mat
  = Ok (mk_ndarray s (repeat c (np_prod s))).
Proof.
  intros _ Hs Hpix Hrot Hin.
  destruct (rotate_pixels_ok s rot_mat pixel_momentum Hrot Hpix)
    as (rotated & Hr & Hrs & Hrl).
  unfold stencil_corner_indexes in Hin. unfold take_slice_with_rotation.
  rewrite Hr in *. cbn [bind shape constant_volume] in *.
  rewrite (get_weight_and_index_eq s rotated voxel_length (Z.of_nat n)
             Hs Hrs Hrl) in *.
  rewrite (np_prod_dim_nonempty s Hs).
  cbn [data fst snd bind] in *.
  apply take_one_slice_constant.
  - rewrite np_map2_length; rewrite !length_map; [exact Hrl | reflexivity].
  - rewrite (length_flat_map_const 24), length_seq; [reflexivity|].
    intros a. reflexivity.
  - exact Hin.
Qed.

Lemma np_floor_eq (r : R) (z : Z) :
  (IZR z <= r < IZR z + 1)%R -> np_floor r = z.
Proof.
  intros H. unfold np_floor. symmetry. apply Int_part_spec. lra.
Qed.

(** Witness of C2: one pixel at (1/2, 0, -1/4), a quarter turn about z,
    a 3x3x3 volume of fives. *)
Lemma constant_volume_slice_is_constant_witness :
  take_slice_with_rotation [1%nat]
    (mk_ndarray [1; 3]%nat [1 / 2; 0; - (1 / 4)]%R)
    (constant_volume 3 5%R) 1%R
    (mk_ndarray [3; 3]%nat [0; -1; 0; 1; 0; 0; 0; 0; 1]%R)
  = Ok (mk_ndarray [1%nat] [5%R]).
Proof.
  apply (constant_volume_slice_is_constant [1%nat]
           (mk_ndarray [1; 3]%nat [1 / 2; 0; - (1 / 4)]%R)
           (mk_ndarray [3; 3]%nat [0; -1; 0; 1; 0; 0; 0; 0; 1]%R)
           1%R 3 5%R Rlt_0_1 ltac:(discriminate) eq_refl eq_refl).
  unfold stencil_corner_indexes.
  cbn [rotate_pixels_in_reciprocal_space shape data last removelast np_prod
       np_prod_dim length fold_right Nat.eqb Nat.mul andb negb bind
       get_weight_and_index np_reshape app flat_map seq map at2 nth Nat.add
       np_sum fold_left fst snd].
  change (center_shift (Z.of_nat 3)) with 1%R.
  rewrite (np_floor_eq _ 1) by (simpl; lra).
  rewrite (np_floor_eq _ 1) by (simpl; lra).
  rewrite (np_floor_eq _ 0) by (simpl; lra).
  unfold stencil_indexes, at2. simpl.
  repeat constructor; lia.
Defined.

(** Sampling the single-voxel volume at the voxel's centre gives one, and
    half way to a neighbouring voxel gives one half. *)

Ltac eval_slice z0 z1 z2 :=
  unfold take_slice_with_rotation, single_voxel_volume, identity_rotation;
  cbn [rotate_pixels_in_reciprocal_space shape data last removelast np_prod
       np_prod_dim length fold_right Nat.eqb Nat.mul andb negb bind
       get_weight_and_index np_reshape app flat_map seq map at2 nth Nat.add
       np_sum fold_left fst snd];
  change (center_shift (Z.of_nat 3)) with 1%R;
  rewrite (np_floor_eq _ z0) by (simpl; lra);
  rewrite (np_floor_eq _ z1) by (simpl; lra);
  rewrite (np_floor_eq _ z2) by (simpl; lra);
  unfold take_one_slice; simpl;
  unfold np_reshape, np_map2, at2, np_sum; simpl;
  apply f_equal; apply f_equal;
  apply (f_equal2 (@cons R)); [lra | reflexivity].

Example slice_at_voxel_center :
  take_slice_with_rotation [1%nat] (mk_ndarray [1; 3]%nat [0; 0; 0]%R)
    single_voxel_volume 1%R identity_rotation
  = Ok (mk_ndarray [1%nat] [1%R]).
Proof. eval_slice 1%Z 1%Z 1%Z. Qed.

Example slice_between_voxels :
  take_slice_with_rotation [1%nat] (mk_ndarray [1; 3]%nat [1 / 2; 0; 0]%R)
    single_voxel_volume 1%R identity_rotation
  = Ok (mk_ndarray [1%nat] [(1 / 2)%R]).
Proof. eval_slice 1%Z 1%Z 1%Z. Qed.

(** ** Quaternion round trip *)

Lemma quarter_is_fourth : 0.25%R = (1 / 4)%R.
Proof. lra. Qed.

Lemma sqrt_four_squares (x y : R) :
  (y = 4 * (x * x))%R -> sqrt y = (2 * Rabs x)%R.
Proof.
  intros ->. replace (4 * (x * x))%R with (Rsqr (2 * x)) by (unfold Rsqr; ring).
  rewrite sqrt_Rsqr_abs, Rabs_mult, (Rabs_pos_eq 2) by lra. reflexivity.
Qed.

(** One branch of the reconstruction: the scale factor is four times the
    magnitude of the pivot component [p], which is nonzero there. *)
Lemma pivot_cases (p : R) :
  p <> 0%R ->
  (0 < p /\ Rabs p = p)%R \/ (p < 0 /\ Rabs p = - p)%R.
Proof.
  intros Hp. destruct (Rlt_dec 0 p) as [Hpos|Hneg].
  - left. split; [exact Hpos | apply Rabs_pos_eq; lra].
  - right. assert (p < 0)%R by lra. split; [assumption|].
    apply Rabs_left. assumption.
Qed.

Ltac decide_Rgtb :=
  unfold Rgtb;
  repeat match goal with
         | |- context [Rgt_dec ?a ?b] => destruct (Rgt_dec a b)
         end;
  cbn [andb].

Ltac quaternion_branch p S_eq :=
  rewrite S_eq, quarter_is_fourth;
  let Hpos := fresh "Hpos" in
  let Hneg := fresh "Hneg" in
  let Habs := fresh "Habs" in
  destruct (pivot_cases p) as [[Hpos Habs]|[Hneg Habs]];
  [ nra
  | left; rewrite Habs; apply f_equal;
    repeat (apply (f_equal2 (@cons R)); [field; lra|]); reflexivity
  | right; rewrite Habs; apply f_equal;
    repeat (apply (f_equal2 (@cons R)); [field; lra|]); reflexivity ].

(** C3. For every unit quaternion, converting to a rotation matrix and
    back returns the quaternion or its negation, whichever of the four
    branches of the reconstruction is taken. *)
Theorem quaternion_round_trip_up_to_sign (q0 q1 q2 q3 : R) :
  (q0 * q0 + q1 * q1 + q2 * q2 + q3 * q3 = 1)%R ->
  quaternion_round_trip [q0; q1; q2; q3] = Ok [q0; q1; q2; q3] \/
  quaternion_round_trip [q0; q1; q2; q3] = Ok [- q0; - q1; - q2; - q3]%R.
Proof.
  intros Hunit.
  unfold quaternion_round_trip, quaternion2rot3d, rotmat_to_quaternion.
  cbn [bind shape data Nat.leb andb at2 nth Nat.mul Nat.add].
  decide_Rgtb;
    match goal with
    | |- context [sqrt ?e] =>
        first
          [ assert (HS : sqrt e = (2 * Rabs q0)%R)
              by (apply sqrt_four_squares; nra);
            quaternion_branch q0 HS
          | assert (HS : sqrt e = (2 * Rabs q1)%R)
              by (apply sqrt_four_squares; nra);
            quaternion_branch q1 HS
          | assert (HS : sqrt e = (2 * Rabs q2)%R)
              by (apply sqrt_four_squares; nra);
            quaternion_branch q2 HS
          | assert (HS : sqrt e = (2 * Rabs q3)%R)
              by (apply sqrt_four_squares; nra);
            quaternion_branch q3 HS ]
    end.
Qed.

(** Witness of C3: the quaternion (1/2, 1/2, 1/2, 1/2). *)
Lemma quaternion_round_trip_up_to_sign_witness :
  quaternion_round_trip [1 / 2; 1 / 2; 1 / 2; 1 / 2]%R
    = Ok [1 / 2; 1 / 2; 1 / 2; 1 / 2]%R \/
  quaternion_round_trip [1 / 2; 1 / 2; 1 / 2; 1 / 2]%R
    = Ok [- (1 / 2); - (1 / 2); - (1 / 2); - (1 / 2)]%R.
Proof.
  apply (quaternion_round_trip_up_to_sign (1 / 2) (1 / 2) (1 / 2) (1 / 2)).
  lra.
Defined.

(** The four branches on the quaternions that select them, and the sign
    ambiguity on a quaternion with negative first component. *)

Ltac eval_round_trip pivot :=
  unfold quaternion_round_trip, quaternion2rot3d, rotmat_to_quaternion;
  cbn [bind shape data Nat.leb andb at2 nth Nat.mul Nat.add];
  unfold Rgtb;
  repeat match goal with
         | |- context [Rgt_dec ?a ?b] =>
             destruct (Rgt_dec a b); try (exfalso; lra)
         end;
  cbn [andb];
  match goal with
  | |- context [sqrt ?e] =>
      rewrite (sqrt_four_squares pivot e) by lra
  end;
  rewrite quarter_is_fourth, (Rabs_pos_eq pivot) by lra;
  apply f_equal;
  repeat (apply (f_equal2 (@cons R)); [field|]); reflexivity.

Example round_trip_trace_branch :
  quaternion_round_trip [1; 0; 0; 0]%R = Ok [1; 0; 0; 0]%R.
Proof. eval_round_trip 1%R. Qed.

Example round_trip_r00_branch :
  quaternion_round_trip [0; 1; 0; 0]%R = Ok [0; 1; 0; 0]%R.
Proof. eval_round_trip 1%R. Qed.

Example round_trip_r11_branch :
  quaternion_round_trip [0; 0; 1; 0]%R = Ok [0; 0; 1; 0]%R.
Proof. eval_round_trip 1%R. Qed.

Example round_trip_r22_branch :
  quaternion_round_trip [0; 0; 0; 1]%R = Ok [0; 0; 0; 1]%R.
Proof. eval_round_trip 1%R. Qed.

Example round_trip_negated :
  quaternion_round_trip [-1; 0; 0; 0]%R = Ok [1; 0; 0; 0]%R.
Proof. eval_round_trip 1%R. Qed.

(** ** Axis validation *)

Lemma lower_char_is (c : ascii) :
  (lower_char c = "x"%char <-> c = "x"%char \/ c = "X"%char) /\
  (lower_char c = "y"%char <-> c = "y"%char \/ c = "Y"%char) /\
  (lower_char c = "z"%char <-> c = "z"%char \/ c = "Z"%char).
Proof.
  destruct c as [[] [] [] [] [] [] [] []]; vm_compute;
    repeat split; intros H;
    try discriminate H; try (destruct H as [H|H]; discriminate H);
    auto.
Qed.

Lemma str_lower_empty (s : string) :
  str_lower s = EmptyString -> s = EmptyString.
Proof. destruct s; [reflexivity | discriminate]. Qed.

Lemma str_lower_single (s : string) (t u : ascii) :
  (forall c, lower_char c = t <-> c = t \/ c = u) ->
  str_lower s = String t EmptyString <->
  s = String t EmptyString \/ s = String u EmptyString.
Proof.
  intros Hc. split.
  - destruct s as [|c rest]; [discriminate|]. simpl. intros H.
    injection H as H1 H2. apply str_lower_empty in H2. subst rest.
    apply Hc in H1. destruct H1 as [->| ->]; auto.
  - intros [->| ->]; simpl; f_equal; apply Hc; auto.
Qed.

Lemma recognized_name_lower (name : string) :
  recognized_name name <->
  str_lower name = "x"%string \/ str_lower name = "y"%string \/
  str_lower name = "z"%string.
Proof.
  pose proof (str_lower_single name "x" "X"
                (fun c => proj1 (lower_char_is c))) as Hx.
  pose proof (str_lower_single name "y" "Y"
                (fun c => proj1 (proj2 (lower_char_is c)))) as Hy.
  pose proof (str_lower_single name "z" "Z"
                (fun c => proj2 (proj2 (lower_char_is c)))) as Hz.
  unfold recognized_name. tauto.
Qed.

Lemma parse_axis_valid (axis : axis_arg) :
  valid_axis axis ->
  exists a,
    parse_axis axis = Ok a /\
    match axis with
    | AxisName _ => exists v, a = FloatArray v
    | AxisVector a' => a = a'
    end.
Proof.
  destruct axis as [name|a]; simpl.
  - rewrite recognized_name_lower.
    destruct (String.eqb_spec (str_lower name) "x"); [eauto|].
    destruct (String.eqb_spec (str_lower name) "y"); [eauto|].
    destruct (String.eqb_spec (str_lower name) "z"); [eauto|].
    tauto.
  - intros ->. simpl. eauto.
Qed.

Lemma parse_axis_invalid (axis : axis_arg) :
  ~ valid_axis axis -> parse_axis axis = Raise ValueError.
Proof.
  destruct axis as [name|a]; simpl.
  - rewrite recognized_name_lower.
    destruct (String.eqb_spec (str_lower name) "x"); [tauto|].
    destruct (String.eqb_spec (str_lower name) "y"); [tauto|].
    destruct (String.eqb_spec (str_lower name) "z"); [tauto|].
    reflexivity.
  - destruct (Nat.eqb_spec (array1_length a) 3); [tauto | reflexivity].
Qed.

(** Both converters raise [ValueError] exactly when the axis is neither
    'x', 'y', 'z' in either case nor an array of length three. *)
Lemma angle_axis_value_error_iff_invalid (axis : axis_arg) (theta : R) :
  (angle_axis_to_rot3d axis theta = Raise ValueError <-> ~ valid_axis axis) /\
  (angle_axis_to_quaternion axis theta = Raise ValueError
   <-> ~ valid_axis axis).
Proof.
  unfold angle_axis_to_rot3d, angle_axis_to_quaternion.
  split; split.
  - intros Hraise Hv. destruct (parse_axis_valid axis Hv) as (a & Ea & _).
    rewrite Ea in Hraise. discriminate Hraise.
  - intros Hn. rewrite (parse_axis_invalid axis Hn). reflexivity.
  - intros Hraise Hv. destruct (parse_axis_valid axis Hv) as (a & Ea & _).
    rewrite Ea in Hraise. cbn [bind] in Hraise.
    destruct a; discriminate Hraise.
  - intros Hn. rewrite (parse_axis_invalid axis Hn). reflexivity.
Qed.

(** [angle_axis_to_rot3d] returns on every valid axis. *)
Lemma angle_axis_to_rot3d_returns (axis : axis_arg) (theta : R) :
  valid_axis axis -> exists rot3d, angle_axis_to_rot3d axis theta = Ok rot3d.
Proof.
  intros Hv. unfold angle_axis_to_rot3d.
  destruct (parse_axis_valid axis Hv) as (a & -> & _). simpl. eauto.
Qed.

(** [angle_axis_to_quaternion] returns on every valid name and on every
    float array of length three. *)
Lemma angle_axis_to_quaternion_returns (axis : axis_arg) (theta : R) :
  valid_axis axis ->
  (forall v, axis <> AxisVector (IntArray v)) ->
  exists quat, angle_axis_to_quaternion axis theta = Ok quat.
Proof.
  intros Hv Hfloat. unfold angle_axis_to_quaternion.
  destruct (parse_axis_valid axis Hv) as (a & -> & Ha). cbn [bind].
  destruct axis as [name|a'].
  - destruct Ha as [v ->]. simpl. eauto.
  - subst a'. destruct a as [v|v]; [simpl; eauto|].
    exfalso. exact (Hfloat v eq_refl).
Qed.

(** On an integer array of length three it raises [TypeError]. *)
Lemma angle_axis_to_quaternion_int_array (v : list Z) (theta : R) :
  length v = 3%nat ->
  angle_axis_to_quaternion (AxisVector (IntArray v)) theta = Raise TypeError.
Proof.
  intros Hlen. unfold angle_axis_to_quaternion. simpl.
  rewrite Hlen. reflexivity.
Qed.

(** C8 (fails on the code). The integer array [0, 0, 1] is a valid axis,
    a vector of length three, and [angle_axis_to_rot3d] converts it to
    float and returns; [angle_axis_to_quaternion] divides it in place and
    raises [TypeError] instead of returning normally. *)
Theorem angle_axis_to_quaternion_integer_axis (theta : R) :
  valid_axis (AxisVector (IntArray [0; 0; 1]%Z)) /\
  (exists rot3d,
     angle_axis_to_rot3d (AxisVector (IntArray [0; 0; 1]%Z)) theta
     = Ok rot3d) /\
  angle_axis_to_quaternion (AxisVector (IntArray [0; 0; 1]%Z)) theta
  = Raise TypeError.
Proof.
  split; [reflexivity|]. split.
  - apply angle_axis_to_rot3d_returns. reflexivity.
  - reflexivity.
Qed.

Example angle_axis_to_quaternion_identity :
  angle_axis_to_quaternion (AxisName "x") 0 = Ok [1; 0; 0; 0]%R.
Proof.
  unfold angle_axis_to_quaternion. simpl.
  replace (0 / 2)%R with 0%R by lra. rewrite cos_0, sin_0.
  apply f_equal.
  repeat (apply (f_equal2 (@cons R)); [try reflexivity; ring|]). reflexivity.
Qed.

Example angle_axis_unknown_name (theta : R) :
  angle_axis_to_quaternion (AxisName "w") theta = Raise ValueError /\
  angle_axis_to_rot3d (AxisName "xy") theta = Raise ValueError.
Proof. split; reflexivity. Qed.

Example angle_axis_wrong_length (theta : R) :
  angle_axis_to_quaternion (AxisVector (FloatArray [1; 0]%R)) theta
    = Raise ValueError /\
  angle_axis_to_rot3d (AxisVector (IntArray [1; 0; 0; 0]%Z)) theta
    = Raise ValueError.
Proof. split; reflexivity. Qed.

(** ** Orientations on a circle *)

Lemma np_set_row_length {A : Type} (k j : nat) (row l l' : list A) :
  np_set_row k j row l = Ok l' -> length l' = length l.
Proof.
  unfold np_set_row.
  destruct (Nat.eqb_spec (length row) k) as [Hk|]; [|discriminate].
  destruct (Nat.leb_spec (k * j + k) (length l)) as [Hle|]; [|discriminate].
  simpl. intros H. injection H as <-.
  rewrite !length_app, length_firstn, length_skipn. lia.
Qed.

Lemma np_set_row_same {A : Type} (k j : nat) (row l l' : list A) :
  np_set_row k j row l = Ok l' -> np_row k j l' = row.
Proof.
  unfold np_set_row, np_row.
  destruct (Nat.eqb_spec (length row) k) as [Hk|]; [|discriminate].
  destruct (Nat.leb_spec (k * j + k) (length l)) as [Hle|]; [|discriminate].
  simpl. intros H. injection H as <-.
  assert (Hlen : length (firstn (k * j) l) = (k * j)%nat)
    by (rewrite length_firstn; lia).
  rewrite <- Hlen at 1. rewrite skipn_length_app.
  rewrite <- Hk. apply firstn_length_app.
Qed.

Lemma np_set_row_before {A : Type} (k j i : nat) (row l l' : list A) :
  (i < j)%nat ->
  np_set_row k j row l = Ok l' -> np_row k i l' = np_row k i l.
Proof.
  intros Hij. unfold np_set_row, np_row.
  destruct (Nat.eqb_spec (length row) k) as [Hk|]; [|discriminate].
  destruct (Nat.leb_spec (k * j + k) (length l)) as [Hle|]; [|discriminate].
  simpl. intros H. injection H as <-.
  assert (Hik : (k * i + k <= k * j)%nat) by nia.
  rewrite skipn_app, firstn_app.
  rewrite length_skipn, length_firstn.
  replace (k - (Nat.min (k * j) (length l) - k * i))%nat with 0%nat by lia.
  rewrite firstn_O, app_nil_r.
  rewrite skipn_firstn_comm, firstn_firstn.
  f_equal. lia.
Qed.

Lemma np_linalg_norm_unit (a b c : R) :
  (a * a + b * b + c * c = 1)%R -> np_linalg_norm [a; b; c] = 1%R.
Proof.
  intros H. unfold np_linalg_norm, np_sum. simpl.
  replace (0 + a * a + b * b + c * c)%R with 1%R by lra.
  apply sqrt_1.
Qed.

(** On a supported name the converter yields the rotation quaternion
    about that name's unit vector. *)
Lemma angle_axis_to_quaternion_named (name : string) (theta : R) :
  name = "x"%string \/ name = "y"%string \/ name = "z"%string ->
  angle_axis_to_quaternion (AxisName name) theta
  = Ok (rotation_quaternion (named_axis name) theta).
Proof.
  intros [->|[->| ->]]; unfold angle_axis_to_quaternion; simpl;
    rewrite np_linalg_norm_unit by lra;
    apply f_equal;
    repeat (apply (f_equal2 (@cons R)); [try reflexivity; f_equal; lra|]);
    reflexivity.
Qed.

Lemma points_on_1sphere_loop_spec (name : string) (inc_ang : R) (n m : nat) :
  name = "x"%string \/ name = "y"%string \/ name = "z"%string ->
  forall (k : nat) (points : list R) (my_ang : R),
  (k + m <= n)%nat ->
  length points = (n * 4)%nat ->
  exists points',
    points_on_1sphere_loop name inc_ang (seq k m) points my_ang = Ok points' /\
    length points' = (n * 4)%nat /\
    (forall i, (i < k)%nat -> np_row 4 i points' = np_row 4 i points) /\
    (forall i, (k <= i < k + m)%nat ->
       np_row 4 i points'
       = rotation_quaternion (named_axis name)
           ((my_ang + INR (i - k) * inc_ang) * PI / 180)).
Proof.
  intros Hname. induction m as [|m IH]; intros k points my_ang Hk Hlen.
  - exists points. simpl. repeat split; auto. intros i Hi. lia.
  - simpl. rewrite (angle_axis_to_quaternion_named name _ Hname).
    cbn [bind].
    destruct (np_set_row 4 k
                (rotation_quaternion (named_axis name) (my_ang * PI / 180))
                points) as [points1|e] eqn:Eset.
    2:{ exfalso. unfold np_set_row in Eset.
        replace (length (rotation_quaternion (named_axis name)
                           (my_ang * PI / 180))) with 4%nat in Eset
          by (destruct (named_axis name) as [[x y] z]; reflexivity).
        simpl negb in Eset. cbv iota in Eset.
        destruct (Nat.leb_spec (4 * k + 4) (length points));
          [discriminate | lia]. }
    cbn [bind].
    pose proof (np_set_row_length _ _ _ _ _ Eset) as Hlen1.
    destruct (IH (S k) points1 (my_ang + inc_ang)%R) as
      (points' & Hrun & Hlen' & Hbefore & Hset); [lia | lia |].
    exists points'. split; [exact Hrun|]. split; [exact Hlen'|]. split.
    + intros i Hi. rewrite Hbefore by lia.
      apply (np_set_row_before _ _ _ _ _ _ Hi Eset).
    + intros i Hi. destruct (Nat.eq_dec i k) as [->|Hne].
      * rewrite Hbefore by lia. rewrite (np_set_row_same _ _ _ _ _ Eset).
        rewrite Nat.sub_diag. simpl INR. f_equal. lra.
      * rewrite Hset by lia. f_equal.
        replace (i - k)%nat with (S (i - S k)) by lia.
        rewrite S_INR. lra.
Qed.

Lemma points_on_1sphere_dispatch (num_pts : nat) (rotation_axis called : string) :
  (1 <= num_pts)%nat ->
  (rotation_axis = "y"%string /\ called = "y"%string) \/
  (rotation_axis = "z"%string /\ called = "x"%string) ->
  exists points,
    points_on_1sphere num_pts rotation_axis = Ok points /\
    evenly_spaced_about num_pts (named_axis called) points.
Proof.
  intros Hn Hcase. unfold points_on_1sphere.
  destruct (Nat.eqb_spec num_pts 0) as [|_]; [lia|].
  assert (Hname : called = "x"%string \/ called = "y"%string \/
                  called = "z"%string) by (destruct Hcase as [[_ ->]|[_ ->]]; auto).
  destruct (points_on_1sphere_loop_spec called (360 / INR num_pts) num_pts
              num_pts Hname 0 (repeat 0%R (num_pts * 4)) 0%R)
    as (points' & Hrun & Hlen & _ & Hrows);
    [lia | apply repeat_length |].
  exists (mk_ndarray [num_pts; 4%nat] points'). split.
  - destruct Hcase as [[-> ->]|[-> ->]]; simpl String.eqb; cbv iota;
      rewrite Hrun; reflexivity.
  - split; [reflexivity|]. intros i Hi. simpl data.
    rewrite Hrows by lia. rewrite Nat.sub_0_r. f_equal. lra.
Qed.

(** With axis 'y' the circle is walked about the y axis. *)
Lemma points_on_1sphere_y (num_pts : nat) :
  (1 <= num_pts)%nat ->
  exists points,
    points_on_1sphere num_pts "y" = Ok points /\
    evenly_spaced_about num_pts (0, 1, 0)%R points.
Proof.
  intros Hn. apply (points_on_1sphere_dispatch num_pts "y" "y" Hn). auto.
Qed.

(** With axis 'z' the circle is walked about the x axis. *)
Lemma points_on_1sphere_z (num_pts : nat) :
  (1 <= num_pts)%nat ->
  exists points,
    points_on_1sphere num_pts "z" = Ok points /\
    evenly_spaced_about num_pts (1, 0, 0)%R points.
Proof.
  intros Hn. apply (points_on_1sphere_dispatch num_pts "z" "x" Hn). auto.
Qed.

(** Any other axis leaves the zero-initialised array untouched. *)
Lemma points_on_1sphere_unsupported (num_pts : nat) (rotation_axis : string) :
  (1 <= num_pts)%nat ->
  rotation_axis <> "y"%string ->
  rotation_axis <> "z"%string ->
  points_on_1sphere num_pts rotation_axis
  = Ok (mk_ndarray [num_pts; 4%nat] (repeat 0%R (num_pts * 4))).
Proof.
  intros Hn Hy Hz. unfold points_on_1sphere.
  destruct (Nat.eqb_spec num_pts 0) as [|_]; [lia|].
  destruct (String.eqb_spec rotation_axis "y"); [contradiction|].
  destruct (String.eqb_spec rotation_axis "z"); [contradiction|].
  reflexivity.
Qed.

(** C6 (fails on the code). [points_on_1sphere(2, 'z')] returns the
    half turn about x, [0, 1, 0, 0], in its second row, where the half
    turn about the requested z axis is [0, 0, 0, 1]: the rows are not
    rotations about the axis that was asked for. *)
Theorem points_on_1sphere_z_rotates_about_x :
  exists points,
    points_on_1sphere 2 "z" = Ok points /\
    np_row 4 1 (data points) = [0; 1; 0; 0]%R /\
    rotation_quaternion (named_axis "z") (INR 1 * (360 / INR 2) * PI / 180)
      = [0; 0; 0; 1]%R /\
    ~ evenly_spaced_about 2 (named_axis "z") points.
Proof.
  destruct (points_on_1sphere_z 2) as (points & Hrun & Hshape & Hrows);
    [lia|].
  assert (Hhalf : (INR 1 * (360 / INR 2) * PI / 180 / 2 = PI / 2)%R)
    by (simpl; lra).
  assert (Hx : np_row 4 1 (data points) = [0; 1; 0; 0]%R).
  { rewrite (Hrows 1%nat) by lia. unfold rotation_quaternion.
    rewrite Hhalf, cos_PI2, sin_PI2.
    repeat (apply (f_equal2 (@cons R)); [lra|]). reflexivity. }
  assert (Hz : rotation_quaternion (named_axis "z")
                 (INR 1 * (360 / INR 2) * PI / 180) = [0; 0; 0; 1]%R).
  { unfold rotation_quaternion, named_axis. simpl String.eqb. cbv iota.
    rewrite Hhalf, cos_PI2, sin_PI2.
    repeat (apply (f_equal2 (@cons R)); [lra|]). reflexivity. }
  exists points. repeat split; try assumption.
  intros [_ Hspaced]. specialize (Hspaced 1%nat ltac:(lia)).
  rewrite Hx, Hz in Hspaced.
  injection Hspaced as H10 H01. lra.
Qed.

(** ** Polarization correction *)

Lemma nth_np_rows {A : Type} (k n i : nat) (l : list A) (d : list A) :
  (i < n)%nat -> nth i (np_rows k n l) d = np_row k i l.
Proof.
  revert i l. induction n as [|n IH]; intros i l Hi; [lia|].
  simpl. destruct i as [|i].
  - unfold np_row. now rewrite Nat.mul_0_r.
  - rewrite IH by lia. unfold np_row.
    replace (k * S i)%nat with (k + k * i)%nat by lia.
    now rewrite skipn_add.
Qed.

Lemma nth_add_skipn {A : Type} (a k : nat) (l : list A) (d : A) :
  nth (a + k) l d = nth k (skipn a l) d.
Proof.
  revert l. induction a as [|a IH]; intros l; simpl; [reflexivity|].
  destruct l as [|x l]; [now destruct k | apply IH].
Qed.

Lemma np_row3_at2 {A : Type} (d : A) (l : list A) (i : nat) :
  (3 * i + 3 <= length l)%nat ->
  np_row 3 i l = [at2 d 3 l i 0; at2 d 3 l i 1; at2 d 3 l i 2].
Proof.
  intros Hlen. unfold np_row, at2. rewrite !nth_add_skipn.
  pose proof (length_skipn (3 * i) l) as Hs.
  destruct (skipn (3 * i) l) as [|x [|y [|z rest]]]; simpl in *; try lia.
  reflexivity.
Qed.

Lemma dot3_self_nonneg (a : vec3) : (0 <= dot3 a a)%R.
Proof. destruct a as [[a0 a1] a2]. simpl. nra. Qed.

Lemma norm3_sqr (a : vec3) : (norm3 a * norm3 a = dot3 a a)%R.
Proof. unfold norm3. apply sqrt_sqrt, dot3_self_nonneg. Qed.

Lemma norm3_nonzero (a : vec3) : a <> (0, 0, 0)%R -> norm3 a <> 0%R.
Proof.
  intros Ha Hn. pose proof (norm3_sqr a) as Hs. rewrite Hn in Hs.
  destruct a as [[a0 a1] a2]. simpl in Hs.
  apply Ha. assert (a0 = 0 /\ a1 = 0 /\ a2 = 0)%R as (-> & -> & ->) by nra.
  reflexivity.
Qed.

(** Lagrange's identity for unit directions. *)
Lemma cross_unit_sqr (a b : vec3) :
  norm3 a <> 0%R -> norm3 b <> 0%R ->
  (dot3 (cross3 (unit3 a) (unit3 b)) (cross3 (unit3 a) (unit3 b))
   = 1 - cos_angle a b * cos_angle a b)%R.
Proof.
  intros Ha Hb. unfold cos_angle.
  pose proof (norm3_sqr a) as Hna. pose proof (norm3_sqr b) as Hnb.
  destruct a as [[a0 a1] a2], b as [[b0 b1] b2].
  unfold unit3. set (n := norm3 (a0, a1, a2)) in *.
  set (m := norm3 (b0, b1, b2)) in *. simpl in *.
  replace 1%R with ((n * n) * (m * m) / ((n * n) * (m * m)))%R
    by (field; split; assumption).
  rewrite Hna at 1. rewrite Hnb at 1. field. split; assumption.
Qed.

Lemma sum_square3 (x y z : R) :
  sum_square [x; y; z] = dot3 (x, y, z) (x, y, z).
Proof. unfold sum_square, np_sum. simpl. ring. Qed.

(** What the source computes on one row and the polarization vector. *)
Lemma polarization_row (a p : vec3) :
  let '(a0, a1, a2) := a in
  let '(p0, p1, p2) := p in
  sum_square
    (np_cross (map (fun x => x / sqrt (sum_square [a0; a1; a2]))%R [a0; a1; a2])
       (map (fun x => x / sqrt (sum_square [p0; p1; p2]))%R [p0; p1; p2]))
  = dot3 (cross3 (unit3 a) (unit3 p)) (cross3 (unit3 a) (unit3 p)).
Proof.
  destruct a as [[a0 a1] a2], p as [[p0 p1] p2].
  rewrite !sum_square3. unfold np_cross. cbn [map nth].
  rewrite sum_square3. reflexivity.
Qed.

(** C9. For a stack of pixels with nonzero norms and a nonzero
    polarization vector, [get_polarization_correction] returns an array
    shaped like the stack without its coordinate axis whose entry for each
    pixel is the squared magnitude of the cross product of the pixel's unit
    direction and the unit polarization, that is one minus the squared
    cosine of the angle between them. *)
Theorem polarization_correction_cross_square
  (s : list nat) (pixel_center : ndarray R) (p0 p1 p2 : R) :
  s <> [] ->
  shape pixel_center = s ++ [3%nat] ->
  well_formed pixel_center ->
  (forall i, (i < np_prod s)%nat ->
     norm3 (pixel3 (data pixel_center) i) <> 0%R) ->
  (p0, p1, p2) <> (0, 0, 0)%R ->
  exists correction,
    get_polarization_correction pixel_center [p0; p1; p2] = Ok correction /\
    shape correction = s /\
    length (data correction) = np_prod s /\
    forall i, (i < np_prod s)%nat ->
      let a := pixel3 (data pixel_center) i in
      let c := cross3 (unit3 a) (unit3 (p0, p1, p2)) in
      nth i (data correction) 0%R = dot3 c c /\
      nth i (data correction) 0%R
      = (1 - cos_angle a (p0, p1, p2) * cos_angle a (p0, p1, p2))%R.
Proof.
  intros Hs Hshape Hwf Hpix Hpol.
  assert (Hlen : length (data pixel_center) = (np_prod s * 3)%nat).
  { unfold well_formed in Hwf. rewrite Hwf, Hshape, np_prod_app. simpl. lia. }
  unfold get_polarization_correction, reshape_pixels_position_arrays_to_1d,
    np_reshape.
  rewrite Hshape, removelast_snoc, (np_prod_dim_nonempty s Hs). cbn [bind].
  replace (np_prod [np_prod s; 3%nat]) with (np_prod s * 3)%nat
    by (simpl; lia).
  rewrite Hlen, Nat.eqb_refl. cbn [bind data length Nat.eqb orb].
  rewrite np_map2_map_r, map_map, length_map, np_rows_length, Nat.eqb_refl.
  eexists. split; [reflexivity|]. cbn [shape data].
  split; [reflexivity|].
  split; [now rewrite length_map, np_rows_length|].
  intros i Hi.
  set (a := pixel3 (data pixel_center) i).
  set (c := cross3 (unit3 a) (unit3 (p0, p1, p2))).
  set (F := fun r : list R =>
              sum_square
                (np_cross (map (fun x => x / sqrt (sum_square r))%R r)
                   (map (fun x => x / sqrt (sum_square [p0; p1; p2]))%R
                      [p0; p1; p2]))).
  assert (Hentry : nth i
            (map F (np_rows 3 (np_prod s) (data pixel_center))) 0%R
          = dot3 c c).
  { rewrite (nth_indep _ 0%R (F []))
      by (rewrite length_map, np_rows_length; exact Hi).
    rewrite map_nth, nth_np_rows by exact Hi.
    rewrite (np_row3_at2 0%R) by lia.
    exact (polarization_row a (p0, p1, p2)). }
  split; [exact Hentry|].
  rewrite Hentry. apply cross_unit_sqr.
  - apply Hpix, Hi.
  - apply norm3_nonzero, Hpol.
Qed.

(** Witness of C9: one pixel at (0, 3, 4), polarization along x. *)
Lemma polarization_correction_cross_square_witness :
  exists correction,
    get_polarization_correction (mk_ndarray [1; 3]%nat [0; 3; 4]%R)
      [1; 0; 0]%R = Ok correction /\
    shape correction = [1%nat] /\
    length (data correction) = 1%nat /\
    forall i, (i < 1)%nat ->
      let a := pixel3 [0; 3; 4]%R i in
      let c := cross3 (unit3 a) (unit3 (1, 0, 0)%R) in
      nth i (data correction) 0%R = dot3 c c /\
      nth i (data correction) 0%R
      = (1 - cos_angle a (1, 0, 0) * cos_angle a (1, 0, 0))%R.
Proof.
  apply (polarization_correction_cross_square [1%nat]
           (mk_ndarray [1; 3]%nat [0; 3; 4]%R) 1 0 0 ltac:(discriminate)
           eq_refl eq_refl).
  - intros i Hi. apply norm3_nonzero.
    assert (i = 0%nat) as -> by (simpl in Hi; lia).
    unfold pixel3, at2. simpl. intros H. injection H as H3 H4. lra.
  - intros H. injection H as H1. lra.
Defined.

(** ** Panel assembly *)

Lemma fold_left_max_spec (l : list Z) (x : Z) :
  (fold_left Z.max l x = x \/ In (fold_left Z.max l x) l) /\
  (x <= fold_left Z.max l x)%Z.
Proof.
  revert x. induction l as [|y l IH]; intros x; simpl.
  - split; [now left | lia].
  - destruct (IH (Z.max x y)) as [[Heq|Hin] Hle].
    + split; [|lia]. rewrite Heq.
      destruct (Z.max_spec x y) as [[_ ->]|[_ ->]]; auto.
    + split; [right; right; exact Hin | lia].
Qed.

(** The maximum is one of the entries. *)
Lemma np_max_attained (l : list Z) (m : Z) :
  np_max l = Ok m -> In m l.
Proof.
  destruct l as [|x rest]; simpl; [discriminate|].
  intros H. injection H as <-.
  destruct (fold_left_max_spec rest x) as [[->|Hin] _]; auto.
Qed.

(** An entry at its own value is out of bounds for an axis of that
    length. *)
Lemma own_length_out_of_bounds (m : Z) :
  (0 <= m)%Z -> index_in_bounds (Z.to_nat m) m = false.
Proof.
  intros Hm. unfold index_in_bounds. rewrite Z2Nat.id by exact Hm.
  rewrite Z.ltb_irrefl. apply andb_false_r.
Qed.

Lemma forallb_false_of_In {A : Type} (f : A -> bool) (l : list A) (x : A) :
  In x l -> f x = false -> forallb f l = false.
Proof.
  intros Hin Hf. destruct (forallb f l) eqn:E; [|reflexivity].
  rewrite forallb_forall in E. rewrite (E x Hin) in Hf. discriminate.
Qed.

Lemma nth_np_row {A : Type} (k l e : nat) (data : list A) (d : A) :
  (e < k)%nat ->
  nth e (np_row k l data) d = nth (k * l + e) data d.
Proof.
  intros He. unfold np_row.
  rewrite nth_add_skipn.
  generalize (skipn (k * l) data). clear data. revert k He.
  induction e as [|e IH]; intros k He rest.
  - destruct k; [lia|]. destruct rest; reflexivity.
  - destruct k; [lia|]. destruct rest; [reflexivity|].
    simpl. apply IH. lia.
Qed.

Lemma In_np_row {A : Type} (k l e : nat) (data : list A) (d : A) :
  (e < k)%nat -> (k * l + e < length data)%nat ->
  In (nth (k * l + e) data d) (np_row k l data).
Proof.
  intros He Hlen. rewrite <- (nth_np_row k l e data d He).
  apply nth_In. unfold np_row.
  rewrite length_firstn, length_skipn. lia.
Qed.

(** Writing through an out-of-bounds row index raises. *)
Lemma setitem_rows_out_of_bounds (image : ndarray R) (index : ndarray Z)
  (values : ndarray R) (nrow ncol : nat) (i : Z) :
  shape image = [nrow; ncol] ->
  In i (data index) -> index_in_bounds nrow i = false ->
  raises (setitem_rows image index values).
Proof.
  intros Hshape Hin Hout. unfold setitem_rows. rewrite Hshape.
  destruct (broadcastable (shape values) (shape index ++ [ncol]));
    simpl; [|eexists; reflexivity].
  rewrite (forallb_false_of_In _ _ i Hin Hout). simpl.
  eexists; reflexivity.
Qed.

Lemma setitem_rows_shape (image image' : ndarray R) (index : ndarray Z)
  (values : ndarray R) :
  setitem_rows image index values = Ok image' -> shape image' = shape image.
Proof.
  unfold setitem_rows.
  destruct (shape image) as [|nrow [|ncol [|? ?]]]; try discriminate.
  destruct (negb _); [discriminate|].
  destruct (negb _); [discriminate|].
  intros H. injection H as <-. reflexivity.
Qed.

Lemma bind_raises {A B : Type} (m : result A) (k : A -> result B) :
  (forall a, m = Ok a -> raises (k a)) -> raises (bind m k).
Proof.
  intros H. destruct m as [a|e]; simpl.
  - apply H. reflexivity.
  - eexists; reflexivity.
Qed.

Lemma raises_bind_l {A B : Type} (m : result A) (k : A -> result B) :
  raises m -> raises (bind m k).
Proof. intros [e ->]. exists e. reflexivity. Qed.

(** If some panel of the range holds a row index the image cannot take,
    the loop of [assemble_image_stack] raises. *)
Lemma assemble_image_stack_loop_raises (image_stack : ndarray R)
  (index_map : ndarray Z) (nrow ncol bad : nat) (range : list nat) :
  forall image,
  In bad range ->
  shape image = [nrow; ncol] ->
  (forall index, np_sub0 4 index_map bad = Ok index ->
     exists i, In i (data index) /\ index_in_bounds nrow i = false) ->
  raises (assemble_image_stack_loop image_stack index_map range image).
Proof.
  induction range as [|l range IH]; intros image Hin Hshape Hbad;
    [contradiction|].
  simpl. apply bind_raises. intros values _.
  apply bind_raises. intros index Hidx.
  destruct (Nat.eq_dec l bad) as [->|Hne].
  - apply raises_bind_l.
    destruct (Hbad index Hidx) as (i & Hi & Hout).
    exact (setitem_rows_out_of_bounds image index values nrow ncol i
             Hshape Hi Hout).
  - apply bind_raises. intros image' Hset. apply IH.
    + destruct Hin as [Heq|Hin]; [contradiction | exact Hin].
    + rewrite (setitem_rows_shape _ _ _ _ Hset). exact Hshape.
    + exact Hbad.
Qed.

(** A coordinate plane of a four-axis index map, spelled out. *)
Lemma index_map_coordinate_eq (index_map : ndarray Z) (P X Y k : nat) :
  shape index_map = [P; X; Y; 2]%nat ->
  (k < 2)%nat ->
  index_map_coordinate index_map k
  = Ok (mk_ndarray [P; X; Y]
          (map (fun t => nth (2 * t + k) (data index_map) 0%Z)
             (seq 0 (P * X * Y)))).
Proof.
  intros Hshape Hk. unfold index_map_coordinate, np_last_axis.
  rewrite Hshape. cbn [rev app removelast].
  destruct (Nat.ltb_spec k 2) as [_|]; [|lia].
  replace (np_prod [P; X; Y]) with (P * X * Y)%nat by (simpl; lia).
  reflexivity.
Qed.

(** The maximal x coordinate sits in one of the panels. *)
Lemma max_coordinate_in_panel (index_map : ndarray Z) (P X Y : nat) (m : Z) :
  shape index_map = [P; X; Y; 2]%nat ->
  well_formed index_map ->
  In m (map (fun t => nth (2 * t + 0) (data index_map) 0%Z)
          (seq 0 (P * X * Y))) ->
  exists bad e,
    (bad < P)%nat /\ (e < X * Y)%nat /\
    m = nth (2 * e + 0) (np_row (X * Y * 2) bad (data index_map)) 0%Z /\
    In m (np_row (X * Y * 2) bad (data index_map)).
Proof.
  intros Hshape Hwf Hin.
  apply in_map_iff in Hin. destruct Hin as (t & Hm & Ht).
  apply in_seq in Ht.
  assert (Hlen : length (data index_map) = (P * X * Y * 2)%nat).
  { unfold well_formed in Hwf. rewrite Hwf, Hshape. simpl. lia. }
  assert (Hxy : (X * Y <> 0)%nat) by nia.
  pose proof (Nat.div_mod_eq t (X * Y)) as Hdm.
  pose proof (Nat.mod_upper_bound t (X * Y) Hxy) as Hmod.
  assert (Hbad : (t / (X * Y) < P)%nat).
  { apply Nat.Div0.div_lt_upper_bound. nia. }
  assert (Hpos : (X * Y * 2 * (t / (X * Y)) + (2 * (t mod (X * Y)) + 0)
                  = 2 * t + 0)%nat) by nia.
  exists (t / (X * Y))%nat, (t mod (X * Y))%nat.
  split; [exact Hbad|]. split; [exact Hmod|]. split.
  - rewrite nth_np_row by lia. rewrite Hpos. symmetry. exact Hm.
  - rewrite <- Hm, <- Hpos. apply In_np_row; [lia|]. rewrite Hlen. nia.
Qed.

Lemma np_zeros_shape (dims : list Z) (image : ndarray R) :
  np_zeros dims = Ok image ->
  shape image = map Z.to_nat dims /\ Forall (fun d => 0 <= d)%Z dims.
Proof.
  unfold np_zeros. destruct (forallb _ dims) eqn:E; [|discriminate].
  intros H. injection H as <-. split; [reflexivity|].
  apply Forall_forall. intros d Hd.
  rewrite forallb_forall in E. apply Z.leb_le, E, Hd.
Qed.

(** [assemble_image_stack] raises on every four-axis index map: the
    holder has as many rows as the largest x coordinate, so the pixel that
    carries that coordinate cannot be written. *)
Lemma assemble_image_stack_raises (image_stack : ndarray R)
  (index_map : ndarray Z) (P X Y : nat) :
  shape index_map = [P; X; Y; 2]%nat ->
  well_formed index_map ->
  raises (assemble_image_stack image_stack index_map).
Proof.
  intros Hshape Hwf. unfold assemble_image_stack.
  rewrite !(index_map_coordinate_eq index_map P X Y) by (assumption || lia).
  cbn [bind data].
  apply bind_raises. intros mx Hmx.
  apply bind_raises. intros my _.
  apply bind_raises. intros image Himage.
  apply np_zeros_shape in Himage. destruct Himage as [Hish Hdims].
  inversion Hdims as [|? ? Hmx0 _]; subst.
  apply np_max_attained in Hmx.
  destruct (max_coordinate_in_panel index_map P X Y mx Hshape Hwf Hmx)
    as (bad & e & Hbad & _ & _ & Hin).
  rewrite Hshape. cbn [hd].
  apply (assemble_image_stack_loop_raises image_stack index_map
           (Z.to_nat mx) (Z.to_nat my) bad).
  - apply in_seq. lia.
  - exact Hish.
  - intros index Hidx. unfold np_sub0 in Hidx. rewrite Hshape in Hidx.
    cbn [length Nat.leb andb] in Hidx.
    destruct (Nat.ltb_spec bad P) as [_|]; [|lia].
    injection Hidx as <-. cbn [data].
    match goal with
    | |- context [np_row ?k bad _] =>
        replace k with (X * Y * 2)%nat by (simpl; lia)
    end.
    exists mx. split; [exact Hin|]. apply own_length_out_of_bounds, Hmx0.
Qed.

Lemma setitem_pixels_out_of_bounds (image : ndarray R) (ishape : list nat)
  (index0 index1 : list Z) (values : ndarray R) (nstack nrow ncol : nat)
  (i : Z) :
  shape image = [nstack; nrow; ncol] ->
  In i index0 -> index_in_bounds nrow i = false ->
  raises (setitem_pixels image ishape index0 index1 values).
Proof.
  intros Hshape Hin Hout. unfold setitem_pixels. rewrite Hshape.
  destruct (broadcastable (shape values) (nstack :: ishape));
    simpl; [|eexists; reflexivity].
  rewrite (forallb_false_of_In _ _ i Hin Hout). simpl.
  eexists; reflexivity.
Qed.

Lemma setitem_pixels_shape (image image' : ndarray R) (ishape : list nat)
  (index0 index1 : list Z) (values : ndarray R) :
  setitem_pixels image ishape index0 index1 values = Ok image' ->
  shape image' = shape image.
Proof.
  unfold setitem_pixels.
  destruct (shape image) as [|ns [|nrow [|ncol [|? ?]]]]; try discriminate.
  destruct (negb _); [discriminate|].
  destruct (negb _); [discriminate|].
  intros H. injection H as <-. reflexivity.
Qed.

Lemma assemble_image_stack_batch_loop_raises (image_stack : ndarray R)
  (index_map : ndarray Z) (nstack nrow ncol bad : nat) (range : list nat) :
  forall image,
  In bad range ->
  shape image = [nstack; nrow; ncol] ->
  (forall panel index0,
     np_sub0 4 index_map bad = Ok panel ->
     np_last_axis 0%Z panel 0 = Ok index0 ->
     exists i, In i (data index0) /\ index_in_bounds nrow i = false) ->
  raises (assemble_image_stack_batch_loop image_stack index_map range image).
Proof.
  induction range as [|l range IH]; intros image Hin Hshape Hbad;
    [contradiction|].
  simpl. apply bind_raises. intros values _.
  apply bind_raises. intros panel Hpanel.
  destruct (shape panel) as [|? [|? [|? [|? ?]]]];
    try (eexists; reflexivity).
  apply bind_raises. intros index0 Hindex0.
  apply bind_raises. intros index1 _.
  destruct (Nat.eq_dec l bad) as [->|Hne].
  - apply raises_bind_l.
    destruct (Hbad panel index0 Hpanel Hindex0) as (i & Hi & Hout).
    exact (setitem_pixels_out_of_bounds image (shape index0) (data index0)
             (data index1) values nstack nrow ncol i Hshape Hi Hout).
  - apply bind_raises. intros image' Hset. apply IH.
    + destruct Hin as [Heq|Hin]; [contradiction | exact Hin].
    + rewrite (setitem_pixels_shape _ _ _ _ _ _ Hset). exact Hshape.
    + exact Hbad.
Qed.

(** [assemble_image_stack_batch] raises whenever the stack has as many
    panels as the index map, for the same reason. *)
Lemma assemble_image_stack_batch_raises (image_stack : ndarray R)
  (index_map : ndarray Z) (S P X Y X' Y' : nat) :
  shape index_map = [P; X; Y; 2]%nat ->
  well_formed index_map ->
  shape image_stack = [S; P; X'; Y'] ->
  raises (assemble_image_stack_batch image_stack index_map).
Proof.
  intros Hshape Hwf Hstack. unfold assemble_image_stack_batch.
  rewrite !(index_map_coordinate_eq index_map P X Y) by (assumption || lia).
  cbn [bind data].
  apply bind_raises. intros mx Hmx.
  apply bind_raises. intros my _.
  rewrite Hstack.
  apply bind_raises. intros image Himage.
  apply np_zeros_shape in Himage. destruct Himage as [Hish Hdims].
  inversion Hdims as [|? ? _ Hdims']; subst.
  inversion Hdims' as [|? ? Hmx0 _]; subst.
  apply np_max_attained in Hmx.
  destruct (max_coordinate_in_panel index_map P X Y mx Hshape Hwf Hmx)
    as (bad & e & Hbad & He & Hnth & _).
  apply (assemble_image_stack_batch_loop_raises image_stack index_map
           (Z.to_nat (Z.of_nat S)) (Z.to_nat mx) (Z.to_nat my) bad).
  - apply in_seq. lia.
  - exact Hish.
  - intros panel index0 Hpanel Hindex0.
    unfold np_sub0 in Hpanel. rewrite Hshape in Hpanel.
    cbn [length Nat.leb andb] in Hpanel.
    destruct (Nat.ltb_spec bad P) as [_|]; [|lia].
    injection Hpanel as <-.
    unfold np_last_axis in Hindex0. cbn [shape data rev app removelast] in Hindex0.
    destruct (Nat.ltb_spec 0 2) as [_|]; [|lia].
    injection Hindex0 as <-. cbn [data].
    exists mx. split; [|apply own_length_out_of_bounds, Hmx0].
    apply in_map_iff. exists e. split.
    + rewrite Hnth. f_equal. f_equal. simpl. lia.
    + apply in_seq. simpl. lia.
Qed.

Lemma identity_index_map_well_formed (nx ny : nat) :
  well_formed (identity_index_map nx ny).
Proof.
  unfold well_formed, identity_index_map. cbn [shape data].
  rewrite (length_flat_map_const (ny * 2)), length_seq.
  - simpl. lia.
  - intros i. rewrite (length_flat_map_const 2), length_seq; [reflexivity|].
    intros j. reflexivity.
Qed.

(** The 2x2 panel [[1, 2], [3, 4]] under the identity map: the holder is
    [np.zeros((1, 1))] and the assignment is refused. *)
Example assemble_image_stack_identity_2x2 :
  assemble_image_stack (mk_ndarray [1; 2; 2]%nat [1; 2; 3; 4]%R)
    (identity_index_map 2 2) = Raise ValueError.
Proof. vm_compute. reflexivity. Qed.

(** Even on a holder that is large enough, indexing rows with the whole
    2x2x2 identity map does not reproduce the panel. *)
Example setitem_rows_identity_2x2 :
  setitem_rows (mk_ndarray [2; 2]%nat [0; 0; 0; 0]%R)
    (mk_ndarray [2; 2; 2]%nat [0; 0; 0; 1; 1; 0; 1; 1]%Z)
    (mk_ndarray [2; 2]%nat [1; 2; 3; 4]%R)
  = Ok (mk_ndarray [2; 2]%nat [3; 4; 3; 4]%R).
Proof. vm_compute. reflexivity. Qed.

(** The pixel-wise scatter of the batch version does reproduce it on
    such a holder. *)
Example setitem_pixels_identity_2x2 :
  setitem_pixels (mk_ndarray [1; 2; 2]%nat [0; 0; 0; 0]%R) [2; 2]%nat
    [0; 0; 1; 1]%Z [0; 1; 0; 1]%Z
    (mk_ndarray [1; 2; 2]%nat [1; 2; 3; 4]%R)
  = Ok (mk_ndarray [1; 2; 2]%nat [1; 2; 3; 4]%R).
Proof. vm_compute. reflexivity. Qed.

(** C4 (fails on the code). For every single panel, of any size and
    content, [assemble_image_stack] under the identity index map raises
    instead of returning the panel. *)
Theorem assemble_image_stack_identity_raises (nx ny : nat) (panel : list R) :
  raises (assemble_image_stack (mk_ndarray [1; nx; ny] panel)
            (identity_index_map nx ny)).
Proof.
  apply (assemble_image_stack_raises _ _ 1 nx ny).
  - reflexivity.
  - apply identity_index_map_well_formed.
Qed.

Example assemble_image_stack_batch_identity_2x2 :
  assemble_image_stack_batch (mk_ndarray [1; 1; 2; 2]%nat [1; 2; 3; 4]%R)
    (identity_index_map 2 2) = Raise IndexError.
Proof. vm_compute. reflexivity. Qed.

(** C5 (fails on the code). For every one-entry stack and every index
    map of matching panel count, neither [assemble_image_stack_batch] nor
    [assemble_image_stack] on the single entry returns an image: both
    raise. *)
Theorem assemble_batch_and_single_both_raise
  (P X Y : nat) (stack : list R) (index_map : ndarray Z) :
  shape index_map = [P; X; Y; 2]%nat ->
  well_formed index_map ->
  raises (assemble_image_stack_batch (mk_ndarray [1; P; X; Y] stack)
            index_map) /\
  raises (assemble_image_stack (mk_ndarray [P; X; Y] stack) index_map).
Proof.
  intros Hshape Hwf. split.
  - apply (assemble_image_stack_batch_raises _ _ 1 P X Y X Y);
      [assumption | assumption | reflexivity].
  - apply (assemble_image_stack_raises _ _ P X Y); assumption.
Qed.

(** Witness of C5: the 2x2 panel [[1, 2], [3, 4]] under the identity
    map. *)
Lemma assemble_batch_and_single_both_raise_witness :
  raises (assemble_image_stack_batch
            (mk_ndarray [1; 1; 2; 2]%nat [1; 2; 3; 4]%R)
            (identity_index_map 2 2)) /\
  raises (assemble_image_stack (mk_ndarray [1; 2; 2]%nat [1; 2; 3; 4]%R)
            (identity_index_map 2 2)).
Proof.
  apply (assemble_batch_and_single_both_raise 1 2 2 [1; 2; 3; 4]%R
           (identity_index_map 2 2) eq_refl eq_refl).
Defined.

(** ** Slices for a list of orientations *)

(** C10. Whatever the detector, volume, voxel length and orientations,
    and whatever [length] and [quat2rot3d] might have meant,
    [take_n_random_slices] raises [NameError] on its first statement, as
    [length] is bound neither in the module nor among the built-ins; had
    [length] been bound and returned a positive count, the first pass of
    the loop would raise [NameError] for [quat2rot3d].  No slice is ever
    produced. *)
Theorem take_n_random_slices_name_error
  (length_call : list (list R) -> result nat)
  (quat2rot3d_call : list R -> result (ndarray R))
  (det : detector) (volume : ndarray R) (voxel_length : R)
  (orientations : list (list R)) :
  take_n_random_slices length_call quat2rot3d_call module_names
    det volume voxel_length orientations
    = Raise (NameError "length") /\
  (forall number s0 s1 s2 rest,
     length_call orientations = Ok (S number) ->
     shape (pixel_rms det) = s0 :: s1 :: s2 :: rest ->
     take_n_random_slices length_call quat2rot3d_call
       ("length"%string :: module_names) det volume voxel_length orientations
     = Raise (NameError "quat2rot3d")).
Proof.
  split; [reflexivity|].
  intros number s0 s1 s2 rest Hlen Hshape.
  unfold take_n_random_slices.
  replace (load_global ("length"%string :: module_names) "length")
    with (Ok tt) by reflexivity.
  cbn [bind]. rewrite Hlen, Hshape. cbn [bind seq].
  cbn [take_n_random_slices_loop].
  replace (load_global ("length"%string :: module_names) "quat2rot3d")
    with (@Raise unit (NameError "quat2rot3d")) by reflexivity.
  reflexivity.
Qed.

(** ** Random orientations *)

(** [get_random_quat(n)] returns [n] rows of four numbers, whatever the
    generator draws. *)
Lemma get_random_quat_rows (rand_3 : nat -> list R) (num_pts : nat) :
  exists quat,
    get_random_quat rand_3 num_pts = Ok quat /\
    shape quat = [num_pts; 4%nat] /\
    length (data quat) = (num_pts * 4)%nat.
Proof.
  unfold get_random_quat, np_transpose. cbn [shape].
  eexists. split; [reflexivity|]. split; [reflexivity|].
  cbn [data].
  rewrite (length_flat_map_const 4), length_seq; [reflexivity|].
  intros j. now rewrite length_map, length_seq.
Qed.

(** ** Orientations on the 3-sphere *)

Lemma sweep_w3_length (fuel : nat) :
  forall q0 q1 s delta_w3 w3 points ind points' ind',
  sweep_w3 fuel q0 q1 s delta_w3 w3 points ind = Some (Ok (points', ind')) ->
  length points' = length points.
Proof.
  induction fuel as [|fuel IH]; intros q0 q1 s delta_w3 w3 points ind
    points' ind' H; simpl in H; [discriminate|].
  destruct (Rlt_dec w3 (2 * PI)).
  - destruct (np_set_row 4 ind _ points) as [points1|e] eqn:Eset;
      [|discriminate].
    apply IH in H. rewrite H. exact (np_set_row_length _ _ _ _ _ Eset).
  - injection H as <- _. reflexivity.
Qed.

Lemma sweep_w2_length (fuel : nat) :
  forall w1 q0 delta_w2 w2 points ind points' ind',
  sweep_w2 fuel w1 q0 delta_w2 w2 points ind = Some (Ok (points', ind')) ->
  length points' = length points.
Proof.
  induction fuel as [|fuel IH]; intros w1 q0 delta_w2 w2 points ind
    points' ind' H; [discriminate|].
  cbn [sweep_w2] in H.
  destruct (Rlt_dec w2 PI); [|injection H as <- _; reflexivity].
  destruct (Req_dec_T (sin w2) 0).
  - apply IH in H. exact H.
  - destruct (sweep_w3 _ _ _ _ _ _ points ind) as [[[points1 ind1]|e]|]
      eqn:E3; try discriminate.
    apply IH in H. rewrite H. exact (sweep_w3_length _ _ _ _ _ _ _ _ _ _ E3).
Qed.

Lemma sweep_w1_length (fuel : nat) :
  forall delta_w1 w1 points ind points' ind',
  sweep_w1 fuel delta_w1 w1 points ind = Some (Ok (points', ind')) ->
  length points' = length points.
Proof.
  induction fuel as [|fuel IH]; intros delta_w1 w1 points ind
    points' ind' H; [discriminate|].
  cbn [sweep_w1] in H.
  destruct (Rlt_dec w1 PI); [|injection H as <- _; reflexivity].
  destruct (Req_dec_T (sin w1) 0).
  - apply IH in H. exact H.
  - destruct (sweep_w2 _ _ _ _ _ points ind) as [[[points1 ind1]|e]|]
      eqn:E2; try discriminate.
    apply IH in H. rewrite H. exact (sweep_w2_length _ _ _ _ _ _ _ _ _ E2).
Qed.

Lemma equal_area_passes_length (fuel num_pts remaining : nat) :
  forall delta points ind points',
  equal_area_passes fuel num_pts remaining delta points ind
    = Some (Ok points') ->
  length points' = length points.
Proof.
  induction remaining as [|remaining IH]; intros delta points ind points' H;
    simpl in H.
  - injection H as <-. reflexivity.
  - destruct (Nat.eqb ind num_pts); [injection H as <-; reflexivity|].
    destruct (sweep_w1 _ _ _ points 0) as [[[points1 ind1]|e]|] eqn:E1;
      try discriminate.
    apply IH in H. rewrite H. exact (sweep_w1_length _ _ _ _ _ _ _ E1).
Qed.

(** When [points_on_2sphere] returns, it returns [num_pts] rows of four
    numbers.  That it returns is not shown: a pass that stores more than
    [2 * num_pts] points raises, and a pass that stores none stalls the
    next one. *)
Lemma points_on_2sphere_rows_if_returned (fuel num_pts : nat)
  (points : ndarray R) :
  points_on_2sphere fuel num_pts = Some (Ok points) ->
  shape points = [num_pts; 4%nat] /\
  length (data points) = (num_pts * 4)%nat.
Proof.
  unfold points_on_2sphere.
  destruct (Nat.eqb num_pts 0); [discriminate|].
  destruct (equal_area_passes _ _ _ _ _ _) as [[points'|e]|] eqn:E;
    try discriminate.
  intros H. injection H as <-. cbn [shape data].
  apply equal_area_passes_length in E. rewrite repeat_length in E.
  split.
  - f_equal. lia.
  - rewrite length_firstn. lia.
Qed.

(* ================================================================== *)
(** * Part III: further properties of the module *)
(* ================================================================== *)

(** ** Rotation matrices from quaternions *)

Lemma is_rotation_of_entries (e : list R) :
  length e = 9%nat ->
  (forall i j, (i < 3)%nat -> (j < 3)%nat ->
     gram (mk_ndarray [3; 3]%nat e) i j = if Nat.eqb i j then 1%R else 0%R) ->
  det3 (mk_ndarray [3; 3]%nat e) = 1%R ->
  is_rotation (mk_ndarray [3; 3]%nat e).
Proof. intros Hlen Hgram Hdet. repeat split; assumption. Qed.

Ltac three_by_three :=
  let i := fresh "i" in
  let j := fresh "j" in
  let Hi := fresh "Hi" in
  let Hj := fresh "Hj" in
  intros i j Hi Hj;
  destruct i as [|[|[|i]]]; [| | |lia];
  (destruct j as [|[|[|j]]]; [| | |lia]);
  unfold gram, entry, at2; cbn [data nth Nat.mul Nat.add Nat.eqb].

(** The matrix of a quaternion whose squared norm is [u], written with
    [u] where the source has the literal one: its Gram matrix is [u * u]
    times the identity and its determinant [u * u * u]. *)
Lemma quaternion_matrix_gram (u q0 q1 q2 q3 : R) :
  (u = q0 * q0 + q1 * q1 + q2 * q2 + q3 * q3)%R ->
  let m := mk_ndarray [3; 3]%nat
    [ u - 2 * (q2 * q2 + q3 * q3); 2 * (q1 * q2 - q0 * q3);
      2 * (q1 * q3 + q0 * q2);
      2 * (q1 * q2 + q0 * q3); u - 2 * (q1 * q1 + q3 * q3);
      2 * (q2 * q3 - q0 * q1);
      2 * (q1 * q3 - q0 * q2); 2 * (q2 * q3 + q0 * q1);
      u - 2 * (q1 * q1 + q2 * q2) ]%R in
  (forall i j, (i < 3)%nat -> (j < 3)%nat ->
     gram m i j = if Nat.eqb i j then (u * u)%R else 0%R) /\
  det3 m = (u * u * u)%R.
Proof.
  intros Hu m. split.
  - subst m. three_by_three; subst u; ring.
  - subst m. unfold det3, entry, at2. cbn [data nth Nat.mul Nat.add].
    subst u. ring.
Qed.

Lemma quaternion2rot3d_rotation_aux (q0 q1 q2 q3 : R) :
  (q0 * q0 + q1 * q1 + q2 * q2 + q3 * q3 = 1)%R ->
  exists m, quaternion2rot3d [q0; q1; q2; q3] = Ok m /\ is_rotation m.
Proof.
  intros Hunit. unfold quaternion2rot3d. eexists. split; [reflexivity|].
  destruct (quaternion_matrix_gram 1 q0 q1 q2 q3 (eq_sym Hunit))
    as [Hgram Hdet].
  apply is_rotation_of_entries; [reflexivity | |].
  - intros i j Hi Hj. rewrite (Hgram i j Hi Hj).
    destruct (Nat.eqb i j); [ring | reflexivity].
  - rewrite Hdet. ring.
Qed.

(** X1. For every unit quaternion [quaternion2rot3d] returns a rotation
    matrix: 3x3, with orthonormal columns and determinant one. *)
Theorem quaternion2rot3d_is_rotation (q0 q1 q2 q3 : R) :
  (q0 * q0 + q1 * q1 + q2 * q2 + q3 * q3 = 1)%R ->
  exists m, quaternion2rot3d [q0; q1; q2; q3] = Ok m /\ is_rotation m.
Proof.
  intros Hunit. unfold quaternion2rot3d. eexists. split; [reflexivity|].
  destruct (quaternion_matrix_gram 1 q0 q1 q2 q3 (eq_sym Hunit))
    as [Hgram Hdet].
  apply is_rotation_of_entries; [reflexivity | |].
  - intros i j Hi Hj. rewrite (Hgram i j Hi Hj).
    destruct (Nat.eqb i j); [ring | reflexivity].
  - rewrite Hdet. ring.
Qed.

Lemma quaternion2rot3d_is_rotation_witness :
  exists m,
    quaternion2rot3d [1 / 2; 1 / 2; 1 / 2; 1 / 2]%R = Ok m /\ is_rotation m.
Proof.
  apply (quaternion2rot3d_is_rotation (1 / 2) (1 / 2) (1 / 2) (1 / 2)). lra.
Defined.

(** ** Angle and axis *)

Lemma norm3_facts (a b c : R) :
  (a <> 0 \/ b <> 0 \/ c <> 0)%R ->
  (0 < np_linalg_norm [a; b; c])%R /\
  (np_linalg_norm [a; b; c] * np_linalg_norm [a; b; c]
   = a * a + b * b + c * c)%R.
Proof.
  intros Hnz. unfold np_linalg_norm, np_sum. cbn [map fold_left].
  assert (Hpos : (0 < 0 + a * a + b * b + c * c)%R).
  { destruct Hnz as [H|[H|H]]; nra. }
  split.
  - apply sqrt_lt_R0. exact Hpos.
  - rewrite sqrt_sqrt by lra. ring.
Qed.

Lemma unit_components (a b c n : R) :
  (0 < n)%R -> (n * n = a * a + b * b + c * c)%R ->
  (a / n * (a / n) + b / n * (b / n) + c / n * (c / n) = 1)%R.
Proof.
  intros Hn Hsq.
  replace (a / n * (a / n) + b / n * (b / n) + c / n * (c / n))%R
    with ((a * a + b * b + c * c) / (n * n))%R by (field; lra).
  rewrite <- Hsq. field. lra.
Qed.

Lemma half_angle (theta : R) :
  (cos theta = 1 - 2 * sin (theta / 2) * sin (theta / 2))%R /\
  (sin theta = 2 * sin (theta / 2) * cos (theta / 2))%R.
Proof.
  assert (Hdouble : (2 * (theta / 2) = theta)%R) by field.
  pose proof (cos_2a_sin (theta / 2)) as Hcos.
  pose proof (sin_2a (theta / 2)) as Hsin.
  rewrite Hdouble in Hcos, Hsin. split; assumption.
Qed.

Lemma angle_axis_matrix_as_quaternion (a b c theta : R) :
  (a * a + b * b + c * c = 1)%R ->
  quaternion2rot3d
    [ cos (theta / 2); sin (theta / 2) * a; sin (theta / 2) * b;
      sin (theta / 2) * c ]%R
  = Ok (mk_ndarray [3; 3]%nat
        [ a * (a * (1 - cos theta)) + cos theta;
          a * (b * (1 - cos theta)) - c * sin theta;
          a * (c * (1 - cos theta)) + b * sin theta;
          b * (a * (1 - cos theta)) + c * sin theta;
          b * (b * (1 - cos theta)) + cos theta;
          b * (c * (1 - cos theta)) - a * sin theta;
          c * (a * (1 - cos theta)) - b * sin theta;
          c * (b * (1 - cos theta)) + a * sin theta;
          c * (c * (1 - cos theta)) + cos theta ]%R).
Proof.
  intros Hunit. unfold quaternion2rot3d.
  destruct (half_angle theta) as [Hcos Hsin]. rewrite Hcos, Hsin.
  set (s := sin (theta / 2)). set (k := cos (theta / 2)).
  assert (Hs : (s * s * (a * a + b * b + c * c) = s * s)%R)
    by (rewrite Hunit; ring).
  apply f_equal. apply f_equal.
  repeat (apply (f_equal2 (@cons R)); [try ring; nra|]). reflexivity.
Qed.

Lemma sum_square4 (q0 q1 q2 q3 : R) :
  sum_square [q0; q1; q2; q3] = (q0 * q0 + q1 * q1 + q2 * q2 + q3 * q3)%R.
Proof. unfold sum_square, np_sum. cbn [map fold_left]. ring. Qed.

Lemma angle_axis_to_quaternion_float (axis : axis_arg) (theta a b c : R) :
  parse_axis axis = Ok (FloatArray [a; b; c]) ->
  angle_axis_to_quaternion axis theta
  = Ok (rotation_quaternion
          ((a / np_linalg_norm [a; b; c])%R,
           (b / np_linalg_norm [a; b; c])%R,
           (c / np_linalg_norm [a; b; c])%R) theta).
Proof.
  intros Hparse. unfold angle_axis_to_quaternion. rewrite Hparse.
  reflexivity.
Qed.

Lemma rotation_quaternion_unit (x y z theta : R) :
  (x * x + y * y + z * z = 1)%R ->
  exists q0 q1 q2 q3,
    rotation_quaternion (x, y, z) theta = [q0; q1; q2; q3] /\
    (q0 * q0 + q1 * q1 + q2 * q2 + q3 * q3 = 1)%R.
Proof.
  intros Hunit. unfold rotation_quaternion.
  do 4 eexists. split; [reflexivity|].
  pose proof (sin2_cos2 (theta / 2)) as Hsc. unfold Rsqr in Hsc.
  set (s := sin (theta / 2)) in *. set (k := cos (theta / 2)) in *.
  assert (Hs : (s * s * (x * x + y * y + z * z) = s * s)%R)
    by (rewrite Hunit; ring).
  nra.
Qed.

(** X2. For an axis name x, y or z, or a float array [(a, b, c)] that is
    not the zero vector, [angle_axis_to_quaternion] returns four numbers
    whose squares sum to one, whatever the length of the axis. *)
Theorem angle_axis_to_quaternion_unit_norm
  (axis : axis_arg) (theta a b c : R) :
  parse_axis axis = Ok (FloatArray [a; b; c]) ->
  (a <> 0 \/ b <> 0 \/ c <> 0)%R ->
  exists q,
    angle_axis_to_quaternion axis theta = Ok q /\
    length q = 4%nat /\ sum_square q = 1%R.
Proof.
  intros Hparse Hnz.
  rewrite (angle_axis_to_quaternion_float axis theta a b c Hparse).
  destruct (norm3_facts a b c Hnz) as [Hpos Hsq].
  destruct (rotation_quaternion_unit _ _ _ theta
              (unit_components a b c _ Hpos Hsq))
    as (q0 & q1 & q2 & q3 & Hq & Hunit).
  rewrite Hq. eexists. split; [reflexivity|]. split; [reflexivity|].
  rewrite sum_square4. exact Hunit.
Qed.

Lemma angle_axis_to_quaternion_unit_norm_witness :
  exists q,
    angle_axis_to_quaternion (AxisVector (FloatArray [3; 0; 4]%R)) PI = Ok q /\
    length q = 4%nat /\ sum_square q = 1%R.
Proof.
  apply (angle_axis_to_quaternion_unit_norm
           (AxisVector (FloatArray [3; 0; 4]%R)) PI 3 0 4).
  - reflexivity.
  - left. lra.
Defined.

Lemma angle_axis_to_rot3d_float (axis : axis_arg) (arr : array1)
  (theta a b c : R) :
  parse_axis axis = Ok arr ->
  astype_float arr = [a; b; c] ->
  (a <> 0 \/ b <> 0 \/ c <> 0)%R ->
  angle_axis_to_rot3d axis theta
  = quaternion2rot3d
      (rotation_quaternion
         ((a / np_linalg_norm [a; b; c])%R,
          (b / np_linalg_norm [a; b; c])%R,
          (c / np_linalg_norm [a; b; c])%R) theta).
Proof.
  intros Hparse Hfloat Hnz.
  destruct (norm3_facts a b c Hnz) as [Hpos Hsq].
  unfold rotation_quaternion.
  rewrite (angle_axis_matrix_as_quaternion _ _ _ theta
             (unit_components a b c _ Hpos Hsq)).
  unfold angle_axis_to_rot3d. rewrite Hparse. cbn [bind].
  rewrite Hfloat. reflexivity.
Qed.


(** X4. For an axis name or any array of three numbers, integers
    included, that is not the zero vector, [angle_axis_to_rot3d] returns a
    rotation matrix. *)
Theorem angle_axis_to_rot3d_is_rotation
  (axis : axis_arg) (arr : array1) (theta a b c : R) :
  parse_axis axis = Ok arr ->
  astype_float arr = [a; b; c] ->
  (a <> 0 \/ b <> 0 \/ c <> 0)%R ->
  exists m, angle_axis_to_rot3d axis theta = Ok m /\ is_rotation m.
Proof.
  intros Hparse Hfloat Hnz.
  rewrite (angle_axis_to_rot3d_float axis arr theta a b c Hparse Hfloat Hnz).
  destruct (norm3_facts a b c Hnz) as [Hpos Hsq].
  destruct (rotation_quaternion_unit _ _ _ theta
              (unit_components a b c _ Hpos Hsq))
    as (q0 & q1 & q2 & q3 & Hq & Hunit).
  rewrite Hq. exact (quaternion2rot3d_rotation_aux q0 q1 q2 q3 Hunit).
Qed.

(** X5. The matrix of [angle_axis_to_rot3d], applied by
    [rotate_pixels_in_reciprocal_space], leaves the axis it was built from
    where it is. *)
Theorem angle_axis_to_rot3d_fixes_axis
  (axis : axis_arg) (arr : array1) (theta a b c : R) :
  parse_axis axis = Ok arr ->
  astype_float arr = [a; b; c] ->
  (a <> 0 \/ b <> 0 \/ c <> 0)%R ->
  (rot_mat <- angle_axis_to_rot3d axis theta ;;
   rotate_pixels_in_reciprocal_space rot_mat (mk_ndarray [3%nat] [a; b; c]))
  = Ok (mk_ndarray [3%nat] [a; b; c]).
Proof.
  intros Hparse Hfloat Hnz.
  destruct (norm3_facts a b c Hnz) as [Hpos Hsq].
  pose proof (unit_components a b c _ Hpos Hsq) as Hunit.
  unfold angle_axis_to_rot3d. rewrite Hparse. cbn [bind]. rewrite Hfloat.
  unfold rotate_pixels_in_reciprocal_space, np_sum, at2.
  cbn [shape data map nth last removelast length Nat.eqb andb negb np_prod
       fold_right seq flat_map app fold_left Nat.mul Nat.add].
  set (n := np_linalg_norm [a; b; c]) in *.
  set (x := (a / n)%R) in *. set (y := (b / n)%R) in *.
  set (z := (c / n)%R) in *.
  assert (Ha : a = (n * x)%R) by (unfold x; field; lra).
  assert (Hb : b = (n * y)%R) by (unfold y; field; lra).
  assert (Hc : c = (n * z)%R) by (unfold z; field; lra).
  set (C := cos theta). set (S := sin theta).
  assert (Hx : (n * x * (1 - C) * (x * x + y * y + z * z)
                = n * x * (1 - C))%R) by (rewrite Hunit; ring).
  assert (Hy : (n * y * (1 - C) * (x * x + y * y + z * z)
                = n * y * (1 - C))%R) by (rewrite Hunit; ring).
  assert (Hz : (n * z * (1 - C) * (x * x + y * y + z * z)
                = n * z * (1 - C))%R) by (rewrite Hunit; ring).
  apply f_equal. apply f_equal.
  rewrite Ha, Hb, Hc.
  repeat (apply (f_equal2 (@cons R)); [nra|]). reflexivity.
Qed.


Lemma angle_axis_to_rot3d_is_rotation_witness :
  exists m,
    angle_axis_to_rot3d (AxisVector (IntArray [0; 0; 2]%Z)) PI = Ok m /\
    is_rotation m.
Proof.
  apply (angle_axis_to_rot3d_is_rotation
           (AxisVector (IntArray [0; 0; 2]%Z)) (IntArray [0; 0; 2]%Z)
           PI 0 0 2).
  - reflexivity.
  - reflexivity.
  - right. right. lra.
Defined.

Lemma angle_axis_to_rot3d_fixes_axis_witness :
  (rot_mat <- angle_axis_to_rot3d (AxisVector (FloatArray [1; 2; 2]%R)) 1 ;;
   rotate_pixels_in_reciprocal_space rot_mat
     (mk_ndarray [3%nat] [1; 2; 2]%R))
  = Ok (mk_ndarray [3%nat] [1; 2; 2]%R).
Proof.
  apply (angle_axis_to_rot3d_fixes_axis
           (AxisVector (FloatArray [1; 2; 2]%R)) (FloatArray [1; 2; 2]%R)
           1 1 2 2).
  - reflexivity.
  - reflexivity.
  - left. lra.
Defined.

(** ** Reading a quaternion as angle and axis *)

Lemma Rltb_false (x y : R) : (y <= x)%R -> Rltb x y = false.
Proof. intros H. unfold Rltb. destruct (Rlt_dec x y); [lra | reflexivity]. Qed.

Lemma Rltb_true (x y : R) : (x < y)%R -> Rltb x y = true.
Proof. intros H. unfold Rltb. destruct (Rlt_dec x y); [reflexivity | lra]. Qed.

Lemma float_eps_pos : (0 < float_eps)%R.
Proof. unfold float_eps. apply Rinv_0_lt_compat. apply pow_lt. lra. Qed.

Lemma float_eps_le_1 : (float_eps <= 1)%R.
Proof.
  unfold float_eps. apply Rle_trans with (r2 := (/ 1)%R); [|lra].
  apply Rinv_le_contravar; [lra|]. apply pow_R1_Rle. lra.
Qed.






(** X7. For an angle from zero up to, not including, machine epsilon,
    [quaternion_to_angle_axis] after [angle_axis_to_quaternion] forgets the
    axis: it returns the angle zero and the axis (1, 0, 0). *)
Theorem quaternion_to_angle_axis_small_angle
  (axis : axis_arg) (theta a b c : R) :
  parse_axis axis = Ok (FloatArray [a; b; c]) ->
  (0 <= theta < float_eps)%R ->
  (quat <- angle_axis_to_quaternion axis theta ;;
   quaternion_to_angle_axis quat)
  = Ok (0%R, [1; 0; 0]%R).
Proof.
  intros Hparse Htheta.
  rewrite (angle_axis_to_quaternion_float axis theta a b c Hparse).
  cbn [bind rotation_quaternion]. unfold quaternion_to_angle_axis.
  pose proof float_eps_le_1 as Hsmall.
  pose proof PI_RGT_0. pose proof PI2_3_2. unfold PI2 in *.
  rewrite acos_cos by lra.
  assert (Hdouble : (2 * (theta / 2) = theta)%R) by field.
  rewrite Hdouble. rewrite Rltb_true by lra. reflexivity.
Qed.

Lemma quaternion_to_angle_axis_small_angle_witness :
  (quat <- angle_axis_to_quaternion (AxisName "y") 0 ;;
   quaternion_to_angle_axis quat)
  = Ok (0%R, [1; 0; 0]%R).
Proof.
  apply (quaternion_to_angle_axis_small_angle (AxisName "y") 0 0 1 0).
  - reflexivity.
  - split; [lra | exact float_eps_pos].
Defined.

(** X8. For a unit quaternion other than (-1, 0, 0, 0) whose angle
    [2 * arccos q0] is not below machine epsilon,
    [angle_axis_to_quaternion] applied to the angle and axis that
    [quaternion_to_angle_axis] returns gives the quaternion back. *)
Theorem angle_axis_to_quaternion_after_quaternion_to_angle_axis
  (q0 q1 q2 q3 : R) :
  (q0 * q0 + q1 * q1 + q2 * q2 + q3 * q3 = 1)%R ->
  (-1 < q0)%R ->
  (float_eps <= 2 * acos q0)%R ->
  (angle_axis <- quaternion_to_angle_axis [q0; q1; q2; q3] ;;
   angle_axis_to_quaternion (AxisVector (FloatArray (snd angle_axis)))
     (fst angle_axis))
  = Ok [q0; q1; q2; q3].
Proof.
  intros Hunit Hlow Heps.
  pose proof float_eps_pos as Hpos.
  assert (Hrange : (-1 <= q0 <= 1)%R) by nra.
  unfold quaternion_to_angle_axis. rewrite Rltb_false by lra.
  cbn [bind fst snd map].
  pose proof (acos_bound q0) as Hbound.
  pose proof (cos_acos q0 Hrange) as Hcos.
  set (ha := acos q0) in *.
  assert (Hha : (ha <> PI)%R).
  { intros Hpi. rewrite Hpi, cos_PI in Hcos. lra. }
  assert (Hsin : (0 < sin ha)%R) by (apply sin_gt_0; lra).
  pose proof (sin2_cos2 ha) as Hsc. unfold Rsqr in Hsc. rewrite Hcos in Hsc.
  set (s := sin ha) in *.
  assert (Hnorm : np_linalg_norm [q1 / s; q2 / s; q3 / s]%R = 1%R).
  { unfold np_linalg_norm, np_sum. cbn [map fold_left].
    replace (0 + q1 / s * (q1 / s) + q2 / s * (q2 / s) + q3 / s * (q3 / s))%R
      with ((q1 * q1 + q2 * q2 + q3 * q3) / (s * s))%R by (field; lra).
    replace (q1 * q1 + q2 * q2 + q3 * q3)%R with (s * s)%R by lra.
    replace (s * s / (s * s))%R with 1%R by (field; lra).
    apply sqrt_1. }
  unfold angle_axis_to_quaternion, parse_axis, idiv_norm.
  cbn [array1_length length Nat.eqb negb bind map]. rewrite Hnorm.
  assert (Hhalf : (2 * ha / 2 = ha)%R) by field.
  rewrite Hhalf. fold s. rewrite Hcos.
  apply f_equal.
  repeat (apply (f_equal2 (@cons R)); [try reflexivity; field; lra|]).
  reflexivity.
Qed.

Lemma angle_axis_to_quaternion_after_quaternion_to_angle_axis_witness :
  (angle_axis <- quaternion_to_angle_axis [0; 1; 0; 0]%R ;;
   angle_axis_to_quaternion (AxisVector (FloatArray (snd angle_axis)))
     (fst angle_axis))
  = Ok [0; 1; 0; 0]%R.
Proof.
  apply (angle_axis_to_quaternion_after_quaternion_to_angle_axis 0 1 0 0).
  - lra.
  - lra.
  - rewrite acos_0. pose proof float_eps_le_1. pose proof PI_RGT_0.
    pose proof PI2_3_2. unfold PI2 in *. lra.
Defined.

(** ** Euler angles *)

Lemma orthonormal_preserves_dot
  (a0 a1 a2 a3 a4 a5 a6 a7 a8 x0 x1 x2 y0 y1 y2 : R) :
  (a0 * a0 + a3 * a3 + a6 * a6 = 1)%R ->
  (a1 * a1 + a4 * a4 + a7 * a7 = 1)%R ->
  (a2 * a2 + a5 * a5 + a8 * a8 = 1)%R ->
  (a0 * a1 + a3 * a4 + a6 * a7 = 0)%R ->
  (a0 * a2 + a3 * a5 + a6 * a8 = 0)%R ->
  (a1 * a2 + a4 * a5 + a7 * a8 = 0)%R ->
  ((a0 * x0 + a1 * x1 + a2 * x2) * (a0 * y0 + a1 * y1 + a2 * y2)
   + (a3 * x0 + a4 * x1 + a5 * x2) * (a3 * y0 + a4 * y1 + a5 * y2)
   + (a6 * x0 + a7 * x1 + a8 * x2) * (a6 * y0 + a7 * y1 + a8 * y2)
   = x0 * y0 + x1 * y1 + x2 * y2)%R.
Proof.
  intros H00 H11 H22 H01 H02 H12.
  replace ((a0 * x0 + a1 * x1 + a2 * x2) * (a0 * y0 + a1 * y1 + a2 * y2)
   + (a3 * x0 + a4 * x1 + a5 * x2) * (a3 * y0 + a4 * y1 + a5 * y2)
   + (a6 * x0 + a7 * x1 + a8 * x2) * (a6 * y0 + a7 * y1 + a8 * y2))%R
    with (x0 * y0 * (a0 * a0 + a3 * a3 + a6 * a6)
          + x1 * y1 * (a1 * a1 + a4 * a4 + a7 * a7)
          + x2 * y2 * (a2 * a2 + a5 * a5 + a8 * a8)
          + (x0 * y1 + x1 * y0) * (a0 * a1 + a3 * a4 + a6 * a7)
          + (x0 * y2 + x2 * y0) * (a0 * a2 + a3 * a5 + a6 * a8)
          + (x1 * y2 + x2 * y1) * (a1 * a2 + a4 * a5 + a7 * a8))%R by ring.
  rewrite H00, H11, H22, H01, H02, H12. ring.
Qed.

Lemma is_rotation_entries (m : ndarray R) :
  is_rotation m ->
  exists a0 a1 a2 a3 a4 a5 a6 a7 a8,
    m = mk_ndarray [3; 3]%nat [a0; a1; a2; a3; a4; a5; a6; a7; a8] /\
    (a0 * a0 + a3 * a3 + a6 * a6 = 1)%R /\
    (a1 * a1 + a4 * a4 + a7 * a7 = 1)%R /\
    (a2 * a2 + a5 * a5 + a8 * a8 = 1)%R /\
    (a0 * a1 + a3 * a4 + a6 * a7 = 0)%R /\
    (a0 * a2 + a3 * a5 + a6 * a8 = 0)%R /\
    (a1 * a2 + a4 * a5 + a7 * a8 = 0)%R /\
    (a0 * (a4 * a8 - a5 * a7) - a1 * (a3 * a8 - a5 * a6)
     + a2 * (a3 * a7 - a4 * a6) = 1)%R.
Proof.
  intros (Hshape & Hlen & Hgram & Hdet).
  destruct m as [s d]. cbn [shape data] in *. subst s.
  destruct d as [|a0 [|a1 [|a2 [|a3 [|a4 [|a5 [|a6 [|a7 [|a8 [|? ?]]]]]]]]]];
    try discriminate Hlen.
  exists a0, a1, a2, a3, a4, a5, a6, a7, a8.
  split; [reflexivity|].
  pose proof (Hgram 0 0 ltac:(lia) ltac:(lia))%nat as H00.
  pose proof (Hgram 1 1 ltac:(lia) ltac:(lia))%nat as H11.
  pose proof (Hgram 2 2 ltac:(lia) ltac:(lia))%nat as H22.
  pose proof (Hgram 0 1 ltac:(lia) ltac:(lia))%nat as H01.
  pose proof (Hgram 0 2 ltac:(lia) ltac:(lia))%nat as H02.
  pose proof (Hgram 1 2 ltac:(lia) ltac:(lia))%nat as H12.
  unfold gram, det3, entry, at2 in *.
  cbn [data nth Nat.mul Nat.add Nat.eqb] in *.
  repeat split; assumption.
Qed.

Lemma np_dot_rotation (a b : ndarray R) :
  is_rotation a -> is_rotation b ->
  exists m, np_dot a b = Ok m /\ is_rotation m.
Proof.
  intros Ha Hb.
  destruct (is_rotation_entries a Ha)
    as (a0 & a1 & a2 & a3 & a4 & a5 & a6 & a7 & a8 & -> &
        A00 & A11 & A22 & A01 & A02 & A12 & Adet).
  destruct (is_rotation_entries b Hb)
    as (b0 & b1 & b2 & b3 & b4 & b5 & b6 & b7 & b8 & -> &
        B00 & B11 & B22 & B01 & B02 & B12 & Bdet).
  unfold np_dot. cbn [shape data Nat.eqb]. eexists. split; [reflexivity|].
  apply is_rotation_of_entries; [reflexivity | |].
  - three_by_three; unfold np_sum;
      cbn [seq map flat_map app nth fold_left Nat.mul Nat.add];
      [ pose proof (orthonormal_preserves_dot a0 a1 a2 a3 a4 a5 a6 a7 a8
                      b0 b3 b6 b0 b3 b6 A00 A11 A22 A01 A02 A12)
      | pose proof (orthonormal_preserves_dot a0 a1 a2 a3 a4 a5 a6 a7 a8
                      b0 b3 b6 b1 b4 b7 A00 A11 A22 A01 A02 A12)
      | pose proof (orthonormal_preserves_dot a0 a1 a2 a3 a4 a5 a6 a7 a8
                      b0 b3 b6 b2 b5 b8 A00 A11 A22 A01 A02 A12)
      | pose proof (orthonormal_preserves_dot a0 a1 a2 a3 a4 a5 a6 a7 a8
                      b1 b4 b7 b0 b3 b6 A00 A11 A22 A01 A02 A12)
      | pose proof (orthonormal_preserves_dot a0 a1 a2 a3 a4 a5 a6 a7 a8
                      b1 b4 b7 b1 b4 b7 A00 A11 A22 A01 A02 A12)
      | pose proof (orthonormal_preserves_dot a0 a1 a2 a3 a4 a5 a6 a7 a8
                      b1 b4 b7 b2 b5 b8 A00 A11 A22 A01 A02 A12)
      | pose proof (orthonormal_preserves_dot a0 a1 a2 a3 a4 a5 a6 a7 a8
                      b2 b5 b8 b0 b3 b6 A00 A11 A22 A01 A02 A12)
      | pose proof (orthonormal_preserves_dot a0 a1 a2 a3 a4 a5 a6 a7 a8
                      b2 b5 b8 b1 b4 b7 A00 A11 A22 A01 A02 A12)
      | pose proof (orthonormal_preserves_dot a0 a1 a2 a3 a4 a5 a6 a7 a8
                      b2 b5 b8 b2 b5 b8 A00 A11 A22 A01 A02 A12) ];
      lra.
  - unfold det3, entry, at2, np_sum.
    cbn [data seq map flat_map app nth fold_left Nat.mul Nat.add].
    match goal with
    | |- ?lhs = 1%R =>
        replace lhs with
          ((a0 * (a4 * a8 - a5 * a7) - a1 * (a3 * a8 - a5 * a6)
            + a2 * (a3 * a7 - a4 * a6))
           * (b0 * (b4 * b8 - b5 * b7) - b1 * (b3 * b8 - b5 * b6)
              + b2 * (b3 * b7 - b4 * b6)))%R by ring
    end.
    rewrite Adet, Bdet. ring.
Qed.

Lemma named_axis_matrices (theta : R) :
  angle_axis_to_rot3d (AxisName "x") theta
  = Ok (mk_ndarray [3; 3]%nat
          [ 1; 0; 0;
            0; cos theta; - sin theta;
            0; sin theta; cos theta ]%R) /\
  angle_axis_to_rot3d (AxisName "y") theta
  = Ok (mk_ndarray [3; 3]%nat
          [ cos theta; 0; sin theta;
            0; 1; 0;
            - sin theta; 0; cos theta ]%R) /\
  angle_axis_to_rot3d (AxisName "z") theta
  = Ok (mk_ndarray [3; 3]%nat
          [ cos theta; - sin theta; 0;
            sin theta; cos theta; 0;
            0; 0; 1 ]%R).
Proof.
  assert (Hx : np_linalg_norm [1; 0; 0]%R = 1%R).
  { unfold np_linalg_norm, np_sum. cbn [map fold_left].
    replace (0 + 1 * 1 + 0 * 0 + 0 * 0)%R with 1%R by ring. apply sqrt_1. }
  assert (Hy : np_linalg_norm [0; 1; 0]%R = 1%R).
  { unfold np_linalg_norm, np_sum. cbn [map fold_left].
    replace (0 + 0 * 0 + 1 * 1 + 0 * 0)%R with 1%R by ring. apply sqrt_1. }
  assert (Hz : np_linalg_norm [0; 0; 1]%R = 1%R).
  { unfold np_linalg_norm, np_sum. cbn [map fold_left].
    replace (0 + 0 * 0 + 0 * 0 + 1 * 1)%R with 1%R by ring. apply sqrt_1. }
  repeat split; unfold angle_axis_to_rot3d;
    cbn [parse_axis str_lower lower_char]; simpl String.eqb;
    cbn [bind astype_float map nth]; rewrite ?Hx, ?Hy, ?Hz;
    apply f_equal; apply f_equal;
    repeat (apply (f_equal2 (@cons R)); [field|]); reflexivity.
Qed.

Lemma half_angle_decimal (theta : R) :
  (cos theta = 1 - 2 * sin (theta * 0.5) * sin (theta * 0.5))%R /\
  (sin theta = 2 * sin (theta * 0.5) * cos (theta * 0.5))%R /\
  (cos (theta * 0.5) * cos (theta * 0.5)
   = 1 - sin (theta * 0.5) * sin (theta * 0.5))%R.
Proof.
  replace (theta * 0.5)%R with (theta / 2)%R by lra.
  destruct (half_angle theta) as [Hcos Hsin].
  pose proof (sin2_cos2 (theta / 2)) as Hsc. unfold Rsqr in Hsc.
  repeat split; [assumption | assumption | lra].
Qed.

Lemma elementary_rotations (theta : R) :
  is_rotation (mk_ndarray [3; 3]%nat
                 [ cos theta; 0; sin theta;
                   0; 1; 0;
                   - sin theta; 0; cos theta ]%R) /\
  is_rotation (mk_ndarray [3; 3]%nat
                 [ cos theta; - sin theta; 0;
                   sin theta; cos theta; 0;
                   0; 0; 1 ]%R).
Proof.
  pose proof (sin2_cos2 theta) as Hsc. unfold Rsqr in Hsc.
  split; (apply is_rotation_of_entries;
          [ reflexivity
          | three_by_three; nra
          | unfold det3, entry, at2; cbn [data nth Nat.mul Nat.add]; nra ]).
Qed.

(** X9. [euler_to_rot3d] returns a rotation matrix for all three
    angles. *)
Theorem euler_to_rot3d_is_rotation (psi theta phi : R) :
  exists m, euler_to_rot3d psi theta phi = Ok m /\ is_rotation m.
Proof.
  unfold euler_to_rot3d.
  destruct (np_dot_rotation _ _ (proj1 (elementary_rotations theta))
              (proj2 (elementary_rotations phi)))
    as (inner & Hinner & Hrot).
  rewrite Hinner. cbn [bind].
  exact (np_dot_rotation _ _ (proj2 (elementary_rotations psi)) Hrot).
Qed.

Lemma euler_to_rot3d_matrix (psi theta phi : R) :
  euler_to_rot3d psi theta phi
  = (rpsi <- angle_axis_to_rot3d (AxisName "z") psi ;;
     rtheta <- angle_axis_to_rot3d (AxisName "y") theta ;;
     rphi <- angle_axis_to_rot3d (AxisName "z") phi ;;
     inner <- np_dot rtheta rphi ;;
     np_dot rpsi inner).
Proof.
  rewrite (proj2 (proj2 (named_axis_matrices psi))).
  rewrite (proj1 (proj2 (named_axis_matrices theta))).
  rewrite (proj2 (proj2 (named_axis_matrices phi))).
  reflexivity.
Qed.

(** X10. [euler_to_quaternion] returns a unit quaternion for all three
    angles. *)
Theorem euler_to_quaternion_unit_norm (psi theta phi : R) :
  sum_square (euler_to_quaternion psi theta phi) = 1%R.
Proof.
  unfold euler_to_quaternion. rewrite sum_square4.
  destruct (half_angle_decimal psi) as (_ & _ & Hy).
  destruct (half_angle_decimal theta) as (_ & _ & Hp).
  destruct (half_angle_decimal phi) as (_ & _ & Hr).
  set (cy := cos (psi * 0.5)) in *. set (sy := sin (psi * 0.5)) in *.
  set (cp := cos (theta * 0.5)) in *. set (sp := sin (theta * 0.5)) in *.
  set (cr := cos (phi * 0.5)) in *. set (sr := sin (phi * 0.5)) in *.
  replace ((cy * cp * cr + sy * sp * sr) * (cy * cp * cr + sy * sp * sr)
           + (cy * cp * sr - sy * sp * cr) * (cy * cp * sr - sy * sp * cr)
           + (sy * cp * sr + cy * sp * cr) * (sy * cp * sr + cy * sp * cr)
           + (sy * cp * cr - cy * sp * sr) * (sy * cp * cr - cy * sp * sr))%R
    with ((cy * cy + sy * sy) * (cp * cp + sp * sp) * (cr * cr + sr * sr))%R
    by ring.
  rewrite Hy, Hp, Hr. ring.
Qed.

Lemma euler_to_quaternion_matrix (psi theta phi : R) :
  quaternion2rot3d (euler_to_quaternion psi theta phi)
  = (rpsi <- angle_axis_to_rot3d (AxisName "z") psi ;;
     rtheta <- angle_axis_to_rot3d (AxisName "y") theta ;;
     rphi <- angle_axis_to_rot3d (AxisName "x") phi ;;
     inner <- np_dot rtheta rphi ;;
     np_dot rpsi inner).
Proof.
  rewrite (proj2 (proj2 (named_axis_matrices psi))).
  rewrite (proj1 (proj2 (named_axis_matrices theta))).
  rewrite (proj1 (named_axis_matrices phi)).
  unfold euler_to_quaternion, quaternion2rot3d, np_dot, np_sum, at2.
  cbn [bind shape data Nat.eqb seq map flat_map app nth fold_left
       Nat.mul Nat.add].
  destruct (half_angle_decimal psi) as (Cy & Sy & Hy).
  destruct (half_angle_decimal theta) as (Cp & Sp & Hp).
  destruct (half_angle_decimal phi) as (Cr & Sr & Hr).
  rewrite Cy, Sy, Cp, Sp, Cr, Sr.
  set (cy := cos (psi * 0.5)) in *. set (sy := sin (psi * 0.5)) in *.
  set (cp := cos (theta * 0.5)) in *. set (sp := sin (theta * 0.5)) in *.
  set (cr := cos (phi * 0.5)) in *. set (sr := sin (phi * 0.5)) in *.
  apply f_equal. apply f_equal.
  repeat (apply (f_equal2 (@cons R)); [ring [Hy Hp Hr]|]). reflexivity.
Qed.

(** X11. [euler_to_rot3d(psi, theta, phi)] is the product of the rotation
    about z by [psi], about y by [theta] and about z by [phi], each as
    [angle_axis_to_rot3d] builds it. *)
Theorem euler_to_rot3d_is_z_y_z (psi theta phi : R) :
  euler_to_rot3d psi theta phi
  = (rpsi <- angle_axis_to_rot3d (AxisName "z") psi ;;
     rtheta <- angle_axis_to_rot3d (AxisName "y") theta ;;
     rphi <- angle_axis_to_rot3d (AxisName "z") phi ;;
     inner <- np_dot rtheta rphi ;;
     np_dot rpsi inner).
Proof.
  destruct (named_axis_matrices psi) as (_ & _ & Hpsi).
  destruct (named_axis_matrices theta) as (_ & Htheta & _).
  destruct (named_axis_matrices phi) as (_ & _ & Hphi).
  rewrite Hpsi, Htheta, Hphi. reflexivity.
Qed.

(** X12. The matrix of the quaternion of
    [euler_to_quaternion(psi, theta, phi)] is the product of the rotation
    about z by [psi], about y by [theta] and about x by [phi]: the last
    rotation is about x, where [euler_to_rot3d] has z. *)
Theorem euler_to_quaternion_is_z_y_x (psi theta phi : R) :
  quaternion2rot3d (euler_to_quaternion psi theta phi)
  = (rpsi <- angle_axis_to_rot3d (AxisName "z") psi ;;
     rtheta <- angle_axis_to_rot3d (AxisName "y") theta ;;
     rphi <- angle_axis_to_rot3d (AxisName "x") phi ;;
     inner <- np_dot rtheta rphi ;;
     np_dot rpsi inner).
Proof.
  destruct (named_axis_matrices psi) as (_ & _ & Hpsi).
  destruct (named_axis_matrices theta) as (_ & Htheta & _).
  destruct (named_axis_matrices phi) as (Hphi & _ & _).
  rewrite Hpsi, Htheta, Hphi.
  unfold euler_to_quaternion, quaternion2rot3d, np_dot, np_sum, at2.
  cbn [bind shape data Nat.eqb seq map flat_map app nth fold_left
       Nat.mul Nat.add].
  destruct (half_angle_decimal psi) as (Cy & Sy & Hy).
  destruct (half_angle_decimal theta) as (Cp & Sp & Hp).
  destruct (half_angle_decimal phi) as (Cr & Sr & Hr).
  rewrite Cy, Sy, Cp, Sp, Cr, Sr.
  set (cy := cos (psi * 0.5)) in *. set (sy := sin (psi * 0.5)) in *.
  set (cp := cos (theta * 0.5)) in *. set (sp := sin (theta * 0.5)) in *.
  set (cr := cos (phi * 0.5)) in *. set (sr := sin (phi * 0.5)) in *.
  apply f_equal. apply f_equal.
  repeat (apply (f_equal2 (@cons R)); [ring [Hy Hp Hr]|]). reflexivity.
Qed.

(** X13. Whenever [phi] is not a whole number of turns, [euler_to_rot3d]
    and [quaternion2rot3d] of [euler_to_quaternion] give different results
    for the same three angles. *)
Theorem euler_conventions_differ (psi theta phi : R) :
  cos phi <> 1%R ->
  euler_to_rot3d psi theta phi
  <> quaternion2rot3d (euler_to_quaternion psi theta phi).
Proof.
  intros Hphi Heq.
  rewrite euler_to_rot3d_matrix, euler_to_quaternion_matrix in Heq.
  rewrite (proj2 (proj2 (named_axis_matrices psi))) in Heq.
  rewrite (proj1 (proj2 (named_axis_matrices theta))) in Heq.
  rewrite (proj2 (proj2 (named_axis_matrices phi))) in Heq.
  rewrite (proj1 (named_axis_matrices phi)) in Heq.
  unfold np_dot, np_sum, at2 in Heq.
  cbn [bind shape data Nat.eqb seq map flat_map app nth fold_left
       Nat.mul Nat.add] in Heq.
  injection Heq as _ _ _ _ _ _ H20 _ H22.
  pose proof (sin2_cos2 theta) as Hsc. unfold Rsqr in Hsc.
  assert (Hs : (sin theta * (1 - cos phi) = 0)%R) by nra.
  assert (Hc : (cos theta * (1 - cos phi) = 0)%R) by nra.
  assert (Hne : (1 - cos phi <> 0)%R) by lra.
  apply Rmult_integral in Hs. apply Rmult_integral in Hc.
  destruct Hs as [Hs|Hs]; [|contradiction].
  destruct Hc as [Hc|Hc]; [|contradiction].
  rewrite Hs, Hc in Hsc. lra.
Qed.

Lemma euler_conventions_differ_witness :
  euler_to_rot3d 0 0 PI <> quaternion2rot3d (euler_to_quaternion 0 0 PI).
Proof.
  apply (euler_conventions_differ 0 0 PI). rewrite cos_PI. lra.
Defined.

(** ** Sampling a volume *)

Lemma np_getitem_in_window {A : Type} (d : A) (l : list A) (i : Z) :
  in_window (length l) i ->
  np_getitem l i = Ok (nth (Z.to_nat (i mod Z.of_nat (length l))) l d).
Proof.
  unfold in_window, np_getitem. intros Hi.
  set (n := Z.of_nat (length l)) in *.
  assert (Hj : ((if (i <? 0)%Z then (i + n)%Z else i) = i mod n)%Z).
  { destruct (Z.ltb_spec i 0).
    - apply Z.mod_unique with (q := (-1)%Z); lia.
    - symmetry. apply Z.mod_small. lia. }
  rewrite Hj.
  assert (Hrange : (0 <= i mod n < n)%Z) by (apply Z.mod_pos_bound; lia).
  destruct (Z.leb_spec 0 (i mod n)); [|lia].
  destruct (Z.ltb_spec (i mod n) n); [|lia]. cbn [andb].
  destruct (nth_error l (Z.to_nat (i mod n))) as [x|] eqn:E.
  - rewrite (nth_error_nth _ _ d E). reflexivity.
  - apply nth_error_None in E. unfold n in *. lia.
Qed.

Lemma np_getitem_out_of_window {A : Type} (l : list A) (i : Z) :
  ~ in_window (length l) i -> np_getitem l i = Raise IndexError.
Proof.
  unfold in_window, np_getitem. intros Hi.
  set (n := Z.of_nat (length l)) in *.
  destruct (Z.ltb_spec i 0).
  - destruct (Z.leb_spec 0 (i + n)); [lia|]. reflexivity.
  - destruct (Z.leb_spec 0 i); [|lia].
    destruct (Z.ltb_spec i n); [lia|]. reflexivity.
Qed.

Lemma np_take_in_window {A : Type} (d : A) (l : list A) (index : list Z) :
  Forall (in_window (length l)) index ->
  np_take l index
  = Ok (map (fun i => nth (Z.to_nat (i mod Z.of_nat (length l))) l d) index).
Proof.
  induction 1 as [|i index Hi _ IH]; cbn [np_take map]; [reflexivity|].
  rewrite (np_getitem_in_window d l i Hi), IH. reflexivity.
Qed.

Lemma np_take_out_of_window {A : Type} (l : list A) (index : list Z) :
  Exists (fun i => ~ in_window (length l) i) index ->
  np_take l index = Raise IndexError.
Proof.
  induction 1 as [i index Hi|i index _ IH]; cbn [np_take].
  - rewrite (np_getitem_out_of_window l i Hi). reflexivity.
  - rewrite IH. destruct (np_getitem l i) as [x|e] eqn:E; cbn [bind].
    + reflexivity.
    + unfold np_getitem in E.
      destruct ((0 <=? (if (i <? 0)%Z then (i + Z.of_nat (length l))%Z else i))%Z
                && ((if (i <? 0)%Z then (i + Z.of_nat (length l))%Z else i)
                    <? Z.of_nat (length l))%Z)%bool;
        [destruct (nth_error l _)|]; congruence.
Qed.

Lemma np_rows_app {A : Type} (k m r : nat) (a b : list A) :
  length a = (m * k)%nat ->
  np_rows k (m + r) (a ++ b) = np_rows k m a ++ np_rows k r b.
Proof.
  revert a. induction m as [|m IH]; intros a Ha; cbn [np_rows Nat.add].
  - destruct a; [reflexivity | discriminate].
  - cbn [app]. rewrite firstn_app, skipn_app.
    replace (k - length a)%nat with 0%nat by (rewrite Ha; lia).
    cbn [firstn skipn]. rewrite app_nil_r.
    rewrite IH by (rewrite length_skipn, Ha; lia). reflexivity.
Qed.

Lemma np_rows_blocks {A B : Type} (k m : nat) (f : A -> list B)
  (l : list A) :
  (forall a, length (f a) = (m * k)%nat) ->
  np_rows k (length l * m) (flat_map f l)
  = flat_map (fun a => np_rows k m (f a)) l.
Proof.
  intros Hf. induction l as [|a l IH]; cbn [length flat_map Nat.mul];
    [reflexivity|].
  cbn [Nat.mul]. rewrite np_rows_app by apply Hf. rewrite IH. reflexivity.
Qed.

Lemma np_map2_app {A B C : Type} (g : A -> B -> C) (a1 a2 : list A)
  (b1 b2 : list B) :
  length a1 = length b1 ->
  np_map2 g (a1 ++ a2) (b1 ++ b2) = np_map2 g a1 b1 ++ np_map2 g a2 b2.
Proof.
  unfold np_map2. revert b1.
  induction a1 as [|x a1 IH]; intros [|y b1] Hlen; try discriminate;
    cbn [app combine map]; [reflexivity|].
  rewrite IH by (cbn [length] in Hlen; lia). reflexivity.
Qed.

Lemma np_map2_flat_map {A B C D : Type} (g : A -> B -> C)
  (f1 : D -> list A) (f2 : D -> list B) (l : list D) :
  (forall a, length (f1 a) = length (f2 a)) ->
  np_map2 g (flat_map f1 l) (flat_map f2 l)
  = flat_map (fun a => np_map2 g (f1 a) (f2 a)) l.
Proof.
  intros Hlen. induction l as [|a l IH]; cbn [flat_map]; [reflexivity|].
  rewrite np_map2_app by apply Hlen. rewrite IH. reflexivity.
Qed.

Lemma length_corner_flat_indexes (n : nat) (tmp_index : list Z) (i : nat) :
  length (corner_flat_indexes n tmp_index i) = 8%nat.
Proof. reflexivity. Qed.

Lemma stencil_flat_indexes (n P : nat) (tmp_index : list Z) :
  matmul_vec3
    (np_rows 3 (P * 8) (flat_map (stencil_indexes tmp_index) (seq 0 P)))
    [Z.of_nat n * Z.of_nat n; Z.of_nat n; 1]%Z
  = flat_map (corner_flat_indexes n tmp_index) (seq 0 P).
Proof.
  pose proof (np_rows_blocks 3 8 (stencil_indexes tmp_index) (seq 0 P)
                (fun a => eq_refl)) as Hblocks.
  rewrite length_seq in Hblocks. rewrite Hblocks.
  unfold matmul_vec3 at 1. rewrite map_flat_map_comm. reflexivity.
Qed.

(** What [take_one_slice] returns on the stencil of [P] pixels. *)
Lemma take_one_slice_stencil (n : nat) (volume : ndarray R)
  (s si sw : list nat) (tmp_index : list Z) (w : nat -> list R) :
  (forall i, length (w i) = 8%nat) ->
  shape volume = [n; n; n] ->
  well_formed volume ->
  let P := np_prod s in
  (Forall (in_window (n * n * n))
     (flat_map (corner_flat_indexes n tmp_index) (seq 0 P)) ->
   take_one_slice
     (mk_ndarray si (flat_map (stencil_indexes tmp_index) (seq 0 P)))
     (mk_ndarray sw (flat_map w (seq 0 P))) volume P s
   = Ok (mk_ndarray s
           (map (fun i =>
                   np_sum (np_map2 Rmult (w i)
                             (map (voxel_at volume)
                                (corner_flat_indexes n tmp_index i))))
              (seq 0 P)))) /\
  (Exists (fun z => ~ in_window (n * n * n) z)
     (flat_map (corner_flat_indexes n tmp_index) (seq 0 P)) ->
   take_one_slice
     (mk_ndarray si (flat_map (stencil_indexes tmp_index) (seq 0 P)))
     (mk_ndarray sw (flat_map w (seq 0 P))) volume P s
   = Raise IndexError).
Proof.
  intros Hw Hshape Hwf P.
  assert (Hvol : length (data volume) = (n * n * n)%nat).
  { unfold well_formed in Hwf. rewrite Hwf, Hshape. cbn [np_prod fold_right].
    lia. }
  assert (Hstart :
    take_one_slice
      (mk_ndarray si (flat_map (stencil_indexes tmp_index) (seq 0 P)))
      (mk_ndarray sw (flat_map w (seq 0 P))) volume P s
    = (data_to_merge <-
         np_take (data volume)
           (flat_map (corner_flat_indexes n tmp_index) (seq 0 P)) ;;
       np_reshape
         (mk_ndarray [P]
            (map np_sum
               (np_rows 8 P
                  (np_map2 Rmult (flat_map w (seq 0 P)) data_to_merge))))
         s)).
  { unfold take_one_slice, np_reshape. rewrite Hshape. cbn [shape data].
    replace (np_prod [P; 8; 3]%nat) with (P * 24)%nat
      by (cbn [np_prod fold_right]; lia).
    rewrite (length_flat_map_const 24), length_seq, Nat.eqb_refl
      by (intros a; reflexivity).
    cbn [bind data]. rewrite stencil_flat_indexes.
    replace (np_prod [(n ^ 3)%nat]) with (n * n * n)%nat
      by (cbn [np_prod fold_right Nat.pow]; lia).
    rewrite Hvol, Nat.eqb_refl. cbn [bind data].
    replace (np_prod [P; 8]%nat) with (P * 8)%nat
      by (cbn [np_prod fold_right]; lia).
    rewrite (length_flat_map_const 8), length_seq, Nat.eqb_refl
      by exact Hw.
    cbn [bind data]. reflexivity. }
  rewrite Hstart. split.
  - intros Hin. rewrite <- Hvol in Hin.
    rewrite (np_take_in_window 0%R _ _ Hin). cbn [bind].
    fold (voxel_at volume). rewrite map_flat_map_comm.
    rewrite np_map2_flat_map
      by (intros a; rewrite length_map, Hw; reflexivity).
    rewrite (np_rows_flat_map_seq 8)
      by (intros a; rewrite np_map2_length;
          [apply Hw | rewrite length_map, Hw; reflexivity]).
    rewrite map_map. unfold np_reshape. cbn [data].
    rewrite length_map, length_seq. cbn [np_prod fold_right].
    fold (np_prod s). fold P. rewrite Nat.eqb_refl. reflexivity.
  - intros Hout. rewrite <- Hvol in Hout.
    rewrite (np_take_out_of_window _ _ Hout). reflexivity.
Qed.

(** The eight flat indexes of a pixel, from the lowest one. *)
Lemma corner_flat_indexes_offsets (n : nat) (tmp_index : list Z) (i : nat) :
  let v := Z.of_nat n in
  let L := (at2 0 3 tmp_index i 0 * (v * v) + at2 0 3 tmp_index i 1 * v
            + at2 0 3 tmp_index i 2)%Z in
  corner_flat_indexes n tmp_index i
  = [ L; L + 1; L + v; L + v + 1; L + v * v; L + v * v + 1;
      L + v * v + v; L + v * v + v + 1 ]%Z.
Proof.
  intros v L. unfold corner_flat_indexes, matmul_vec3, stencil_indexes,
    np_map2.
  cbn [np_rows firstn skipn map combine fold_left fst snd].
  fold v. subst L.
  repeat (apply (f_equal2 (@cons Z)); [ring|]). reflexivity.
Qed.

Lemma voxel_floor_at2 (p : list R) (vl : R) (n i k : nat) :
  (3 * i + k < length p)%nat ->
  at2 0%Z 3
    (map np_floor
       (map (fun x => x + center_shift (Z.of_nat n))%R
          (map (fun x => x / vl)%R p))) i k
  = voxel_floor p vl n i k.
Proof.
  intros Hlen. rewrite !map_map.
  rewrite (at2_map _ 0%R 0%Z) by exact Hlen. reflexivity.
Qed.

Lemma corner_flat_indexes_base (p : list R) (vl : R) (n i : nat) :
  (3 * i + 2 < length p)%nat ->
  let v := Z.of_nat n in
  let L := base_flat_index p vl n i in
  corner_flat_indexes n
    (map np_floor
       (map (fun x => x + center_shift (Z.of_nat n))%R
          (map (fun x => x / vl)%R p))) i
  = [ L; L + 1; L + v; L + v + 1; L + v * v; L + v * v + 1;
      L + v * v + v; L + v * v + v + 1 ]%Z.
Proof.
  intros Hlen v L. rewrite corner_flat_indexes_offsets.
  rewrite !voxel_floor_at2 by lia. reflexivity.
Qed.

Lemma corners_in_window_Forall (p : list R) (vl : R) (n i : nat) :
  (3 * i + 2 < length p)%nat ->
  corners_in_window p vl n i <->
  Forall (in_window (n * n * n))
    (corner_flat_indexes n
       (map np_floor
          (map (fun x => x + center_shift (Z.of_nat n))%R
             (map (fun x => x / vl)%R p))) i).
Proof.
  intros Hlen. rewrite (corner_flat_indexes_base p vl n i Hlen).
  unfold corners_in_window, in_window.
  set (L := base_flat_index p vl n i). set (v := Z.of_nat n).
  assert (Hv : (0 <= v)%Z) by (unfold v; lia).
  split.
  - intros [Hlo Hhi]. repeat constructor; nia.
  - intros Hall.
    rewrite Forall_forall in Hall.
    pose proof (Hall L ltac:(cbn [In]; tauto)) as Hlo.
    pose proof (Hall (L + v * v + v + 1)%Z ltac:(cbn [In]; tauto)) as Hhi.
    lia.
Qed.

Lemma Forall_flat_map_seq {B : Type} (Q : B -> Prop) (f : nat -> list B)
  (P : nat) :
  Forall Q (flat_map f (seq 0 P)) <->
  (forall i, (i < P)%nat -> Forall Q (f i)).
Proof.
  rewrite Forall_flat_map, Forall_forall. split.
  - intros H i Hi. apply H. apply in_seq. lia.
  - intros H i Hi. apply in_seq in Hi. apply H. lia.
Qed.

Lemma Exists_flat_map_seq {B : Type} (Q : B -> Prop) (f : nat -> list B)
  (P i : nat) :
  (i < P)%nat -> Exists Q (f i) -> Exists Q (flat_map f (seq 0 P)).
Proof.
  intros Hi Hex. apply Exists_exists in Hex. destruct Hex as (x & Hx & HQ).
  apply Exists_exists. exists x. split; [|exact HQ].
  apply in_flat_map. exists i. split; [apply in_seq; lia | exact Hx].
Qed.

(** One pass of the slicing loop, once the pixels are rotated. *)
Lemma take_slice_with_rotation_stencil
  (s : list nat) (pixel_momentum rot_mat volume rotated : ndarray R)
  (vl : R) (n : nat) :
  s <> [] ->
  shape pixel_momentum = s ++ [3%nat] ->
  shape rot_mat = [3; 3]%nat ->
  shape volume = [n; n; n] ->
  rotate_pixels_in_reciprocal_space rot_mat pixel_momentum = Ok rotated ->
  let pvu := map (fun x => x + center_shift (Z.of_nat n))%R
               (map (fun x => x / vl)%R (data rotated)) in
  let tmp_index := map np_floor pvu in
  let dfloor := np_map2 (fun x t => x - IZR t)%R pvu tmp_index in
  length (data rotated) = (np_prod s * 3)%nat /\
  take_slice_with_rotation s pixel_momentum volume vl rot_mat
  = take_one_slice
      (mk_ndarray (s ++ [8; 3]%nat)
         (flat_map (stencil_indexes tmp_index) (seq 0 (np_prod s))))
      (mk_ndarray (s ++ [8]%nat)
         (flat_map (stencil_weights dfloor (map (fun x => 1 - x)%R dfloor))
            (seq 0 (np_prod s))))
      volume (np_prod s) s.
Proof.
  intros Hs Hpix Hrot Hvol Hrotated pvu tmp_index dfloor.
  destruct (rotate_pixels_ok s rot_mat pixel_momentum Hrot Hpix)
    as (rotated' & Hr & Hrs & Hrl).
  rewrite Hrotated in Hr. injection Hr as <-.
  split; [exact Hrl|].
  unfold take_slice_with_rotation. rewrite Hrotated, Hvol. cbn [bind].
  rewrite (get_weight_and_index_eq s rotated vl (Z.of_nat n) Hs Hrs Hrl).
  rewrite (np_prod_dim_nonempty s Hs). cbn [bind fst snd]. reflexivity.
Qed.

Lemma take_slice_window_cases
  (s : list nat) (pixel_momentum rot_mat volume rotated : ndarray R)
  (vl : R) (n : nat) :
  s <> [] ->
  shape pixel_momentum = s ++ [3%nat] ->
  shape rot_mat = [3; 3]%nat ->
  shape volume = [n; n; n] ->
  well_formed volume ->
  rotate_pixels_in_reciprocal_space rot_mat pixel_momentum = Ok rotated ->
  let pvu := map (fun x => x + center_shift (Z.of_nat n))%R
               (map (fun x => x / vl)%R (data rotated)) in
  let tmp_index := map np_floor pvu in
  let dfloor := np_map2 (fun x t => x - IZR t)%R pvu tmp_index in
  ((forall i, (i < np_prod s)%nat ->
      corners_in_window (data rotated) vl n i) ->
   take_slice_with_rotation s pixel_momentum volume vl rot_mat
   = Ok (mk_ndarray s
           (map (fun i =>
                   np_sum
                     (np_map2 Rmult
                        (stencil_weights dfloor
                           (map (fun x => 1 - x)%R dfloor) i)
                        (map (voxel_at volume)
                           (corner_flat_indexes n tmp_index i))))
              (seq 0 (np_prod s))))) /\
  ((exists i, (i < np_prod s)%nat /\
      ~ corners_in_window (data rotated) vl n i) ->
   take_slice_with_rotation s pixel_momentum volume vl rot_mat
   = Raise IndexError).
Proof.
  intros Hs Hpix Hrot Hvol Hwf Hrotated pvu tmp_index dfloor.
  destruct (take_slice_with_rotation_stencil s pixel_momentum rot_mat volume
              rotated vl n Hs Hpix Hrot Hvol Hrotated) as [Hlen Hstart].
  rewrite Hstart.
  destruct (take_one_slice_stencil n volume s (s ++ [8; 3]%nat)
              (s ++ [8]%nat) tmp_index
              (stencil_weights dfloor (map (fun x => 1 - x)%R dfloor))
              (fun i => eq_refl) Hvol Hwf) as [Hok Hfail].
  split.
  - intros Hin. apply Hok. apply Forall_flat_map_seq. intros i Hi.
    apply corners_in_window_Forall; [lia | apply Hin; exact Hi].
  - intros (i & Hi & Hout). apply Hfail.
    apply (Exists_flat_map_seq _ _ _ i Hi).
    unfold tmp_index, pvu.
    rewrite (corner_flat_indexes_base (data rotated) vl n i) by lia.
    unfold corners_in_window in Hout.
    set (L := base_flat_index (data rotated) vl n i) in *.
    destruct (Z_lt_dec L (- Z.of_nat (n * n * n))) as [Hlow|Hlow].
    + apply Exists_cons_hd. unfold in_window. lia.
    + do 7 apply Exists_cons_tl. apply Exists_cons_hd. unfold in_window. lia.
Qed.

(** ** The slice on int64 indexes *)

Lemma stencil_indexes_int64_eq (tmp_index : list Z) (i : nat) :
  (forall k, (k < 3)%nat ->
     (int64_min <= at2 0%Z 3 tmp_index i k < int64_max)%Z) ->
  stencil_indexes_int64 tmp_index i = stencil_indexes tmp_index i.
Proof.
  intros Hfit. unfold stencil_indexes_int64, stencil_indexes.
  pose proof (Hfit 0%nat ltac:(lia)) as H0.
  pose proof (Hfit 1%nat ltac:(lia)) as H1.
  pose proof (Hfit 2%nat ltac:(lia)) as H2.
  rewrite !wrap_int64_fits by (unfold fits_int64; lia).
  reflexivity.
Qed.

Lemma matmul_vec3_int64_eq (rows : list (list Z)) (v : list Z) :
  Forall fits_int64 (matmul_vec3 rows v) ->
  matmul_vec3_int64 rows v = matmul_vec3 rows v.
Proof.
  unfold matmul_vec3_int64, matmul_vec3. intros Hfit.
  apply map_ext_in. intros r Hr. apply wrap_int64_fits.
  rewrite Forall_forall in Hfit. apply Hfit.
  apply in_map_iff. exists r. split; [reflexivity | exact Hr].
Qed.

Lemma take_one_slice_int64_eq
  (local_index : ndarray Z) (local_weight volume : ndarray R)
  (pixel_num : nat) (pattern_shape : list nat) (n : nat) (rest : list nat) :
  shape volume = n :: rest ->
  Forall fits_int64
    (matmul_vec3 (np_rows 3 (pixel_num * 8) (data local_index))
       [Z.of_nat n * Z.of_nat n; Z.of_nat n; 1]%Z) ->
  take_one_slice_int64 local_index local_weight volume pixel_num
    pattern_shape
  = take_one_slice local_index local_weight volume pixel_num pattern_shape.
Proof.
  intros Hshape Hfit. unfold take_one_slice_int64, take_one_slice.
  rewrite Hshape.
  destruct (np_reshape local_index [pixel_num; 8; 3]%nat)
    as [index_2d|e] eqn:Hindex; [|reflexivity].
  assert (Hdata : data index_2d = data local_index).
  { unfold np_reshape in Hindex.
    destruct (Nat.eqb (length (data local_index))
                (np_prod [pixel_num; 8; 3]%nat)); [|discriminate].
    injection Hindex as <-. reflexivity. }
  cbn [bind]. rewrite Hdata, (matmul_vec3_int64_eq _ _ Hfit). reflexivity.
Qed.

(** When the floors of every pixel fit, the cast keeps them all. *)
Lemma floors_fit_pixels (p : list R) (vl : R) (n P : nat) :
  length p = (P * 3)%nat ->
  (forall i k, (i < P)%nat -> (k < 3)%nat ->
     fits_int64 (voxel_floor p vl n i k)) ->
  map np_floor_int64
    (map (fun x => x + center_shift (Z.of_nat n))%R
       (map (fun x => x / vl)%R p))
  = map np_floor
      (map (fun x => x + center_shift (Z.of_nat n))%R
         (map (fun x => x / vl)%R p)).
Proof.
  intros Hlen Hfit. apply floors_fit_map. rewrite map_map.
  apply Forall_map. apply Forall_forall. intros x Hx.
  destruct (In_nth _ _ 0%R Hx) as (j & Hj & <-).
  pose proof (Nat.div_mod_eq j 3) as Hdiv.
  pose proof (Nat.mod_upper_bound j 3 ltac:(lia)) as Hmod.
  assert (Hi : (j / 3 < P)%nat) by (apply Nat.Div0.div_lt_upper_bound; lia).
  specialize (Hfit (j / 3)%nat (j mod 3)%nat Hi Hmod).
  unfold voxel_floor, at2, np_floor in Hfit.
  rewrite <- Hdiv in Hfit. exact Hfit.
Qed.

Lemma stencil_fits_floor (p : list R) (vl : R) (n i k : nat) :
  stencil_fits_int64 p vl n i -> (k < 3)%nat ->
  fits_int64 (voxel_floor p vl n i k).
Proof.
  intros (Hfloor & _) Hk. specialize (Hfloor k Hk).
  unfold fits_int64. lia.
Qed.

(** Under [stencil_fits_int64] the int64 stencil is the stencil. *)
Lemma get_weight_and_index_int64_fits
  (s : list nat) (p : ndarray R) (vl : R) (n : nat) :
  s <> [] ->
  shape p = s ++ [3%nat] ->
  length (data p) = (np_prod s * 3)%nat ->
  (forall i, (i < np_prod s)%nat -> stencil_fits_int64 (data p) vl n i) ->
  get_weight_and_index_int64 p vl (Z.of_nat n)
  = get_weight_and_index p vl (Z.of_nat n).
Proof.
  intros Hs Hshape Hlen Hfit.
  rewrite (get_weight_and_index_int64_eq s p vl (Z.of_nat n) Hs Hshape Hlen).
  rewrite (get_weight_and_index_eq s p vl (Z.of_nat n) Hs Hshape Hlen).
  rewrite (floors_fit_pixels (data p) vl n (np_prod s) Hlen)
    by (intros i k Hi Hk; apply stencil_fits_floor; [apply Hfit; exact Hi
                                                     | exact Hk]).
  f_equal. f_equal. f_equal.
  rewrite !flat_map_concat_map. f_equal.
  apply map_ext_in. intros i Hi. apply in_seq in Hi.
  apply stencil_indexes_int64_eq. intros k Hk.
  rewrite voxel_floor_at2 by lia.
  destruct (Hfit i ltac:(lia)) as (Hfloor & _). apply Hfloor. exact Hk.
Qed.

(** Under [stencil_fits_int64] one pass on int64 indexes is the pass on
    exact indexes. *)
Lemma take_slice_with_rotation_int64_fits
  (s : list nat) (pixel_momentum rot_mat volume rotated : ndarray R)
  (vl : R) (n : nat) :
  s <> [] ->
  shape pixel_momentum = s ++ [3%nat] ->
  shape rot_mat = [3; 3]%nat ->
  shape volume = [n; n; n] ->
  rotate_pixels_in_reciprocal_space rot_mat pixel_momentum = Ok rotated ->
  (forall i, (i < np_prod s)%nat ->
     stencil_fits_int64 (data rotated) vl n i) ->
  take_slice_with_rotation_int64 s pixel_momentum volume vl rot_mat
  = take_slice_with_rotation s pixel_momentum volume vl rot_mat.
Proof.
  intros Hs Hpix Hrot Hvol Hrotated Hfit.
  destruct (rotate_pixels_ok s rot_mat pixel_momentum Hrot Hpix)
    as (rotated' & Hr & Hrs & Hrl).
  rewrite Hrotated in Hr. injection Hr as <-.
  unfold take_slice_with_rotation_int64, take_slice_with_rotation.
  rewrite Hrotated, Hvol. cbn [bind].
  rewrite (get_weight_and_index_int64_fits s rotated vl n Hs Hrs Hrl Hfit).
  rewrite (get_weight_and_index_eq s rotated vl (Z.of_nat n) Hs Hrs Hrl).
  rewrite (np_prod_dim_nonempty s Hs). cbn [bind fst snd].
  apply (take_one_slice_int64_eq _ _ _ _ _ n [n; n] Hvol).
  cbn [data]. rewrite stencil_flat_indexes.
  apply Forall_flat_map_seq. intros i Hi.
  rewrite (corner_flat_indexes_base (data rotated) vl n i) by lia.
  destruct (Hfit i Hi) as (_ & Hlo & Hhi).
  set (L := base_flat_index (data rotated) vl n i) in *.
  set (v := Z.of_nat n) in *.
  assert (Hv : (0 <= v)%Z) by (unfold v; lia).
  unfold fits_int64.
  repeat (apply Forall_cons; [nia|]). apply Forall_nil.
Qed.

(** X14. On a volume whose voxel count fits int64, and pixels whose
    floors, with their successors, and whose eight flat corner indexes all
    fit int64, one pass of the slicing loop returns an image of the pattern
    shape when the eight flat corner indexes of every pixel lie in
    [-n^3, n^3), and raises [IndexError] as soon as one pixel has a corner
    outside it.  Corners outside the cube but inside that range do not
    raise. *)
Theorem take_slice_index_error_iff_outside_window
  (s : list nat) (pixel_momentum rot_mat volume rotated : ndarray R)
  (voxel_length : R) (n : nat) :
  (0 < voxel_length)%R ->
  s <> [] ->
  shape pixel_momentum = s ++ [3%nat] ->
  shape rot_mat = [3; 3]%nat ->
  shape volume = [n; n; n] ->
  well_formed volume ->
  (Z.of_nat (n * n * n) <= int64_max)%Z ->
  rotate_pixels_in_reciprocal_space rot_mat pixel_momentum = Ok rotated ->
  (forall i, (i < np_prod s)%nat ->
     stencil_fits_int64 (data rotated) voxel_length n i) ->
  ((forall i, (i < np_prod s)%nat ->
      corners_in_window (data rotated) voxel_length n i) ->
   exists image,
     take_slice_with_rotation_int64 s pixel_momentum volume voxel_length
       rot_mat = Ok image /\
     shape image = s /\ length (data image) = np_prod s) /\
  ((exists i, (i < np_prod s)%nat /\
      ~ corners_in_window (data rotated) voxel_length n i) ->
   take_slice_with_rotation_int64 s pixel_momentum volume voxel_length
     rot_mat = Raise IndexError).
Proof.
  intros _ Hs Hpix Hrot Hvol Hwf _ Hrotated Hfit.
  rewrite (take_slice_with_rotation_int64_fits s pixel_momentum rot_mat
             volume rotated voxel_length n Hs Hpix Hrot Hvol Hrotated Hfit).
  destruct (take_slice_window_cases s pixel_momentum rot_mat volume rotated
              voxel_length n Hs Hpix Hrot Hvol Hwf Hrotated) as [Hok Hfail].
  split; [|exact Hfail].
  intros Hin. rewrite (Hok Hin). eexists. split; [reflexivity|].
  split; [reflexivity|]. cbn [data]. rewrite length_map, length_seq.
  reflexivity.
Qed.

Lemma convex8 (w0 w1 w2 w3 w4 w5 w6 w7 v0 v1 v2 v3 v4 v5 v6 v7 lo hi : R) :
  Forall (fun w => 0 <= w)%R [w0; w1; w2; w3; w4; w5; w6; w7] ->
  (w0 + w1 + w2 + w3 + w4 + w5 + w6 + w7 = 1)%R ->
  Forall (fun v => lo <= v <= hi)%R [v0; v1; v2; v3; v4; v5; v6; v7] ->
  (lo <= np_sum (np_map2 Rmult [w0; w1; w2; w3; w4; w5; w6; w7]
                   [v0; v1; v2; v3; v4; v5; v6; v7]) <= hi)%R.
Proof.
  intros Hw Hsum Hv.
  repeat match goal with
         | H : Forall _ (_ :: _) |- _ =>
             let Hhead := fresh "Hhead" in
             let Htail := fresh "Htail" in
             inversion H as [|? ? Hhead Htail]; subst; clear H
         | H : Forall _ [] |- _ => clear H
         end.
  unfold np_sum, np_map2. cbn [combine map fold_left fst snd].
  split; nra.
Qed.

Lemma dfloor_is_frac (pvu : list R) :
  np_map2 (fun x t => x - IZR t)%R pvu (map np_floor pvu) = map frac pvu.
Proof. rewrite np_map2_map_r. reflexivity. Qed.

Lemma stencil_weights_frac (pvu : list R) (i : nat) :
  (3 * i + 2 < length pvu)%nat ->
  stencil_weights (map frac pvu) (map (fun x => 1 - x)%R (map frac pvu)) i
  = trilinear_weights (frac (at2 0%R 3 pvu i 0)) (frac (at2 0%R 3 pvu i 1))
      (frac (at2 0%R 3 pvu i 2)).
Proof.
  intros Hlen. unfold stencil_weights, trilinear_weights.
  rewrite map_map.
  rewrite !(at2_map _ 0%R 0%R) by lia. reflexivity.
Qed.

Lemma voxel_unit_at2 (p : list R) (vl shift : R) (i k : nat) :
  (3 * i + k < length p)%nat ->
  at2 0%R 3 (map (fun x => x + shift)%R (map (fun x => x / vl)%R p)) i k
  = (at2 0%R 3 p i k / vl + shift)%R.
Proof.
  intros Hlen. rewrite map_map. rewrite (at2_map _ 0%R 0%R) by exact Hlen.
  reflexivity.
Qed.

Lemma trilinear_weights_nonneg (f0 f1 f2 : R) :
  (0 <= f0 < 1)%R -> (0 <= f1 < 1)%R -> (0 <= f2 < 1)%R ->
  Forall (fun w => 0 <= w)%R (trilinear_weights f0 f1 f2).
Proof.
  intros H0 H1 H2. unfold trilinear_weights.
  repeat (apply Forall_cons;
          [apply Rmult_le_pos; [apply Rmult_le_pos|]; lra|]).
  apply Forall_nil.
Qed.

Lemma voxel_at_in_range (volume : ndarray R) (lo hi : R) (z : Z) :
  data volume <> [] ->
  Forall (fun v => lo <= v <= hi)%R (data volume) ->
  (lo <= voxel_at volume z <= hi)%R.
Proof.
  intros Hne Hall. unfold voxel_at.
  rewrite Forall_forall in Hall. apply Hall. apply nth_In.
  assert (Hpos : (0 < Z.of_nat (length (data volume)))%Z).
  { destruct (data volume); [contradiction | cbn [length]; lia]. }
  pose proof (Z.mod_pos_bound z _ Hpos). lia.
Qed.

(** X15. On a volume whose voxel count fits int64, and pixels whose
    floors, with their successors, and whose eight flat corner indexes all
    fit int64: when every voxel of the volume lies between [lo] and [hi]
    and the corner indexes of every pixel are accepted, every pixel of the
    slice lies between [lo] and [hi]: trilinear sampling never
    overshoots. *)
Theorem slice_within_volume_range
  (s : list nat) (pixel_momentum rot_mat volume rotated : ndarray R)
  (voxel_length : R) (n : nat) (lo hi : R) :
  (0 < voxel_length)%R ->
  s <> [] ->
  shape pixel_momentum = s ++ [3%nat] ->
  shape rot_mat = [3; 3]%nat ->
  shape volume = [n; n; n] ->
  well_formed volume ->
  (Z.of_nat (n * n * n) <= int64_max)%Z ->
  rotate_pixels_in_reciprocal_space rot_mat pixel_momentum = Ok rotated ->
  (forall i, (i < np_prod s)%nat ->
     stencil_fits_int64 (data rotated) voxel_length n i) ->
  (forall i, (i < np_prod s)%nat ->
     corners_in_window (data rotated) voxel_length n i) ->
  Forall (fun v => lo <= v <= hi)%R (data volume) ->
  exists image,
    take_slice_with_rotation_int64 s pixel_momentum volume voxel_length
      rot_mat = Ok image /\
    shape image = s /\
    Forall (fun v => lo <= v <= hi)%R (data image).
Proof.
  intros _ Hs Hpix Hrot Hvol Hwf _ Hrotated Hfit Hin Hrange.
  rewrite (take_slice_with_rotation_int64_fits s pixel_momentum rot_mat
             volume rotated voxel_length n Hs Hpix Hrot Hvol Hrotated Hfit).
  destruct (take_slice_window_cases s pixel_momentum rot_mat volume rotated
              voxel_length n Hs Hpix Hrot Hvol Hwf Hrotated) as [Hok _].
  destruct (take_slice_with_rotation_stencil s pixel_momentum rot_mat volume
              rotated voxel_length n Hs Hpix Hrot Hvol Hrotated)
    as [Hlen _].
  rewrite (Hok Hin). eexists. split; [reflexivity|]. split; [reflexivity|].
  cbn [data]. apply Forall_forall. intros x Hx.
  apply in_map_iff in Hx. destruct Hx as (i & <- & Hi).
  apply in_seq in Hi.
  assert (Hne : data volume <> []).
  { intros Hnil. destruct (Hin i ltac:(lia)) as [Hlo Hhi].
    unfold well_formed in Hwf. rewrite Hnil, Hvol in Hwf.
    cbn [length np_prod fold_right] in Hwf.
    replace (n * n * n)%nat with 0%nat in * by lia. lia. }
  rewrite dfloor_is_frac.
  set (pvu := map (fun x => x + center_shift (Z.of_nat n))%R
                (map (fun x => x / voxel_length)%R (data rotated))).
  rewrite stencil_weights_frac
    by (unfold pvu; rewrite !length_map; lia).
  rewrite corner_flat_indexes_offsets.
  cbn [map]. unfold trilinear_weights.
  apply convex8.
  - apply (trilinear_weights_nonneg _ _ _ (frac_bounds _) (frac_bounds _)
             (frac_bounds _)).
  - generalize (frac (at2 0%R 3 pvu i 0)), (frac (at2 0%R 3 pvu i 1)),
      (frac (at2 0%R 3 pvu i 2)).
    intros f0 f1 f2. ring.
  - repeat (apply Forall_cons; [apply voxel_at_in_range; assumption|]).
    apply Forall_nil.
Qed.

Lemma frac_IZR (z : Z) : frac (IZR z) = 0%R.
Proof.
  unfold frac. rewrite <- (Int_part_spec (IZR z) z) by lra. lra.
Qed.

(** X16. When the voxel-unit coordinates of every pixel are whole numbers
    [t i 0], [t i 1], [t i 2] between 0 and [n - 2], the slice holds the
    voxels [volume[t i 0, t i 1, t i 2]] themselves. *)
Theorem slice_on_grid_nodes
  (s : list nat) (pixel_momentum rot_mat volume rotated : ndarray R)
  (voxel_length : R) (n : nat) (t : nat -> nat -> Z) :
  (0 < voxel_length)%R ->
  s <> [] ->
  shape pixel_momentum = s ++ [3%nat] ->
  shape rot_mat = [3; 3]%nat ->
  shape volume = [n; n; n] ->
  well_formed volume ->
  rotate_pixels_in_reciprocal_space rot_mat pixel_momentum = Ok rotated ->
  (forall i k, (i < np_prod s)%nat -> (k < 3)%nat ->
     (at2 0 3 (data rotated) i k / voxel_length
      + center_shift (Z.of_nat n) = IZR (t i k))%R /\
     (0 <= t i k <= Z.of_nat n - 2)%Z) ->
  take_slice_with_rotation s pixel_momentum volume voxel_length rot_mat
  = Ok (mk_ndarray s
          (map (fun i => voxel volume n (t i 0%nat) (t i 1%nat) (t i 2%nat))
             (seq 0 (np_prod s)))).
Proof.
  intros _ Hs Hpix Hrot Hvol Hwf Hrotated Hnode.
  destruct (take_slice_window_cases s pixel_momentum rot_mat volume rotated
              voxel_length n Hs Hpix Hrot Hvol Hwf Hrotated) as [Hok _].
  destruct (take_slice_with_rotation_stencil s pixel_momentum rot_mat volume
              rotated voxel_length n Hs Hpix Hrot Hvol Hrotated)
    as [Hlen _].
  assert (Hfloor : forall i k, (i < np_prod s)%nat -> (k < 3)%nat ->
            voxel_floor (data rotated) voxel_length n i k = t i k).
  { intros i k Hi Hk. unfold voxel_floor.
    rewrite (proj1 (Hnode i k Hi Hk)). apply np_floor_eq. lra. }
  assert (Hbase : forall i, (i < np_prod s)%nat ->
            base_flat_index (data rotated) voxel_length n i
            = (t i 0%nat * (Z.of_nat n * Z.of_nat n)
               + t i 1%nat * Z.of_nat n + t i 2%nat)%Z).
  { intros i Hi. unfold base_flat_index. rewrite !Hfloor by lia.
    reflexivity. }
  assert (Hbound : forall i, (i < np_prod s)%nat ->
            (0 <= base_flat_index (data rotated) voxel_length n i
             /\ base_flat_index (data rotated) voxel_length n i
                + Z.of_nat n * Z.of_nat n + Z.of_nat n + 1
                < Z.of_nat (n * n * n))%Z).
  { intros i Hi. rewrite (Hbase i Hi).
    pose proof (proj2 (Hnode i 0%nat Hi ltac:(lia))).
    pose proof (proj2 (Hnode i 1%nat Hi ltac:(lia))).
    pose proof (proj2 (Hnode i 2%nat Hi ltac:(lia))).
    rewrite !Nat2Z.inj_mul. nia. }
  rewrite Hok.
  2:{ intros i Hi. unfold corners_in_window.
      destruct (Hbound i Hi). lia. }
  apply f_equal. apply f_equal. apply map_ext_in. intros i Hi.
  apply in_seq in Hi.
  rewrite dfloor_is_frac.
  rewrite stencil_weights_frac by (rewrite !length_map; lia).
  rewrite !voxel_unit_at2 by lia.
  rewrite (proj1 (Hnode i 0%nat ltac:(lia) ltac:(lia))).
  rewrite (proj1 (Hnode i 1%nat ltac:(lia) ltac:(lia))).
  rewrite (proj1 (Hnode i 2%nat ltac:(lia) ltac:(lia))).
  rewrite !frac_IZR.
  rewrite (corner_flat_indexes_base (data rotated) voxel_length n i) by lia.
  cbn [map]. unfold trilinear_weights, np_sum, np_map2.
  cbn [combine map fold_left fst snd].
  match goal with
  | |- ?lhs = _ =>
      replace lhs with
        (voxel_at volume (base_flat_index (data rotated) voxel_length n i))
        by ring
  end.
  unfold voxel_at, voxel. rewrite <- (Hbase i) by lia.
  destruct (Hbound i ltac:(lia)) as [Hlo Hhi].
  assert (Hvlen : length (data volume) = (n * n * n)%nat).
  { unfold well_formed in Hwf. rewrite Hwf, Hvol.
    cbn [np_prod fold_right]. lia. }
  rewrite Hvlen, Z.mod_small by lia. reflexivity.
Qed.

(** ** Rotating the pixel grid *)

Lemma flat_map_rows3 {A : Type} (d : A) (P : nat) (l : list A) :
  length l = (P * 3)%nat ->
  flat_map (fun i => [at2 d 3 l i 0; at2 d 3 l i 1; at2 d 3 l i 2]) (seq 0 P)
  = l.
Proof.
  revert l. induction P as [|P IH]; intros l Hlen.
  - destruct l; [reflexivity | discriminate].
  - destruct l as [|a [|b [|c l]]]; try discriminate.
    cbn [seq flat_map app]. rewrite <- seq_shift, flat_map_concat_map, map_map.
    rewrite <- flat_map_concat_map.
    unfold at2 at 1 2 3. cbn [Nat.mul Nat.add nth].
    do 3 f_equal.
    transitivity
      (flat_map (fun i => [at2 d 3 l i 0; at2 d 3 l i 1; at2 d 3 l i 2])
         (seq 0 P)).
    + apply flat_map_ext. intros i. unfold at2.
      replace (3 * S i)%nat with (S (S (S (3 * i))))%nat by lia.
      reflexivity.
    + apply IH. cbn [length] in Hlen. lia.
Qed.

(** X17. Rotating a pixel grid by the identity matrix returns the grid
    unchanged, for every grid of three-component positions. *)
Theorem rotate_pixels_by_identity (s : list nat) (pixels_position : ndarray R) :
  shape pixels_position = s ++ [3%nat] ->
  well_formed pixels_position ->
  rotate_pixels_in_reciprocal_space identity_rotation pixels_position
  = Ok pixels_position.
Proof.
  intros Hshape Hwf. destruct pixels_position as [sh d].
  cbn [shape data] in *. subst sh.
  unfold well_formed in Hwf. cbn [shape data] in Hwf.
  rewrite np_prod_app in Hwf. cbn [np_prod fold_right] in Hwf.
  unfold rotate_pixels_in_reciprocal_space, identity_rotation.
  cbn [shape data]. rewrite last_last, removelast_snoc, length_app.
  cbn [length]. rewrite Nat.eqb_refl.
  replace (Nat.eqb (length s + 1) 0) with false
    by (symmetry; apply Nat.eqb_neq; lia).
  cbn [andb negb]. apply f_equal. apply f_equal.
  transitivity
    (flat_map (fun i => [at2 0%R 3 d i 0; at2 0%R 3 d i 1; at2 0%R 3 d i 2])
       (seq 0 (np_prod s))); [|apply flat_map_rows3; lia].
  apply flat_map_ext. intros i.
  unfold np_sum. cbn [seq map fold_left].
  set (x0 := at2 0%R 3 d i 0). set (x1 := at2 0%R 3 d i 1).
  set (x2 := at2 0%R 3 d i 2).
  unfold at2. cbn [Nat.mul Nat.add nth].
  repeat (apply (f_equal2 (@cons R)); [ring|]). reflexivity.
Qed.

Lemma rotate_pixels_by_identity_witness :
  rotate_pixels_in_reciprocal_space identity_rotation
    (mk_ndarray [2; 3]%nat [1; 2; 3; 4; 5; 6]%R)
  = Ok (mk_ndarray [2; 3]%nat [1; 2; 3; 4; 5; 6]%R).
Proof.
  apply (rotate_pixels_by_identity [2%nat]
           (mk_ndarray [2; 3]%nat [1; 2; 3; 4; 5; 6]%R));
    reflexivity.
Defined.

(** X18. Rotating a pixel grid by a rotation matrix keeps the grid's shape
    and the length of every pixel's position vector. *)
Theorem rotate_pixels_preserves_norm
  (s : list nat) (rot_mat pixels_position : ndarray R) :
  is_rotation rot_mat ->
  shape pixels_position = s ++ [3%nat] ->
  well_formed pixels_position ->
  exists rotated,
    rotate_pixels_in_reciprocal_space rot_mat pixels_position = Ok rotated /\
    shape rotated = s ++ [3%nat] /\
    forall i, (i < np_prod s)%nat ->
      sum_square (np_row 3 i (data rotated))
      = sum_square (np_row 3 i (data pixels_position)).
Proof.
  intros Hrot Hshape Hwf.
  destruct (is_rotation_entries rot_mat Hrot)
    as (a0 & a1 & a2 & a3 & a4 & a5 & a6 & a7 & a8 & -> &
        A00 & A11 & A22 & A01 & A02 & A12 & _).
  unfold well_formed in Hwf. rewrite Hshape, np_prod_app in Hwf.
  cbn [np_prod fold_right] in Hwf.
  unfold rotate_pixels_in_reciprocal_space. cbn [shape data].
  rewrite Hshape, last_last, removelast_snoc, length_app.
  cbn [length]. rewrite Nat.eqb_refl.
  replace (Nat.eqb (length s + 1) 0) with false
    by (symmetry; apply Nat.eqb_neq; lia).
  cbn [andb negb]. eexists. split; [reflexivity|]. split; [reflexivity|].
  intros i Hi. cbn [data].
  rewrite (np_row_flat_map 3 _ _ 0%nat)
    by (try (intros a; reflexivity); rewrite length_seq; exact Hi).
  rewrite seq_nth by exact Hi. cbn [Nat.add].
  rewrite (np_row3_at2 0%R (data pixels_position) i) by lia.
  unfold sum_square, np_sum. cbn [seq map fold_left].
  set (x0 := at2 0%R 3 (data pixels_position) i 0).
  set (x1 := at2 0%R 3 (data pixels_position) i 1).
  set (x2 := at2 0%R 3 (data pixels_position) i 2).
  unfold at2. cbn [Nat.mul Nat.add nth].
  pose proof (orthonormal_preserves_dot a0 a1 a2 a3 a4 a5 a6 a7 a8
                x0 x1 x2 x0 x1 x2 A00 A11 A22 A01 A02 A12).
  lra.
Qed.

Lemma rotate_pixels_preserves_norm_witness :
  exists rotated,
    rotate_pixels_in_reciprocal_space
      (mk_ndarray [3; 3]%nat [0; -1; 0; 1; 0; 0; 0; 0; 1]%R)
      (mk_ndarray [1; 3]%nat [1; 2; 3]%R) = Ok rotated /\
    shape rotated = [1; 3]%nat /\
    forall i, (i < 1)%nat ->
      sum_square (np_row 3 i (data rotated))
      = sum_square (np_row 3 i [1; 2; 3]%R).
Proof.
  apply (rotate_pixels_preserves_norm [1%nat]
           (mk_ndarray [3; 3]%nat [0; -1; 0; 1; 0; 0; 0; 0; 1]%R)
           (mk_ndarray [1; 3]%nat [1; 2; 3]%R)).
  - apply is_rotation_of_entries; [reflexivity | |].
    + three_by_three; lra.
    + unfold det3, entry, at2. cbn [data nth Nat.mul Nat.add]. lra.
  - reflexivity.
  - reflexivity.
Defined.

(** ** The two stencil builders *)

(** X19. On a well-formed stack of panels, [get_weight_in_reciprocal_space]
    returns exactly what [get_weight_and_index] returns: the same corner
    indexes and the same weights, in the same shapes. *)
Theorem stencil_builders_agree
  (pixel_position : ndarray R) (voxel_length : R) (voxel_num_1d : Z)
  (num_panel num_x num_y : nat) :
  (0 < voxel_length)%R ->
  shape pixel_position = [num_panel; num_x; num_y; 3%nat] ->
  well_formed pixel_position ->
  get_weight_in_reciprocal_space pixel_position voxel_length voxel_num_1d
  = get_weight_and_index pixel_position voxel_length voxel_num_1d.
Proof.
  intros _ Hshape Hwf.
  assert (Hlen : length (data pixel_position)
                 = (np_prod [num_panel; num_x; num_y] * 3)%nat).
  { unfold well_formed in Hwf. rewrite Hwf, Hshape.
    cbn [np_prod fold_right]. lia. }
  rewrite (get_weight_and_index_eq [num_panel; num_x; num_y] pixel_position
             voxel_length voxel_num_1d ltac:(discriminate) Hshape Hlen).
  unfold get_weight_in_reciprocal_space. rewrite Hshape.
  cbn [Nat.eqb app]. rewrite !map_map.
  replace (num_panel * num_x * num_y)%nat
    with (np_prod [num_panel; num_x; num_y])
    by (cbn [np_prod fold_right]; lia).
  reflexivity.
Qed.

Lemma stencil_builders_agree_witness :
  get_weight_in_reciprocal_space
    (mk_ndarray [1; 1; 1; 3]%nat [1 / 2; 0; - (1 / 4)]%R) 1%R 3%Z
  = get_weight_and_index
      (mk_ndarray [1; 1; 1; 3]%nat [1 / 2; 0; - (1 / 4)]%R) 1%R 3%Z.
Proof.
  apply (stencil_builders_agree
           (mk_ndarray [1; 1; 1; 3]%nat [1 / 2; 0; - (1 / 4)]%R) 1%R 3%Z
           1 1 1 Rlt_0_1); reflexivity.
Defined.

(** X20. When the whole part of each voxel-unit coordinate of every pixel
    is an int64 below the largest one, [get_weight_and_index] lists, for
    each pixel, eight corners of three indexes each: component [k] of
    corner [c] is the whole part of the pixel's voxel-unit coordinate [k]
    plus the bit of [c] that belongs to axis [k], the first axis taking
    the highest bit. *)
Theorem stencil_corner_indexes_are_floor_plus_bit
  (s : list nat) (pixel_position : ndarray R) (voxel_length : R) (n : nat) :
  (0 < voxel_length)%R ->
  s <> [] ->
  shape pixel_position = s ++ [3%nat] ->
  well_formed pixel_position ->
  (forall i k, (i < np_prod s)%nat -> (k < 3)%nat ->
     (int64_min <= voxel_floor (data pixel_position) voxel_length n i k
      < int64_max)%Z) ->
  exists indexes weight,
    get_weight_and_index_int64 pixel_position voxel_length (Z.of_nat n)
    = Ok (indexes, weight) /\
    shape indexes = s ++ [8; 3]%nat /\
    forall i c k, (i < np_prod s)%nat -> (c < 8)%nat -> (k < 3)%nat ->
      nth (24 * i + (3 * c + k)) (data indexes) 0%Z
      = (voxel_floor (data pixel_position) voxel_length n i k
         + Z.of_nat ((c / 2 ^ (2 - k)) mod 2))%Z.
Proof.
  intros _ Hs Hshape Hwf Hfit.
  assert (Hlen : length (data pixel_position) = (np_prod s * 3)%nat).
  { unfold well_formed in Hwf. rewrite Hwf, Hshape, np_prod_app.
    cbn [np_prod fold_right]. lia. }
  rewrite (get_weight_and_index_int64_eq s pixel_position voxel_length
             (Z.of_nat n) Hs Hshape Hlen).
  eexists. eexists. split; [reflexivity|]. split; [reflexivity|].
  intros i c k Hi Hc Hk. cbn [data].
  rewrite <- (nth_np_row 24 i (3 * c + k)) by lia.
  rewrite (np_row_flat_map 24 _ _ 0%nat)
    by (try (intros a; reflexivity); rewrite length_seq; exact Hi).
  rewrite seq_nth by exact Hi. cbn [Nat.add].
  rewrite (floors_fit_pixels (data pixel_position) voxel_length n
             (np_prod s) Hlen)
    by (intros i' k' Hi' Hk'; specialize (Hfit i' k' Hi' Hk');
        unfold fits_int64; lia).
  rewrite stencil_indexes_int64_eq
    by (intros k' Hk'; rewrite voxel_floor_at2 by lia; apply Hfit;
        assumption).
  unfold stencil_indexes.
  rewrite !voxel_floor_at2 by lia.
  destruct k as [|[|[|k]]]; [| | |lia];
    (destruct c as [|[|[|[|[|[|[|[|c]]]]]]]]; [| | | | | | | |lia]);
    cbn [nth Nat.mul Nat.add]; cbn; lia.
Qed.

(** Witness of X20: one pixel at (1/2, 0, -1/4) on a 3-voxel grid. *)
Lemma stencil_corner_indexes_are_floor_plus_bit_witness :
  exists indexes weight,
    get_weight_and_index_int64
      (mk_ndarray [1; 3]%nat [1 / 2; 0; - (1 / 4)]%R) 1%R (Z.of_nat 3)
    = Ok (indexes, weight) /\
    shape indexes = [1; 8; 3]%nat /\
    forall i c k, (i < 1)%nat -> (c < 8)%nat -> (k < 3)%nat ->
      nth (24 * i + (3 * c + k)) (data indexes) 0%Z
      = (voxel_floor [1 / 2; 0; - (1 / 4)]%R 1%R 3 i k
         + Z.of_nat ((c / 2 ^ (2 - k)) mod 2))%Z.
Proof.
  apply (stencil_corner_indexes_are_floor_plus_bit [1%nat]
           (mk_ndarray [1; 3]%nat [1 / 2; 0; - (1 / 4)]%R) 1%R 3).
  - exact Rlt_0_1.
  - discriminate.
  - reflexivity.
  - reflexivity.
  - intros i k Hi Hk. cbn [np_prod fold_right Nat.mul] in Hi.
    assert (Hzero : i = 0%nat) by lia. subst i.
    unfold voxel_floor, at2. cbn [data].
    change (center_shift (Z.of_nat 3)) with 1%R.
    unfold int64_min, int64_max.
    destruct k as [|[|[|k]]]; [| | |lia]; cbn [nth Nat.mul Nat.add].
    + rewrite (np_floor_eq _ 1) by lra. lia.
    + rewrite (np_floor_eq _ 1) by lra. lia.
    + rewrite (np_floor_eq _ 0) by lra. lia.
Defined.

(** Evaluates the floors of a pixel whose voxel-unit coordinates lie in
    [0, 3). *)
Ltac pixel_floors :=
  unfold stencil_fits_int64, corners_in_window, base_flat_index,
    voxel_floor, at2, np_sum;
  cbn [data shape nth Nat.mul Nat.add flat_map map seq app removelast
       np_prod fold_right fold_left identity_rotation];
  change (center_shift (Z.of_nat 3)) with 1%R;
  repeat match goal with
         | |- context [np_floor ?r] =>
             first [ rewrite (np_floor_eq r 0) by lra
                   | rewrite (np_floor_eq r 1) by lra
                   | rewrite (np_floor_eq r 2) by lra ]
         end.

(** Witness of X14 on the 3-voxel grid.  The pixel (-1, 0, 3/2) has floors
    (0, 1, 2): four of its corners have third index 3, outside the cube,
    yet its flat indexes run from 5 to 18 and the pass returns.  The pixel
    (1, 1, 1) has floors (2, 2, 2): its last flat index is 39 and the pass
    raises. *)
Lemma take_slice_index_error_iff_outside_window_witness :
  (exists image,
     take_slice_with_rotation_int64 [1%nat]
       (mk_ndarray [1; 3]%nat [-1; 0; 3 / 2]%R)
       single_voxel_volume 1 identity_rotation = Ok image /\
     shape image = [1%nat] /\ length (data image) = np_prod [1%nat]) /\
  take_slice_with_rotation_int64 [1%nat]
    (mk_ndarray [1; 3]%nat [1; 1; 1]%R)
    single_voxel_volume 1 identity_rotation = Raise IndexError.
Proof.
  split.
  - refine (proj1 (take_slice_index_error_iff_outside_window [1%nat]
                     (mk_ndarray [1; 3]%nat [-1; 0; 3 / 2]%R)
                     identity_rotation single_voxel_volume _ 1 3 Rlt_0_1
                     ltac:(discriminate) eq_refl eq_refl eq_refl eq_refl
                     _ eq_refl _) _).
    + unfold int64_max. cbn. lia.
    + intros i Hi. cbn [np_prod fold_right Nat.mul] in Hi.
      assert (Hzero : i = 0%nat) by lia. subst i.
      pixel_floors. unfold int64_min, int64_max.
      split; [|cbn; lia].
      intros k Hk. destruct k as [|[|[|k]]]; [| | |lia];
        cbn [nth Nat.mul Nat.add]; pixel_floors; lia.
    + intros i Hi. cbn [np_prod fold_right Nat.mul] in Hi.
      assert (Hzero : i = 0%nat) by lia. subst i.
      pixel_floors. cbn. lia.
  - refine (proj2 (take_slice_index_error_iff_outside_window [1%nat]
                     (mk_ndarray [1; 3]%nat [1; 1; 1]%R)
                     identity_rotation single_voxel_volume _ 1 3 Rlt_0_1
                     ltac:(discriminate) eq_refl eq_refl eq_refl eq_refl
                     _ eq_refl _) _).
    + unfold int64_max. cbn. lia.
    + intros i Hi. cbn [np_prod fold_right Nat.mul] in Hi.
      assert (Hzero : i = 0%nat) by lia. subst i.
      pixel_floors. unfold int64_min, int64_max.
      split; [|cbn; lia].
      intros k Hk. destruct k as [|[|[|k]]]; [| | |lia];
        cbn [nth Nat.mul Nat.add]; pixel_floors; lia.
    + exists 0%nat. split; [cbn; lia|].
      pixel_floors. cbn. lia.
Defined.

(** Witness of X15: the pixel (1/2, 0, 0), half way between the voxel
    holding one and a voxel holding zero. *)
Lemma slice_within_volume_range_witness :
  exists image,
    take_slice_with_rotation_int64 [1%nat]
      (mk_ndarray [1; 3]%nat [1 / 2; 0; 0]%R)
      single_voxel_volume 1 identity_rotation = Ok image /\
    shape image = [1%nat] /\
    Forall (fun v => 0 <= v <= 1)%R (data image).
Proof.
  refine (slice_within_volume_range [1%nat]
            (mk_ndarray [1; 3]%nat [1 / 2; 0; 0]%R) identity_rotation
            single_voxel_volume _ 1 3 0 1 Rlt_0_1 ltac:(discriminate)
            eq_refl eq_refl eq_refl eq_refl _ eq_refl _ _ _).
  - unfold int64_max. cbn. lia.
  - intros i Hi. cbn [np_prod fold_right Nat.mul] in Hi.
    assert (Hzero : i = 0%nat) by lia. subst i.
    pixel_floors. unfold int64_min, int64_max.
    split; [|cbn; lia].
    intros k Hk. destruct k as [|[|[|k]]]; [| | |lia];
      cbn [nth Nat.mul Nat.add]; pixel_floors; lia.
  - intros i Hi. cbn [np_prod fold_right Nat.mul] in Hi.
    assert (Hzero : i = 0%nat) by lia. subst i.
    pixel_floors. cbn. lia.
  - unfold single_voxel_volume. cbn [data].
    repeat (apply Forall_cons; [lra|]). apply Forall_nil.
Defined.

Lemma slice_on_grid_nodes_witness :
  take_slice_with_rotation [1%nat] (mk_ndarray [1; 3]%nat [0; 0; 0]%R)
    single_voxel_volume 1 identity_rotation
  = Ok (mk_ndarray [1%nat]
          (map (fun _ => voxel single_voxel_volume 3 1 1 1)
             (seq 0 (np_prod [1%nat])))).
Proof.
  refine (slice_on_grid_nodes [1%nat]
            (mk_ndarray [1; 3]%nat [0; 0; 0]%R) identity_rotation
            single_voxel_volume _ 1 3 (fun _ _ => 1%Z) Rlt_0_1
            ltac:(discriminate) eq_refl eq_refl eq_refl eq_refl eq_refl _).
  intros i k Hi Hk. cbn [np_prod fold_right Nat.mul] in Hi.
  assert (Hzero : i = 0%nat) by lia. subst i.
  split; [|lia].
  change (center_shift (Z.of_nat 3)) with 1%R.
  destruct k as [|[|[|k]]]; [| | |lia];
    unfold at2, np_sum;
    cbn [data shape nth Nat.mul Nat.add flat_map map seq app removelast
         np_prod fold_right fold_left identity_rotation];
    lra.
Defined.

(** ** Reciprocal space and corrections *)

Lemma np_rows3_seq (P : nat) (l : list R) :
  length l = (P * 3)%nat ->
  np_rows 3 P l
  = map (fun i => [at2 0%R 3 l i 0; at2 0%R 3 l i 1; at2 0%R 3 l i 2])
      (seq 0 P).
Proof.
  intros Hlen.
  transitivity
    (np_rows 3 P
       (flat_map
          (fun i => [at2 0%R 3 l i 0; at2 0%R 3 l i 1; at2 0%R 3 l i 2])
          (seq 0 P))).
  - f_equal. symmetry. apply flat_map_rows3. exact Hlen.
  - apply np_rows_flat_map_seq. intros a. reflexivity.
Qed.

Lemma flat_map_map {A B C : Type} (f : B -> list C) (g : A -> B)
  (l : list A) :
  flat_map f (map g l) = flat_map (fun a => f (g a)) l.
Proof.
  induction l as [|a l IH]; cbn [map flat_map]; [reflexivity|].
  now rewrite IH.
Qed.

(** The rows the projector functions work on, and their unit
    directions. *)
Lemma pixel_directions (s : list nat) (pixel_center : ndarray R) :
  s <> [] ->
  shape pixel_center = s ++ [3%nat] ->
  well_formed pixel_center ->
  exists pixel_center_1d,
    reshape_pixels_position_arrays_to_1d pixel_center = Ok pixel_center_1d /\
    data pixel_center_1d = data pixel_center /\
    np_prod (removelast (shape pixel_center)) = np_prod s /\
    let rows := np_rows 3 (np_prod s) (data pixel_center) in
    rows
    = map (fun i =>
             [ at2 0%R 3 (data pixel_center) i 0;
               at2 0%R 3 (data pixel_center) i 1;
               at2 0%R 3 (data pixel_center) i 2 ])
        (seq 0 (np_prod s)) /\
    np_map2 (fun r nrm => map (fun x => x / nrm)%R r) rows
      (map (fun r => sqrt (sum_square r)) rows)
    = map (fun i =>
             let '(x, y, z) := unit3 (pixel3 (data pixel_center) i) in
             [x; y; z])
        (seq 0 (np_prod s)).
Proof.
  intros Hs Hshape Hwf.
  assert (Hlen : length (data pixel_center) = (np_prod s * 3)%nat).
  { unfold well_formed in Hwf. rewrite Hwf, Hshape, np_prod_app.
    cbn [np_prod fold_right]. lia. }
  unfold reshape_pixels_position_arrays_to_1d, np_reshape.
  rewrite Hshape, removelast_snoc, (np_prod_dim_nonempty s Hs). cbn [bind].
  replace (np_prod [np_prod s; 3%nat]) with (np_prod s * 3)%nat
    by (cbn [np_prod fold_right]; lia).
  rewrite Hlen, Nat.eqb_refl.
  eexists. split; [reflexivity|]. split; [reflexivity|].
  split; [reflexivity|].
  cbn zeta. rewrite (np_rows3_seq (np_prod s) _ Hlen).
  split; [reflexivity|].
  rewrite np_map2_map_r, map_map. apply map_ext. intros i.
  unfold pixel3, unit3, norm3. rewrite sum_square3. reflexivity.
Qed.

Lemma at2_flat_map_seq {B : Type} (d : B) (k P : nat) (H : nat -> list B)
  (i c : nat) :
  (forall a, length (H a) = k) ->
  (i < P)%nat -> (c < k)%nat ->
  at2 d k (flat_map H (seq 0 P)) i c = nth c (H i) d.
Proof.
  intros Hk Hi Hc. unfold at2.
  rewrite <- (nth_np_row k i c) by exact Hc.
  rewrite (np_row_flat_map k H (seq 0 P) 0%nat)
    by (try exact Hk; rewrite length_seq; exact Hi).
  rewrite seq_nth by exact Hi. reflexivity.
Qed.

Lemma norm3_pos (a : vec3) : a <> (0, 0, 0)%R -> (0 < norm3 a)%R.
Proof.
  intros Ha. pose proof (norm3_nonzero a Ha) as Hn.
  assert (Hge : (0 <= norm3 a)%R) by (unfold norm3; apply sqrt_pos). lra.
Qed.

Lemma reciprocal_position_aux
  (s : list nat) (pixel_center : ndarray R) (k0 k1 k2 : R) :
  s <> [] ->
  shape pixel_center = s ++ [3%nat] ->
  well_formed pixel_center ->
  exists q,
    get_reciprocal_space_pixel_position pixel_center [k0; k1; k2] = Ok q /\
    shape q = s ++ [3%nat] /\
    length (data q) = (np_prod s * 3)%nat /\
    forall i, (i < np_prod s)%nat ->
      pixel3 (data q) i
      = scale3 (norm3 (k0, k1, k2))
          (sub3 (unit3 (pixel3 (data pixel_center) i)) (unit3 (k0, k1, k2))).
Proof.
  intros Hs Hshape Hwf.
  destruct (pixel_directions s pixel_center Hs Hshape Hwf)
    as (pc1d & Hre & Hdata & Hprod & _ & Hdirs).
  unfold get_reciprocal_space_pixel_position. rewrite Hre. cbn [bind].
  rewrite Hdata, Hprod. cbn zeta in Hdirs. rewrite Hdirs.
  cbn [length Nat.eqb orb]. rewrite flat_map_map.
  set (H := fun a : nat => map _ _).
  assert (HH : forall a, length (H a) = 3%nat).
  { intros a. unfold H, pixel3, unit3. reflexivity. }
  unfold np_reshape. cbn [data].
  rewrite (length_flat_map_const 3 H) by exact HH.
  rewrite length_seq, Hshape, np_prod_app. cbn [np_prod fold_right].
  replace (np_prod s * (3 * 1))%nat with (np_prod s * 3)%nat by lia.
  rewrite Nat.eqb_refl.
  eexists. split; [reflexivity|]. split; [reflexivity|]. cbn [data].
  split; [rewrite (length_flat_map_const 3 H), length_seq by exact HH;
          reflexivity|].
  intros i Hi. unfold pixel3 at 1.
  rewrite !(at2_flat_map_seq 0%R 3 (np_prod s) H) by (try exact HH; lia).
  unfold H, pixel3, unit3, norm3, scale3, sub3, np_map2.
  rewrite sum_square3. cbn [map combine nth fst snd dot3]. reflexivity.
Qed.

Lemma ewald_sphere_identity (r k : vec3) :
  r <> (0, 0, 0)%R -> k <> (0, 0, 0)%R ->
  let q := scale3 (norm3 k) (sub3 (unit3 r) (unit3 k)) in
  dot3 (add3 q k) (add3 q k) = dot3 k k /\
  dot3 q q = (2 * dot3 k k * (1 - cos_angle r k))%R.
Proof.
  intros Hr Hk.
  pose proof (norm3_pos r Hr) as Hm. pose proof (norm3_pos k Hk) as Hn.
  pose proof (norm3_sqr r) as Hm2. pose proof (norm3_sqr k) as Hn2.
  unfold cos_angle.
  destruct r as [[r0 r1] r2], k as [[k0 k1] k2].
  cbn [unit3 sub3 scale3 add3 dot3] in *.
  set (m := norm3 (r0, r1, r2)) in *. set (n := norm3 (k0, k1, k2)) in *.
  split.
  - replace ((n * (r0 / m - k0 / n) + k0) * (n * (r0 / m - k0 / n) + k0)
             + (n * (r1 / m - k1 / n) + k1) * (n * (r1 / m - k1 / n) + k1)
             + (n * (r2 / m - k2 / n) + k2) * (n * (r2 / m - k2 / n) + k2))%R
      with (n * n * (r0 * r0 + r1 * r1 + r2 * r2) / (m * m))%R
      by (field; lra).
    rewrite <- Hm2, <- Hn2. field. lra.
  - replace (n * (r0 / m - k0 / n) * (n * (r0 / m - k0 / n))
             + n * (r1 / m - k1 / n) * (n * (r1 / m - k1 / n))
             + n * (r2 / m - k2 / n) * (n * (r2 / m - k2 / n)))%R
      with (n * n * (r0 * r0 + r1 * r1 + r2 * r2) / (m * m)
            + (k0 * k0 + k1 * k1 + k2 * k2)
            - 2 * n * (r0 * k0 + r1 * k1 + r2 * k2) / m)%R
      by (field; lra).
    rewrite <- Hm2, <- Hn2. field. lra.
Qed.

(** X21. For pixels away from the origin and a nonzero wave vector [k] of
    three components, [get_reciprocal_space_pixel_position] returns an
    array shaped like the pixel stack whose row [q] for each pixel is
    [|k|] times the difference of the unit directions of pixel and wave
    vector.  Every row satisfies [|q + k| = |k|], so the scattered wave
    vector keeps the length of the incident one, and [|q|^2] is
    [2 |k|^2 (1 - cos)] of the angle between pixel and wave vector. *)
Theorem reciprocal_position_on_ewald_sphere
  (s : list nat) (pixel_center : ndarray R) (k0 k1 k2 : R) :
  s <> [] ->
  shape pixel_center = s ++ [3%nat] ->
  well_formed pixel_center ->
  (forall i, (i < np_prod s)%nat ->
     pixel3 (data pixel_center) i <> (0, 0, 0)%R) ->
  (k0, k1, k2) <> (0, 0, 0)%R ->
  exists q,
    get_reciprocal_space_pixel_position pixel_center [k0; k1; k2] = Ok q /\
    shape q = s ++ [3%nat] /\
    forall i, (i < np_prod s)%nat ->
      pixel3 (data q) i
      = scale3 (norm3 (k0, k1, k2))
          (sub3 (unit3 (pixel3 (data pixel_center) i)) (unit3 (k0, k1, k2)))
      /\
      norm3 (add3 (pixel3 (data q) i) (k0, k1, k2)) = norm3 (k0, k1, k2) /\
      dot3 (pixel3 (data q) i) (pixel3 (data q) i)
      = (2 * dot3 (k0, k1, k2) (k0, k1, k2)
         * (1 - cos_angle (pixel3 (data pixel_center) i) (k0, k1, k2)))%R.
Proof.
  intros Hs Hshape Hwf Hpix Hk.
  destruct (reciprocal_position_aux s pixel_center k0 k1 k2 Hs Hshape Hwf)
    as (q & Hq & Hqs & _ & Hrow).
  exists q. split; [exact Hq|]. split; [exact Hqs|]. intros i Hi.
  split; [exact (Hrow i Hi)|]. rewrite (Hrow i Hi).
  destruct (ewald_sphere_identity (pixel3 (data pixel_center) i) (k0, k1, k2)
              (Hpix i Hi) Hk) as [Hsphere Hsq].
  split; [|exact Hsq].
  unfold norm3 at 1 3. rewrite Hsphere. reflexivity.
Qed.

Lemma reciprocal_position_on_ewald_sphere_witness :
  exists q,
    get_reciprocal_space_pixel_position
      (mk_ndarray [1; 3]%nat [3; 0; 4]%R) [0; 0; 2]%R = Ok q /\
    shape q = [1; 3]%nat /\
    forall i, (i < 1)%nat ->
      pixel3 (data q) i
      = scale3 (norm3 (0, 0, 2)%R)
          (sub3 (unit3 (pixel3 [3; 0; 4]%R i)) (unit3 (0, 0, 2)%R))
      /\
      norm3 (add3 (pixel3 (data q) i) (0, 0, 2)%R) = norm3 (0, 0, 2)%R /\
      dot3 (pixel3 (data q) i) (pixel3 (data q) i)
      = (2 * dot3 (0, 0, 2) (0, 0, 2)
         * (1 - cos_angle (pixel3 [3; 0; 4]%R i) (0, 0, 2)))%R.
Proof.
  apply (reciprocal_position_on_ewald_sphere [1%nat]
           (mk_ndarray [1; 3]%nat [3; 0; 4]%R) 0 0 2).
  - discriminate.
  - reflexivity.
  - reflexivity.
  - intros i Hi. assert (Hzero : i = 0%nat) by (cbn in Hi; lia). subst i.
    unfold pixel3, at2. cbn [data nth Nat.mul Nat.add].
    intros Heq. apply (f_equal (fun v : vec3 => fst (fst v))) in Heq.
    cbn [fst] in Heq. lra.
  - intros Heq. apply (f_equal (fun v : vec3 => snd v)) in Heq.
    cbn [snd] in Heq. lra.
Defined.

Lemma nth_np_map2 {A B C : Type} (f : A -> B -> C) (a : list A) (b : list B)
  (da : A) (db : B) (dc : C) (i : nat) :
  (i < length a)%nat -> (i < length b)%nat ->
  nth i (np_map2 f a b) dc = f (nth i a da) (nth i b db).
Proof.
  unfold np_map2. revert b i.
  induction a as [|x a IH]; intros [|y b] i Ha Hb; cbn [length] in *;
    try lia.
  destruct i as [|i]; cbn [combine map nth fst snd]; [reflexivity|].
  apply IH; lia.
Qed.

Lemma nth_map_seq {B : Type} (G : nat -> B) (d : B) (P i : nat) :
  (i < P)%nat -> nth i (map G (seq 0 P)) d = G i.
Proof.
  intros Hi. rewrite (nth_indep _ d (G 0%nat))
    by (rewrite length_map, length_seq; exact Hi).
  rewrite (map_nth G (seq 0 P) 0%nat i), seq_nth by exact Hi. reflexivity.
Qed.

Lemma solid_angle_aux
  (s : list nat) (pixel_center pixel_area : ndarray R) (o0 o1 o2 : R) :
  s <> [] ->
  shape pixel_center = s ++ [3%nat] ->
  well_formed pixel_center ->
  shape pixel_area = s ->
  well_formed pixel_area ->
  exists omega,
    solid_angle pixel_center pixel_area [o0; o1; o2] = Ok omega /\
    shape omega = s /\
    length (data omega) = np_prod s /\
    forall i, (i < np_prod s)%nat ->
      let r := pixel3 (data pixel_center) i in
      nth i (data omega) 0%R
      = (Rabs (dot3 (unit3 r) (unit3 (o0, o1, o2)))
         * (nth i (data pixel_area) 0 / (norm3 r * norm3 r)))%R.
Proof.
  intros Hs Hshape Hwf Hashape Hawf.
  destruct (pixel_directions s pixel_center Hs Hshape Hwf)
    as (pc1d & Hre & Hdata & Hprod & Hrows & Hdirs).
  cbn zeta in Hrows, Hdirs.
  assert (Halen : length (data pixel_area) = np_prod s).
  { unfold well_formed in Hawf. rewrite Hawf, Hashape. reflexivity. }
  unfold solid_angle. rewrite Hre. cbn [bind].
  rewrite Hdata, Hprod, Hdirs, Hrows, Hashape.
  rewrite (np_prod_dim_nonempty s Hs). cbn [bind].
  unfold np_reshape at 1. cbn [np_prod fold_right].
  rewrite Nat.mul_1_r, Halen, Nat.eqb_refl. cbn [bind data length Nat.eqb negb].
  rewrite !map_map.
  unfold np_broadcast2 at 1.
  rewrite length_map, length_seq, Halen, Nat.eqb_refl. cbn [bind].
  unfold np_broadcast2.
  rewrite length_map, length_seq, np_map2_length
    by (rewrite length_map, length_seq; exact Halen).
  rewrite Halen, Nat.eqb_refl. cbn [bind].
  assert (Hout : forall (a b : list R) (f : R -> R -> R),
            length a = np_prod s -> length b = np_prod s ->
            length (np_map2 f a b) = np_prod s).
  { intros a b f Ha Hb. rewrite np_map2_length; lia. }
  unfold np_reshape. cbn [data].
  rewrite !Hout by (rewrite ?length_map, ?length_seq; try reflexivity;
                    try exact Halen;
                    apply Hout; rewrite ?length_map, ?length_seq;
                    try reflexivity; exact Halen).
  rewrite Nat.eqb_refl.
  eexists. split; [reflexivity|]. split; [reflexivity|]. cbn [data].
  split.
  { apply Hout; [rewrite length_map, length_seq; reflexivity|].
    apply Hout; [exact Halen | rewrite length_map, length_seq; reflexivity]. }
  intros i Hi.
  rewrite (nth_np_map2 Rmult _ _ 0%R 0%R 0%R)
    by (rewrite ?length_map, ?length_seq; try exact Hi;
        rewrite Hout; rewrite ?length_map, ?length_seq;
        try reflexivity; try exact Hi; exact Halen).
  rewrite (nth_np_map2 Rdiv _ _ 0%R 0%R 0%R)
    by (rewrite ?length_map, ?length_seq, ?Halen; exact Hi).
  rewrite !nth_map_seq by exact Hi.
  unfold unit3, pixel3, np_map2, np_sum, norm3.
  rewrite !sum_square3. cbn [map combine fold_left fst snd dot3].
  f_equal. f_equal. ring.
Qed.

Lemma dot3_units (a b : vec3) :
  a <> (0, 0, 0)%R -> b <> (0, 0, 0)%R ->
  dot3 (unit3 a) (unit3 b) = cos_angle a b.
Proof.
  intros Ha Hb. pose proof (norm3_pos a Ha). pose proof (norm3_pos b Hb).
  unfold cos_angle. destruct a as [[a0 a1] a2], b as [[b0 b1] b2].
  unfold unit3.
  set (n := norm3 (a0, a1, a2)) in *. set (m := norm3 (b0, b1, b2)) in *.
  cbn [dot3]. field. lra.
Qed.

(** X22. For pixels away from the origin, pixel areas shaped like the
    pixel stack and a nonzero orientation, [solid_angle] returns an array
    shaped like the areas whose entry for each pixel is the area over the
    squared distance times the absolute cosine of the angle between pixel
    and orientation; it is not negative when the area is not. *)
Theorem solid_angle_is_projected_area_over_distance_squared
  (s : list nat) (pixel_center pixel_area : ndarray R) (o0 o1 o2 : R) :
  s <> [] ->
  shape pixel_center = s ++ [3%nat] ->
  well_formed pixel_center ->
  shape pixel_area = s ->
  well_formed pixel_area ->
  (forall i, (i < np_prod s)%nat ->
     pixel3 (data pixel_center) i <> (0, 0, 0)%R) ->
  (o0, o1, o2) <> (0, 0, 0)%R ->
  exists omega,
    solid_angle pixel_center pixel_area [o0; o1; o2] = Ok omega /\
    shape omega = s /\
    forall i, (i < np_prod s)%nat ->
      let r := pixel3 (data pixel_center) i in
      nth i (data omega) 0%R
      = (Rabs (cos_angle r (o0, o1, o2))
         * (nth i (data pixel_area) 0 / dot3 r r))%R /\
      ((0 <= nth i (data pixel_area) 0)%R -> (0 <= nth i (data omega) 0)%R).
Proof.
  intros Hs Hshape Hwf Hashape Hawf Hpix Ho.
  destruct (solid_angle_aux s pixel_center pixel_area o0 o1 o2
              Hs Hshape Hwf Hashape Hawf) as (omega & Hok & Hos & _ & Hentry).
  exists omega. split; [exact Hok|]. split; [exact Hos|].
  intros i Hi r.
  assert (Hval : nth i (data omega) 0%R
                 = (Rabs (cos_angle r (o0, o1, o2))
                    * (nth i (data pixel_area) 0 / dot3 r r))%R).
  { rewrite (Hentry i Hi). fold r.
    rewrite (dot3_units r (o0, o1, o2) (Hpix i Hi) Ho), norm3_sqr.
    reflexivity. }
  split; [exact Hval|].
  intros Harea. rewrite Hval.
  apply Rmult_le_pos; [apply Rabs_pos|].
  pose proof (norm3_pos r (Hpix i Hi)) as Hn.
  rewrite <- norm3_sqr.
  apply Rmult_le_pos; [exact Harea|].
  apply Rlt_le, Rinv_0_lt_compat. nra.
Qed.

Lemma solid_angle_is_projected_area_over_distance_squared_witness :
  exists omega,
    solid_angle (mk_ndarray [1; 3]%nat [0; 0; 2]%R)
      (mk_ndarray [1%nat] [8]%R) [0; 0; -1]%R = Ok omega /\
    shape omega = [1%nat] /\
    forall i, (i < 1)%nat ->
      let r := pixel3 [0; 0; 2]%R i in
      nth i (data omega) 0%R
      = (Rabs (cos_angle r (0, 0, -1))
         * (nth i [8]%R 0 / dot3 r r))%R /\
      ((0 <= nth i [8]%R 0)%R -> (0 <= nth i (data omega) 0)%R).
Proof.
  apply (solid_angle_is_projected_area_over_distance_squared [1%nat]
           (mk_ndarray [1; 3]%nat [0; 0; 2]%R) (mk_ndarray [1%nat] [8]%R)
           0 0 (-1)).
  - discriminate.
  - reflexivity.
  - reflexivity.
  - reflexivity.
  - reflexivity.
  - intros i Hi. assert (Hzero : i = 0%nat) by (cbn in Hi; lia). subst i.
    unfold pixel3, at2. cbn [data nth Nat.mul Nat.add].
    intros Heq. apply (f_equal (fun v : vec3 => snd v)) in Heq.
    cbn [snd] in Heq. lra.
  - intros Heq. apply (f_equal (fun v : vec3 => snd v)) in Heq.
    cbn [snd] in Heq. lra.
Defined.

Lemma scaled_norm (c o0 o1 o2 : R) :
  sqrt (sum_square [c * o0; c * o1; c * o2]%R)
  = (Rabs c * sqrt (sum_square [o0; o1; o2]))%R.
Proof.
  rewrite !sum_square3. cbn [dot3].
  replace (c * o0 * (c * o0) + c * o1 * (c * o1) + c * o2 * (c * o2))%R
    with (Rsqr c * (o0 * o0 + o1 * o1 + o2 * o2))%R
    by (unfold Rsqr; ring).
  rewrite sqrt_mult by (try apply Rle_0_sqr; nra).
  rewrite sqrt_Rsqr_abs. reflexivity.
Qed.

Lemma cosine_of_scaled_orientation (c o0 o1 o2 : R) (d : list R) :
  c <> 0%R -> (o0, o1, o2) <> (0, 0, 0)%R ->
  Rabs (np_sum (np_map2 Rmult d
                  (map (fun x => x / sqrt (sum_square
                                             [c * o0; c * o1; c * o2]))%R
                     [c * o0; c * o1; c * o2]%R)))
  = Rabs (np_sum (np_map2 Rmult d
                    (map (fun x => x / sqrt (sum_square [o0; o1; o2]))%R
                       [o0; o1; o2]))).
Proof.
  intros Hc Ho. rewrite scaled_norm.
  pose proof (norm3_pos (o0, o1, o2) Ho) as Hn. unfold norm3 in Hn.
  rewrite <- sum_square3 in Hn.
  set (n := sqrt (sum_square [o0; o1; o2])) in *.
  unfold np_map2, np_sum.
  destruct (Rcase_abs c) as [Hneg|Hpos].
  - rewrite (Rabs_left c Hneg).
    rewrite <- (Rabs_Ropp (fold_left Rplus
                             (map (fun p => fst p * snd p)%R
                                (combine d (map (fun x => x / n)%R
                                              [o0; o1; o2]))) 0%R)).
    f_equal.
    destruct d as [|d0 [|d1 [|d2 rest]]];
      cbn [map combine fold_left fst snd];
      rewrite ?combine_nil; cbn [map fold_left];
      first [ring | field; lra].
  - rewrite (Rabs_right c Hpos). f_equal.
    destruct d as [|d0 [|d1 [|d2 rest]]];
      cbn [map combine fold_left fst snd];
      rewrite ?combine_nil; cbn [map fold_left];
      first [ring | field; lra].
Qed.

(** X23. Only the direction of [orientation] up to sign enters
    [solid_angle]: multiplying a nonzero orientation by any nonzero
    number, negative ones included, leaves the result unchanged, whatever
    the other two arguments. *)
Theorem solid_angle_ignores_orientation_scale_and_sign
  (pixel_center pixel_area : ndarray R) (c o0 o1 o2 : R) :
  c <> 0%R ->
  (o0, o1, o2) <> (0, 0, 0)%R ->
  solid_angle pixel_center pixel_area [c * o0; c * o1; c * o2]%R
  = solid_angle pixel_center pixel_area [o0; o1; o2].
Proof.
  intros Hc Ho. unfold solid_angle.
  destruct (reshape_pixels_position_arrays_to_1d pixel_center)
    as [pc1d|e]; [|reflexivity].
  cbn [bind].
  destruct (np_prod_dim (shape pixel_area)) as [area_num|e]; [|reflexivity].
  cbn [bind].
  destruct (np_reshape pixel_area [area_num]) as [area1d|e]; [|reflexivity].
  cbn [bind length Nat.eqb negb].
  rewrite (map_ext _ _
             (fun d => cosine_of_scaled_orientation c o0 o1 o2 d Hc Ho)).
  reflexivity.
Qed.

Lemma solid_angle_ignores_orientation_scale_and_sign_witness :
  solid_angle (mk_ndarray [1; 3]%nat [0; 0; 2]%R) (mk_ndarray [1%nat] [8]%R)
    [-2 * 0; -2 * 0; -2 * 1]%R
  = solid_angle (mk_ndarray [1; 3]%nat [0; 0; 2]%R)
      (mk_ndarray [1%nat] [8]%R) [0; 0; 1]%R.
Proof.
  apply (solid_angle_ignores_orientation_scale_and_sign
           (mk_ndarray [1; 3]%nat [0; 0; 2]%R) (mk_ndarray [1%nat] [8]%R)
           (-2) 0 0 1).
  - lra.
  - intros Heq. apply (f_equal (fun v : vec3 => snd v)) in Heq.
    cbn [snd] in Heq. lra.
Defined.

Lemma polarization_correction_aux
  (s : list nat) (pixel_center : ndarray R) (p0 p1 p2 : R) :
  s <> [] ->
  shape pixel_center = s ++ [3%nat] ->
  well_formed pixel_center ->
  exists correction,
    get_polarization_correction pixel_center [p0; p1; p2] = Ok correction /\
    shape correction = s /\
    forall i, (i < np_prod s)%nat ->
      let c := cross3 (unit3 (pixel3 (data pixel_center) i))
                 (unit3 (p0, p1, p2)) in
      nth i (data correction) 0%R = dot3 c c.
Proof.
  intros Hs Hshape Hwf.
  destruct (pixel_directions s pixel_center Hs Hshape Hwf)
    as (pc1d & Hre & Hdata & Hprod & _ & Hdirs).
  cbn zeta in Hdirs.
  unfold get_polarization_correction. rewrite Hre. cbn [bind].
  rewrite Hdata, Hprod, Hdirs. cbn [length Nat.eqb orb].
  rewrite map_map. unfold np_reshape. cbn [data].
  rewrite length_map, length_seq, Hshape, removelast_snoc, Nat.eqb_refl.
  eexists. split; [reflexivity|]. split; [reflexivity|].
  intros i Hi. cbn [data]. rewrite nth_map_seq by exact Hi.
  unfold pixel3, unit3, norm3, np_cross.
  rewrite !sum_square3. cbn [map nth cross3]. rewrite ?sum_square3.
  reflexivity.
Qed.

(** X24. For pixels away from the origin and a nonzero polarization of
    three components, every entry of [get_polarization_correction] lies
    between zero and one, and it is one for a pixel at right angles to the
    polarization. *)
Theorem polarization_correction_between_zero_and_one
  (s : list nat) (pixel_center : ndarray R) (p0 p1 p2 : R) :
  s <> [] ->
  shape pixel_center = s ++ [3%nat] ->
  well_formed pixel_center ->
  (forall i, (i < np_prod s)%nat ->
     pixel3 (data pixel_center) i <> (0, 0, 0)%R) ->
  (p0, p1, p2) <> (0, 0, 0)%R ->
  exists correction,
    get_polarization_correction pixel_center [p0; p1; p2] = Ok correction /\
    shape correction = s /\
    forall i, (i < np_prod s)%nat ->
      (0 <= nth i (data correction) 0 <= 1)%R /\
      (dot3 (pixel3 (data pixel_center) i) (p0, p1, p2) = 0%R ->
       nth i (data correction) 0%R = 1%R).
Proof.
  intros Hs Hshape Hwf Hpix Hpol.
  destruct (polarization_correction_aux s pixel_center p0 p1 p2
              Hs Hshape Hwf) as (correction & Hok & Hcs & Hentry).
  exists correction. split; [exact Hok|]. split; [exact Hcs|].
  intros i Hi. cbn zeta in Hentry.
  pose proof (cross_unit_sqr (pixel3 (data pixel_center) i) (p0, p1, p2)
                (norm3_nonzero _ (Hpix i Hi)) (norm3_nonzero _ Hpol))
    as Hcross.
  pose proof (dot3_self_nonneg
                (cross3 (unit3 (pixel3 (data pixel_center) i))
                   (unit3 (p0, p1, p2)))) as Hnonneg.
  rewrite (Hentry i Hi). split.
  - split; [exact Hnonneg|]. rewrite Hcross.
    pose proof (Rle_0_sqr (cos_angle (pixel3 (data pixel_center) i)
                             (p0, p1, p2))) as Hsq.
    unfold Rsqr in Hsq. lra.
  - intros Hperp. rewrite Hcross. unfold cos_angle. rewrite Hperp.
    unfold Rdiv. rewrite Rmult_0_l. ring.
Qed.

Lemma polarization_correction_between_zero_and_one_witness :
  exists correction,
    get_polarization_correction (mk_ndarray [1; 3]%nat [0; 3; 4]%R)
      [1; 0; 0]%R = Ok correction /\
    shape correction = [1%nat] /\
    forall i, (i < 1)%nat ->
      (0 <= nth i (data correction) 0 <= 1)%R /\
      (dot3 (pixel3 [0; 3; 4]%R i) (1, 0, 0)%R = 0%R ->
       nth i (data correction) 0%R = 1%R).
Proof.
  apply (polarization_correction_between_zero_and_one [1%nat]
           (mk_ndarray [1; 3]%nat [0; 3; 4]%R) 1 0 0).
  - discriminate.
  - reflexivity.
  - reflexivity.
  - intros i Hi. assert (Hzero : i = 0%nat) by (cbn in Hi; lia). subst i.
    unfold pixel3, at2. cbn [data nth Nat.mul Nat.add].
    intros Heq. apply (f_equal (fun v : vec3 => snd v)) in Heq.
    cbn [snd] in Heq. lra.
  - intros Heq. apply (f_equal (fun v : vec3 => fst (fst v))) in Heq.
    cbn [fst] in Heq. lra.
Defined.

Lemma unit3_is_unit (a : vec3) :
  a <> (0, 0, 0)%R -> dot3 (unit3 a) (unit3 a) = 1%R.
Proof.
  intros Ha. pose proof (norm3_pos a Ha) as Hn.
  pose proof (norm3_sqr a) as Hsq.
  destruct a as [[a0 a1] a2]. unfold unit3.
  set (n := norm3 (a0, a1, a2)) in *. cbn [dot3] in *.
  replace (a0 / n * (a0 / n) + a1 / n * (a1 / n) + a2 / n * (a2 / n))%R
    with ((a0 * a0 + a1 * a1 + a2 * a2) / (n * n))%R by (field; lra).
  rewrite <- Hsq. field. lra.
Qed.

Lemma momentum_transfer_bound (r k : vec3) :
  r <> (0, 0, 0)%R -> k <> (0, 0, 0)%R ->
  (norm3 (scale3 (norm3 k) (sub3 (unit3 r) (unit3 k))) <= 2 * norm3 k)%R.
Proof.
  intros Hr Hk.
  pose proof (norm3_pos k Hk) as Hn.
  pose proof (unit3_is_unit r Hr) as Hu. pose proof (unit3_is_unit k Hk) as Hv.
  destruct (unit3 r) as [[u0 u1] u2]. destruct (unit3 k) as [[v0 v1] v2].
  set (n := norm3 k) in *. cbn [dot3 sub3 scale3] in *.
  unfold norm3. cbn [dot3].
  rewrite <- (sqrt_Rsqr (2 * n)) by lra.
  apply sqrt_le_1_alt. unfold Rsqr.
  pose proof (Rle_0_sqr (u0 + v0)) as S0.
  pose proof (Rle_0_sqr (u1 + v1)) as S1.
  pose proof (Rle_0_sqr (u2 + v2)) as S2.
  pose proof (Rle_0_sqr n) as Hn2. unfold Rsqr in S0, S1, S2, Hn2.
  assert (Hdiff : ((u0 - v0) * (u0 - v0) + (u1 - v1) * (u1 - v1)
                   + (u2 - v2) * (u2 - v2) <= 4)%R) by lra.
  replace (n * (u0 - v0) * (n * (u0 - v0)) + n * (u1 - v1) * (n * (u1 - v1))
           + n * (u2 - v2) * (n * (u2 - v2)))%R
    with (n * n * ((u0 - v0) * (u0 - v0) + (u1 - v1) * (u1 - v1)
                   + (u2 - v2) * (u2 - v2)))%R by ring.
  nra.
Qed.

Lemma scaled_pixel (c : R) (p : list R) (i : nat) :
  (3 * i + 2 < length p)%nat ->
  pixel3 (map (fun x => x * c)%R p) i = scale3 c (pixel3 p i).
Proof.
  intros Hlen. unfold pixel3, scale3.
  rewrite !(at2_map _ 0%R 0%R) by lia.
  apply f_equal2; [apply f_equal2|]; ring.
Qed.

Lemma solid_angle_term_scaled (c : R) (r o : vec3) (area : R) :
  (0 < c)%R -> r <> (0, 0, 0)%R ->
  (Rabs (dot3 (unit3 (scale3 c r)) (unit3 o))
   * (area / (norm3 (scale3 c r) * norm3 (scale3 c r)))
   = / (c * c)
     * (Rabs (dot3 (unit3 r) (unit3 o)) * (area / (norm3 r * norm3 r))))%R.
Proof.
  intros Hc Hr. pose proof (norm3_pos r Hr) as Hn.
  assert (Hnorm : norm3 (scale3 c r) = (c * norm3 r)%R).
  { destruct r as [[r0 r1] r2]. unfold norm3, scale3. cbn [dot3].
    replace (c * r0 * (c * r0) + c * r1 * (c * r1) + c * r2 * (c * r2))%R
      with (Rsqr c * (r0 * r0 + r1 * r1 + r2 * r2))%R
      by (unfold Rsqr; ring).
    rewrite sqrt_mult by (try apply Rle_0_sqr; nra).
    rewrite sqrt_Rsqr by lra. reflexivity. }
  assert (Hunit : unit3 (scale3 c r) = unit3 r).
  { destruct r as [[r0 r1] r2]. unfold unit3.
    change (norm3 (scale3 c (r0, r1, r2))) with
      (norm3 (c * r0, c * r1, c * r2)%R) in Hnorm.
    cbn [scale3]. rewrite Hnorm.
    set (n := norm3 (r0, r1, r2)) in *.
    apply f_equal2; [apply f_equal2|]; field; lra. }
  rewrite Hunit, Hnorm. field. lra.
Qed.

Lemma norm_last_axis_rows (s : list nat) (q : ndarray R) :
  shape q = s ++ [3%nat] ->
  length (data q) = (np_prod s * 3)%nat ->
  shape (np_norm_last_axis q) = s /\
  forall i, (i < np_prod s)%nat ->
    nth i (data (np_norm_last_axis q)) 0%R = norm3 (pixel3 (data q) i).
Proof.
  intros Hshape Hlen. unfold np_norm_last_axis.
  rewrite Hshape, last_last, removelast_snoc. cbn [shape data].
  split; [reflexivity|]. intros i Hi.
  rewrite (np_rows3_seq (np_prod s) _ Hlen), map_map.
  rewrite nth_map_seq by exact Hi.
  unfold norm3, pixel3. rewrite sum_square3. reflexivity.
Qed.

(** X25. For pixels away from the origin, areas shaped like the pixel
    stack and nonzero wave vector, polarization and orientation,
    [get_reciprocal_position_and_correction] returns the reciprocal
    positions and the polarization correction of the two functions it
    calls, the length of each reciprocal position, which is at most twice
    the length of the wave vector, and a solid angle that is 10^12 times
    [solid_angle] of the positions as given, the positions being scaled by
    1e-6 first. *)
Theorem reciprocal_position_and_correction_parts
  (s : list nat) (pixel_position pixel_area : ndarray R)
  (k0 k1 k2 p0 p1 p2 o0 o1 o2 : R) :
  s <> [] ->
  shape pixel_position = s ++ [3%nat] ->
  well_formed pixel_position ->
  shape pixel_area = s ->
  well_formed pixel_area ->
  (forall i, (i < np_prod s)%nat ->
     pixel3 (data pixel_position) i <> (0, 0, 0)%R) ->
  (k0, k1, k2) <> (0, 0, 0)%R ->
  (p0, p1, p2) <> (0, 0, 0)%R ->
  (o0, o1, o2) <> (0, 0, 0)%R ->
  exists q q_norm polarization_correction omega omega_given,
    get_reciprocal_position_and_correction pixel_position pixel_area
      [k0; k1; k2] [p0; p1; p2] [o0; o1; o2]
    = Ok (q, q_norm, polarization_correction, omega) /\
    get_reciprocal_space_pixel_position pixel_position [k0; k1; k2] = Ok q /\
    get_polarization_correction pixel_position [p0; p1; p2]
    = Ok polarization_correction /\
    solid_angle pixel_position pixel_area [o0; o1; o2] = Ok omega_given /\
    shape q_norm = s /\
    forall i, (i < np_prod s)%nat ->
      nth i (data q_norm) 0%R = norm3 (pixel3 (data q) i) /\
      (nth i (data q_norm) 0 <= 2 * norm3 (k0, k1, k2))%R /\
      nth i (data omega) 0%R = (1e12 * nth i (data omega_given) 0)%R.
Proof.
  intros Hs Hshape Hwf Hashape Hawf Hpix Hk Hp Ho.
  assert (Hlen : length (data pixel_position) = (np_prod s * 3)%nat).
  { unfold well_formed in Hwf. rewrite Hwf, Hshape, np_prod_app.
    cbn [np_prod fold_right]. lia. }
  destruct (reciprocal_position_aux s pixel_position k0 k1 k2 Hs Hshape Hwf)
    as (q & Hq & Hqs & Hql & Hrow).
  destruct (polarization_correction_aux s pixel_position p0 p1 p2
              Hs Hshape Hwf) as (pol & Hpol & _ & _).
  destruct (solid_angle_aux s pixel_position pixel_area o0 o1 o2
              Hs Hshape Hwf Hashape Hawf)
    as (omega0 & Homega0 & _ & _ & Hentry0).
  set (scaled := mk_ndarray (shape pixel_position)
                   (map (fun x => x * 1e-6)%R (data pixel_position))).
  assert (Hswf : well_formed scaled).
  { unfold well_formed, scaled. cbn [shape data]. rewrite length_map.
    exact Hwf. }
  destruct (solid_angle_aux s scaled pixel_area o0 o1 o2
              Hs Hshape Hswf Hashape Hawf)
    as (omega & Homega & _ & _ & Hentry).
  destruct (norm_last_axis_rows s q Hqs Hql) as [Hns Hnrow].
  exists q, (np_norm_last_axis q), pol, omega, omega0.
  split.
  { unfold get_reciprocal_position_and_correction.
    rewrite Hq. cbn [bind]. rewrite Hpol. cbn [bind].
    fold scaled. rewrite Homega. reflexivity. }
  split; [exact Hq|]. split; [exact Hpol|]. split; [exact Homega0|].
  split; [exact Hns|].
  intros i Hi. split; [exact (Hnrow i Hi)|]. split.
  - rewrite (Hnrow i Hi), (Hrow i Hi).
    apply momentum_transfer_bound; [exact (Hpix i Hi) | exact Hk].
  - rewrite (Hentry i Hi), (Hentry0 i Hi). cbn zeta.
    unfold scaled. cbn [data].
    rewrite scaled_pixel by lia.
    rewrite (solid_angle_term_scaled 1e-6 _ (o0, o1, o2) _ ltac:(lra)
               (Hpix i Hi)).
    replace (/ (1e-6 * 1e-6))%R with 1e12%R by lra. reflexivity.
Qed.

Lemma reciprocal_position_and_correction_parts_witness :
  exists q q_norm polarization_correction omega omega_given,
    get_reciprocal_position_and_correction
      (mk_ndarray [1; 3]%nat [0; 3; 4]%R) (mk_ndarray [1%nat] [2]%R)
      [0; 0; 1]%R [1; 0; 0]%R [0; 0; 1]%R
    = Ok (q, q_norm, polarization_correction, omega) /\
    get_reciprocal_space_pixel_position
      (mk_ndarray [1; 3]%nat [0; 3; 4]%R) [0; 0; 1]%R = Ok q /\
    get_polarization_correction
      (mk_ndarray [1; 3]%nat [0; 3; 4]%R) [1; 0; 0]%R
    = Ok polarization_correction /\
    solid_angle (mk_ndarray [1; 3]%nat [0; 3; 4]%R)
      (mk_ndarray [1%nat] [2]%R) [0; 0; 1]%R = Ok omega_given /\
    shape q_norm = [1%nat] /\
    forall i, (i < 1)%nat ->
      nth i (data q_norm) 0%R = norm3 (pixel3 (data q) i) /\
      (nth i (data q_norm) 0 <= 2 * norm3 (0, 0, 1))%R /\
      nth i (data omega) 0%R = (1e12 * nth i (data omega_given) 0)%R.
Proof.
  apply (reciprocal_position_and_correction_parts [1%nat]
           (mk_ndarray [1; 3]%nat [0; 3; 4]%R) (mk_ndarray [1%nat] [2]%R)
           0 0 1 1 0 0 0 0 1).
  - discriminate.
  - reflexivity.
  - reflexivity.
  - reflexivity.
  - reflexivity.
  - intros i Hi. assert (Hzero : i = 0%nat) by (cbn in Hi; lia). subst i.
    unfold pixel3, at2. cbn [data nth Nat.mul Nat.add].
    intros Heq. apply (f_equal (fun v : vec3 => snd v)) in Heq.
    cbn [snd] in Heq. lra.
  - intros Heq. apply (f_equal (fun v : vec3 => snd v)) in Heq.
    cbn [snd] in Heq. lra.
  - intros Heq. apply (f_equal (fun v : vec3 => fst (fst v))) in Heq.
    cbn [fst] in Heq. lra.
  - intros Heq. apply (f_equal (fun v : vec3 => snd v)) in Heq.
    cbn [snd] in Heq. lra.
Defined.

(** ** The reciprocal mesh *)

Lemma nth_nested_flat_map (f : nat -> nat -> nat -> R) (n i j k : nat) :
  (i < n)%nat -> (j < n)%nat -> (k < n)%nat ->
  nth ((i * n + j) * n + k)
    (flat_map
       (fun i => flat_map (fun j => map (fun k => f i j k) (seq 0 n))
                   (seq 0 n))
       (seq 0 n)) 0%R
  = f i j k.
Proof.
  intros Hi Hj Hk.
  set (inner := fun i => flat_map (fun j => map (fun k => f i j k) (seq 0 n))
                           (seq 0 n)).
  assert (Hinner : forall a, length (inner a) = (n * n)%nat).
  { intros a. unfold inner. rewrite (length_flat_map_const n).
    - now rewrite length_seq.
    - intros b. now rewrite length_map, length_seq. }
  replace ((i * n + j) * n + k)%nat with (n * n * i + (n * j + k))%nat by lia.
  change (nth (n * n * i + (n * j + k)) (flat_map inner (seq 0 n)) 0%R)
    with (at2 0%R (n * n) (flat_map inner (seq 0 n)) i (n * j + k)).
  rewrite (at2_flat_map_seq 0%R (n * n) n inner) by (try exact Hinner; nia).
  unfold inner.
  change (nth (n * j + k)
            (flat_map (fun j0 => map (fun k0 => f i j0 k0) (seq 0 n))
               (seq 0 n)) 0%R)
    with (at2 0%R n
            (flat_map (fun j0 => map (fun k0 => f i j0 k0) (seq 0 n))
               (seq 0 n)) j k).
  rewrite (at2_flat_map_seq 0%R n n)
    by (try (intros a; now rewrite length_map, length_seq); lia).
  apply nth_map_seq. exact Hk.
Qed.

Lemma np_set_last_axis_component (a b : ndarray R) (lead : list nat)
  (l : nat) :
  shape a = lead ++ [3%nat] ->
  shape b = lead ->
  (l < 3)%nat ->
  exists a',
    np_set_last_axis a l b = Ok a' /\
    shape a' = lead ++ [3%nat] /\
    forall t c, (t < np_prod lead)%nat -> (c < 3)%nat ->
      at2 0%R 3 (data a') t c
      = if Nat.eqb c l then nth t (data b) 0%R else at2 0%R 3 (data a) t c.
Proof.
  intros Ha Hb Hl. unfold np_set_last_axis.
  rewrite Ha, last_last, removelast_snoc, Hb.
  destruct (Nat.ltb_spec l 3) as [_|]; [|lia]. cbn [negb].
  destruct (list_eq_dec Nat.eq_dec lead lead) as [_|Hne];
    [|contradiction].
  eexists. split; [reflexivity|]. split; [reflexivity|].
  intros t c Ht Hc. cbn [data].
  rewrite (at2_flat_map_seq 0%R 3 (np_prod lead))
    by (try (intros x; reflexivity); assumption).
  apply nth_map_seq. exact Hc.
Qed.

Lemma mesh_coordinate_mirror (n : nat) (vl : R) (t : nat) :
  Nat.odd n = true -> (t < n)%nat ->
  mesh_coordinate n vl (n - 1 - t) = (- mesh_coordinate n vl t)%R.
Proof.
  intros Hodd Ht. unfold mesh_coordinate.
  apply Nat.odd_spec in Hodd. destruct Hodd as [m ->].
  replace (Z.of_nat (2 * m + 1) - 1)%Z with (Z.of_nat m * 2)%Z by lia.
  rewrite Z.div_mul by lia.
  replace (Z.of_nat (2 * m + 1 - 1 - t) - Z.of_nat m)%Z
    with (- (Z.of_nat t - Z.of_nat m))%Z by lia.
  rewrite opp_IZR. ring.
Qed.

(** X26. For an odd number [n] of voxels a side,
    [get_reciprocal_mesh(n, voxel_length)] returns an array of shape
    (n, n, n, 3) whose point [(i, j, k)] has the coordinates of grid lines
    [j], [i] and [k], in that order: the first two axes are exchanged, as
    [np.meshgrid] does by default.  The mesh is symmetric about the
    origin: the point mirrored through the centre has the opposite
    coordinates. *)
Theorem reciprocal_mesh_points (n : nat) (voxel_length : R) :
  Nat.odd n = true ->
  exists mesh,
    get_reciprocal_mesh (Z.of_nat n) voxel_length = Ok mesh /\
    shape mesh = [n; n; n; 3%nat] /\
    forall i j k, (i < n)%nat -> (j < n)%nat -> (k < n)%nat ->
      pixel3 (data mesh) ((i * n + j) * n + k)
      = (mesh_coordinate n voxel_length j, mesh_coordinate n voxel_length i,
         mesh_coordinate n voxel_length k) /\
      pixel3 (data mesh) (((n - 1 - i) * n + (n - 1 - j)) * n + (n - 1 - k))
      = scale3 (-1) (pixel3 (data mesh) ((i * n + j) * n + k)).
Proof.
  intros Hodd. unfold get_reciprocal_mesh, np_zeros.
  assert (Hnonneg : forallb (fun d => (0 <=? d)%Z)
                      [Z.of_nat n; Z.of_nat n; Z.of_nat n; 3%Z] = true).
  { cbn [forallb]. destruct (Z.leb_spec 0 (Z.of_nat n)); [reflexivity | lia]. }
  rewrite Hnonneg. cbn [bind map]. rewrite !Nat2Z.id.
  change (Z.to_nat 3) with 3%nat.
  set (x := map (fun i => IZR (Z.of_nat i - (Z.of_nat n - 1) / 2)
                          * voxel_length)%R (seq 0 n)).
  assert (Hx : length x = n) by (unfold x; now rewrite length_map, length_seq).
  assert (Hcoord : forall t, (t < n)%nat ->
            nth t x 0%R = mesh_coordinate n voxel_length t).
  { intros t Ht. unfold x. rewrite nth_map_seq by exact Ht. reflexivity. }
  unfold np_meshgrid. rewrite Hx.
  cbn [seq get_reciprocal_mesh_loop nth_error].
  set (zeros := mk_ndarray [n; n; n; 3%nat] _).
  destruct (np_set_last_axis_component zeros
              (mk_ndarray [n; n; n]
                 (flat_map
                    (fun i => flat_map
                                (fun j => map (fun _ => nth j x 0%R) (seq 0 n))
                                (seq 0 n)) (seq 0 n)))
              [n; n; n] 0 eq_refl eq_refl ltac:(lia))
    as (m0 & H0 & Hs0 & He0).
  rewrite H0. cbn [bind].
  destruct (np_set_last_axis_component m0
              (mk_ndarray [n; n; n]
                 (flat_map
                    (fun i => flat_map
                                (fun j => map (fun _ => nth i x 0%R) (seq 0 n))
                                (seq 0 n)) (seq 0 n)))
              [n; n; n] 1 Hs0 eq_refl ltac:(lia))
    as (m1 & H1 & Hs1 & He1).
  rewrite H1. cbn [bind].
  destruct (np_set_last_axis_component m1
              (mk_ndarray [n; n; n]
                 (flat_map
                    (fun i => flat_map
                                (fun j => map (fun k => nth k x 0%R) (seq 0 n))
                                (seq 0 n)) (seq 0 n)))
              [n; n; n] 2 Hs1 eq_refl ltac:(lia))
    as (m2 & H2 & Hs2 & He2).
  rewrite H2. cbn [bind].
  exists m2. split; [reflexivity|]. split; [exact Hs2|].
  assert (Hpoint : forall i j k, (i < n)%nat -> (j < n)%nat -> (k < n)%nat ->
            pixel3 (data m2) ((i * n + j) * n + k)
            = (mesh_coordinate n voxel_length j,
               mesh_coordinate n voxel_length i,
               mesh_coordinate n voxel_length k)).
  { intros i j k Hi Hj Hk.
    assert (Ht : ((i * n + j) * n + k < np_prod [n; n; n])%nat).
    { cbn [np_prod fold_right]. nia. }
    unfold pixel3.
    rewrite !He2, !He1, !He0 by (assumption || lia).
    cbn [Nat.eqb data].
    rewrite !nth_nested_flat_map by assumption.
    rewrite !Hcoord by assumption. reflexivity. }
  intros i j k Hi Hj Hk. split; [apply Hpoint; assumption|].
  rewrite !Hpoint by lia.
  rewrite !mesh_coordinate_mirror by assumption.
  cbn [scale3]. apply f_equal2; [apply f_equal2|]; ring.
Qed.

Lemma reciprocal_mesh_points_witness :
  exists mesh,
    get_reciprocal_mesh (Z.of_nat 3) 2 = Ok mesh /\
    shape mesh = [3; 3; 3; 3]%nat /\
    forall i j k, (i < 3)%nat -> (j < 3)%nat -> (k < 3)%nat ->
      pixel3 (data mesh) ((i * 3 + j) * 3 + k)
      = (mesh_coordinate 3 2 j, mesh_coordinate 3 2 i, mesh_coordinate 3 2 k)
      /\
      pixel3 (data mesh) (((3 - 1 - i) * 3 + (3 - 1 - j)) * 3 + (3 - 1 - k))
      = scale3 (-1) (pixel3 (data mesh) ((i * 3 + j) * 3 + k)).
Proof. apply (reciprocal_mesh_points 3 2). reflexivity. Defined.

(** ** Random and evenly spaced orientations *)

Lemma nth_concat4 (q0 q1 q2 q3 : list R) (n j : nat) :
  length q0 = n -> length q1 = n -> length q2 = n -> length q3 = n ->
  (j < n)%nat ->
  at2 0%R n (q0 ++ q1 ++ q2 ++ q3) 0 j = nth j q0 0%R /\
  at2 0%R n (q0 ++ q1 ++ q2 ++ q3) 1 j = nth j q1 0%R /\
  at2 0%R n (q0 ++ q1 ++ q2 ++ q3) 2 j = nth j q2 0%R /\
  at2 0%R n (q0 ++ q1 ++ q2 ++ q3) 3 j = nth j q3 0%R.
Proof.
  intros H0 H1 H2 H3 Hj. unfold at2. repeat split.
  - rewrite app_nth1 by lia. f_equal. lia.
  - rewrite app_nth2, app_nth1 by lia. f_equal. lia.
  - rewrite app_nth2 by lia. rewrite app_nth2, app_nth1 by lia. f_equal. lia.
  - rewrite app_nth2 by lia. rewrite app_nth2 by lia.
    rewrite app_nth2 by lia. f_equal. lia.
Qed.

Lemma length_np_row_within {A : Type} (k i : nat) (l : list A) :
  (k * i + k <= length l)%nat -> length (np_row k i l) = k.
Proof.
  intros Hlen. unfold np_row. rewrite length_firstn, length_skipn. lia.
Qed.

(** X27. When the generator returns three rows of [num_pts] numbers, the
    first row between zero and one, every row of [get_random_quat] is a
    unit quaternion. *)
Theorem get_random_quat_unit_rows (rand_3 : nat -> list R) (num_pts : nat) :
  length (rand_3 num_pts) = (3 * num_pts)%nat ->
  Forall (fun u => 0 <= u <= 1)%R (np_row num_pts 0 (rand_3 num_pts)) ->
  exists quat,
    get_random_quat rand_3 num_pts = Ok quat /\
    shape quat = [num_pts; 4%nat] /\
    forall j, (j < num_pts)%nat ->
      sum_square (np_row 4 j (data quat)) = 1%R.
Proof.
  intros Hlen Hu1. unfold get_random_quat, np_transpose. cbn [shape data].
  eexists. split; [reflexivity|]. split; [reflexivity|].
  intros j Hj. cbn [data].
  set (u := rand_3 num_pts) in *.
  set (u1 := np_row num_pts 0 u) in *.
  set (u2 := np_row num_pts 1 u). set (u3 := np_row num_pts 2 u).
  assert (L1 : length u1 = num_pts) by (apply length_np_row_within; lia).
  assert (L2 : length u2 = num_pts) by (apply length_np_row_within; lia).
  assert (L3 : length u3 = num_pts) by (apply length_np_row_within; lia).
  rewrite (np_row_flat_map 4 _ _ 0%nat)
    by (try (intros a; reflexivity); rewrite length_seq; exact Hj).
  rewrite seq_nth by exact Hj. cbn [Nat.add seq map].
  destruct (nth_concat4
              (np_map2 (fun a b => sqrt (1 - a) * sin (2 * PI * b))%R u1 u2)
              (np_map2 (fun a b => sqrt (1 - a) * cos (2 * PI * b))%R u1 u2)
              (np_map2 (fun a b => sqrt a * sin (2 * PI * b))%R u1 u3)
              (np_map2 (fun a b => sqrt a * cos (2 * PI * b))%R u1 u3)
              num_pts j)
    as (E0 & E1 & E2 & E3);
    try (rewrite np_map2_length; lia); try exact Hj.
  rewrite E0, E1, E2, E3.
  rewrite !(nth_np_map2 _ _ _ 0%R 0%R 0%R) by lia.
  assert (Ha : (0 <= nth j u1 0 <= 1)%R).
  { rewrite Forall_forall in Hu1. apply Hu1. apply nth_In. lia. }
  set (a := nth j u1 0%R) in *.
  pose proof (sin2_cos2 (2 * PI * nth j u2 0%R)%R) as S2.
  pose proof (sin2_cos2 (2 * PI * nth j u3 0%R)%R) as S3.
  unfold Rsqr in S2, S3.
  set (s2 := sin (2 * PI * nth j u2 0%R)%R) in *.
  set (c2 := cos (2 * PI * nth j u2 0%R)%R) in *.
  set (s3 := sin (2 * PI * nth j u3 0%R)%R) in *.
  set (c3 := cos (2 * PI * nth j u3 0%R)%R) in *.
  unfold sum_square, np_sum. cbn [map fold_left].
  replace (0 + sqrt (1 - a) * s2 * (sqrt (1 - a) * s2)
           + sqrt (1 - a) * c2 * (sqrt (1 - a) * c2)
           + sqrt a * s3 * (sqrt a * s3) + sqrt a * c3 * (sqrt a * c3))%R
    with (sqrt (1 - a) * sqrt (1 - a) * (s2 * s2 + c2 * c2)
          + sqrt a * sqrt a * (s3 * s3 + c3 * c3))%R by ring.
  rewrite S2, S3, !sqrt_sqrt by lra. ring.
Qed.

Lemma get_random_quat_unit_rows_witness :
  exists quat,
    get_random_quat (fun _ => [1 / 4; 0; 1 / 2]%R) 1 = Ok quat /\
    shape quat = [1; 4]%nat /\
    forall j, (j < 1)%nat -> sum_square (np_row 4 j (data quat)) = 1%R.
Proof.
  apply (get_random_quat_unit_rows (fun _ => [1 / 4; 0; 1 / 2]%R) 1).
  - reflexivity.
  - unfold np_row. cbn [Nat.mul skipn firstn].
    apply Forall_cons; [lra | apply Forall_nil].
Defined.

(** X28. For at least one point, [points_on_1sphere(num_pts, 'y')] returns
    [num_pts] rows, row [i] being the quaternion
    [(cos(i pi / num_pts), 0, sin(i pi / num_pts), 0)] of the rotation
    about y by [i] times a full turn over [num_pts]. *)
Theorem points_on_1sphere_y_rows (num_pts : nat) :
  (1 <= num_pts)%nat ->
  exists points,
    points_on_1sphere num_pts "y" = Ok points /\
    shape points = [num_pts; 4%nat] /\
    forall i, (i < num_pts)%nat ->
      np_row 4 i (data points)
      = [ cos (INR i * PI / INR num_pts); 0;
          sin (INR i * PI / INR num_pts); 0 ]%R.
Proof.
  intros Hn.
  destruct (points_on_1sphere_y num_pts Hn) as (points & Hok & Hshape & Hrow).
  exists points. split; [exact Hok|]. split; [exact Hshape|].
  intros i Hi. rewrite (Hrow i Hi). unfold rotation_quaternion.
  assert (Hpos : (0 < INR num_pts)%R) by (apply lt_0_INR; lia).
  replace (INR i * (360 / INR num_pts) * PI / 180 / 2)%R
    with (INR i * PI / INR num_pts)%R by (field; lra).
  repeat (apply (f_equal2 (@cons R)); [ring|]). reflexivity.
Qed.

Lemma points_on_1sphere_y_rows_witness :
  exists points,
    points_on_1sphere 4 "y" = Ok points /\
    shape points = [4; 4]%nat /\
    forall i, (i < 4)%nat ->
      np_row 4 i (data points)
      = [ cos (INR i * PI / INR 4); 0; sin (INR i * PI / INR 4); 0 ]%R.
Proof. apply (points_on_1sphere_y_rows 4). lia. Defined.

(** X29. [get_random_rotation('y')] returns the rotation about y by the
    drawn fraction of a full turn, a rotation matrix that leaves the
    second coordinate alone.  Every other argument, 'Y' included, returns
    the matrix SciPy draws: the axis name is compared as written. *)
Theorem get_random_rotation_cases (rand : R) (rvs : ndarray R) :
  (exists m,
     get_random_rotation rand rvs "y" = Ok m /\
     is_rotation m /\
     m = mk_ndarray [3; 3]%nat
           [ cos (rand * 2 * PI); 0; sin (rand * 2 * PI);
             0; 1; 0;
             - sin (rand * 2 * PI); 0; cos (rand * 2 * PI) ]%R) /\
  (forall rotation_axis, rotation_axis <> "y"%string ->
     get_random_rotation rand rvs rotation_axis = Ok rvs).
Proof.
  split.
  - unfold get_random_rotation. cbn [String.eqb Ascii.eqb Bool.eqb].
    rewrite (proj1 (proj2 (named_axis_matrices (rand * 2 * PI)))).
    eexists. split; [reflexivity|]. split; [|reflexivity].
    exact (proj1 (elementary_rotations (rand * 2 * PI))).
  - intros rotation_axis Hne. unfold get_random_rotation.
    destruct (String.eqb_spec rotation_axis "y"); [contradiction|].
    reflexivity.
Qed.
